(** * deepstream.io-client-js: records, JSON paths, registry and connection

    A shallow embedding of the record layer of the client
    ([record/json-path.js], [utils/utils.js], [record/record.js],
    [record/record-handler.js], [message/connection.js]) together with the
    properties of the specification that concern it, and with further
    properties of the same code: version tokens, paths, the registry, the
    message queue of the connection, reconnecting and logging in.

    Conventions of the embedding.
    - A JavaScript value is a finite tree; every array and every object
      carries the reference ([ref]) it was allocated at, and [===] on arrays
      and objects compares references only.  The code never mutates an object
      that is reachable from somewhere else (it writes only into copies it has
      just made), so a value can carry its content with it.
    - Numbers are integers ([Z]): the documents and counters of the claims are
      integral, and [===] on them is equality.  IEEE rounding (beyond 2^53) and
      [NaN] as a document value are outside the model; [parseInt] returns
      [None] for [NaN].
    - Strings are sequences of 8-bit code units.
    - A function that allocates threads the next free reference; a function
      that can throw returns a [result]; state changes made before a throw
      persist, as they do in JavaScript. *)

From Stdlib Require Import ZArith List String Ascii Bool Lia.
From stdpp Require Import base tactics option list strings gmap.

Local Open Scope Z_scope.

(** ** Results and the state-and-exception monad *)

Inductive error : Type :=
| InvariantViolation          (* invariant(cond, msg) with a false cond *)
| InvalidArgument (what : string)   (* new Error('invalid argument ...') *)
| InvalidPath                 (* new Error('invalid path ' + path) *)
| InvalidDataOrPath           (* new Error('invalid data or path') *)
| SyntaxError                 (* JSON.parse on malformed text *)
| TypeError                   (* property access on null, call of undefined *)
| Unmodelled.                 (* the source goes on with a value the model has no form for *)

Inductive result (A : Type) : Type :=
| Ok (a : A)
| Throw (e : error).
Arguments Ok {A} a.
Arguments Throw {A} e.

Definition M (S A : Type) : Type := S -> result A * S.

Definition ret {S A} (a : A) : M S A := fun s => (Ok a, s).
Definition throw {S A} (e : error) : M S A := fun s => (Throw e, s).
Definition bind {S A B} (m : M S A) (f : A -> M S B) : M S B :=
  fun s => match m s with
           | (Ok a, s') => f a s'
           | (Throw e, s') => (Throw e, s')
           end.
Definition gets {S A} (f : S -> A) : M S A := fun s => (Ok (f s), s).
Definition modify {S} (f : S -> S) : M S unit := fun s => (Ok tt, f s).
Definition lift_result {S A} (r : result A) : M S A := fun s => (r, s).

Declare Scope js_scope.
Delimit Scope js_scope with js.
Notation "x <- m ;; k" := (bind m (fun x => k))
  (at level 100, m at next level, right associativity) : js_scope.
Notation "m ;;; k" := (bind m (fun _ => k))
  (at level 100, right associativity) : js_scope.

(** ** JavaScript values *)

Unset Elimination Schemes.
Inductive value : Type :=
| VUndef
| VNull
| VBool (b : bool)
| VNum (n : Z)
| VStr (s : string)
| VArr (ref : nat) (elems : list value)
| VObj (ref : nat) (props : list (string * value)).
Set Elimination Schemes.

(** The [props] of an object are its own enumerable properties in
    [Object.keys] order. *)

Definition ref_of (v : value) : option nat :=
  match v with
  | VArr r _ | VObj r _ => Some r
  | _ => None
  end.

(** [a === b] *)
Definition strict_eq (a b : value) : bool :=
  match a, b with
  | VUndef, VUndef => true
  | VNull, VNull => true
  | VBool x, VBool y => Bool.eqb x y
  | VNum x, VNum y => (x =? y)%Z
  | VStr x, VStr y => String.eqb x y
  | (VArr r _ | VObj r _), (VArr r' _ | VObj r' _) => Nat.eqb r r'
  | _, _ => false
  end.

(** Truthiness, as used by [a || b], [!a] and [a ? b : c]. *)
Definition truthy (v : value) : bool :=
  match v with
  | VUndef | VNull => false
  | VBool b => b
  | VNum n => negb (n =? 0)%Z
  | VStr s => negb (String.eqb s "")
  | VArr _ _ | VObj _ _ => true
  end.

Definition is_undefined (v : value) : bool :=
  match v with VUndef => true | _ => false end.
Definition is_null (v : value) : bool :=
  match v with VNull => true | _ => false end.
(** [typeof v === 'object'] *)
Definition typeof_object (v : value) : bool :=
  match v with VNull | VArr _ _ | VObj _ _ => true | _ => false end.

(** ** Decimal numerals *)

Definition digit_value (c : ascii) : option N :=
  let n := N_of_ascii c in
  if ((48 <=? n) && (n <=? 57))%N then Some (n - 48)%N else None.

Definition digit_char (d : N) : ascii := ascii_of_N (48 + d).

Fixpoint show_digits (fuel : nat) (n : N) (acc : string) : string :=
  match fuel with
  | O => acc
  | S fuel' =>
      let acc' := String (digit_char (n mod 10)) acc in
      if (n <? 10)%N then acc' else show_digits fuel' (n / 10) acc'
  end.

(** [String(n)] for a non-negative integer below 1e21. *)
Definition show_N (n : N) : string :=
  show_digits (S (N.to_nat (N.log2 n))) n "".

(** The longest prefix of decimal digits of [s], read as a number on top of
    [acc], and how many digits were read. *)
Fixpoint read_digits (s : string) (acc : N) (count : nat) : N * nat * string :=
  match s with
  | EmptyString => (acc, count, s)
  | String c rest =>
      match digit_value c with
      | Some d => read_digits rest (10 * acc + d)%N (S count)
      | None => (acc, count, s)
      end
  end.

(** White space of the [\s] class and of [parseInt]'s trimming, within the
    8-bit range. *)
Definition is_space (c : ascii) : bool :=
  let n := N_of_ascii c in
  (((9 <=? n) && (n <=? 13)) || (n =? 32) || (n =? 160))%N.

Fixpoint skip_spaces (s : string) : string :=
  match s with
  | String c rest => if is_space c then skip_spaces rest else s
  | EmptyString => s
  end.

(** ** Numbers

    A number that [parseInt] returns, or that comes of adding 1 to one, is an
    IEEE double with an integral value, [NaN] or an infinity.  It is held as
    the integer it is; [None] is [NaN], and [2^1024], which no finite double
    reaches, stands for [Infinity] (so that comparing and adding need no case
    of their own). *)

(** [2^53]: up to it every integer is a double. *)
Definition safe_limit : N := 9007199254740992.

Definition infinity : Z := 2 ^ 1024.

(** The double nearest to the integer [z], the even one of two that are
    equally near; beyond the largest double, the infinity. *)
Definition round_double (z : Z) : Z :=
  let a := Z.abs z in
  let e := Z.log2 a - 52 in                 (* the bits that do not fit *)
  if (e <=? 0)%Z then z
  else
    let q := Z.shiftr a e in
    let r := (a - Z.shiftl q e)%Z in
    let half := Z.shiftl 1 (e - 1) in
    let q' := if (r <? half)%Z then q
              else if (half <? r)%Z then (q + 1)%Z
              else if Z.even q then q else (q + 1)%Z in
    let m := Z.shiftl q' e in
    (Z.sgn z * (if (infinity <=? m)%Z then infinity else m))%Z.

(** The integer that [parseInt(s, 10)] reads: white space, a sign, the
    longest run of decimal digits; [None] when there is no digit. *)
Definition parse_integer (s : string) : option Z :=
  let s := skip_spaces s in
  let '(neg, s) :=
    match s with
    | String "-" rest => (true, rest)
    | String "+" rest => (false, rest)
    | _ => (false, s)
    end in
  match read_digits s 0 0 with
  | (_, O, _) => None
  | (n, _, _) => Some (if neg : bool then - Z.of_N n else Z.of_N n)
  end.

#[global] Arguments round_double : simpl never.

(** [parseInt(s, 10)]: the number value of that integer; [None] is [NaN]. *)
Definition parseInt (s : string) : option Z := round_double <$> parse_integer s.

(** A canonical array index: ["0"], or digits without a leading zero. *)
Definition array_index (key : string) : option nat :=
  match read_digits key 0 0 with
  | (n, S _, EmptyString) =>
      if String.eqb (show_N n) key then Some (N.to_nat n) else None
  | _ => None
  end.

(** ** Property access and stores *)

Fixpoint props_lookup {A} (ps : list (string * A)) (key : string) : option A :=
  match ps with
  | [] => None
  | (k, v) :: rest => if String.eqb k key then Some v else props_lookup rest key
  end.

(** [v[key]], own properties only (what the prototype chain would add is not
    modelled); an index or [length] on an array. *)
Definition get_prop (v : value) (key : string) : value :=
  match v with
  | VObj _ ps => default VUndef (props_lookup ps key)
  | VArr _ elems =>
      match array_index key with
      | Some i => nth i elems VUndef
      | None => if String.eqb key "length"
                then VNum (Z.of_nat (length elems)) else VUndef
      end
  | _ => VUndef
  end.

(** [Object.keys(v)] *)
Definition keys (v : value) : list string :=
  match v with
  | VObj _ ps => map fst ps
  | VArr _ elems => map (fun i => show_N (N.of_nat i)) (seq 0 (length elems))
  | _ => []
  end.

Fixpoint props_replace {A} (ps : list (string * A)) (key : string) (val : A)
  : list (string * A) :=
  match ps with
  | [] => []
  | (k, v) :: rest =>
      if String.eqb k key then (k, val) :: rest
      else (k, v) :: props_replace rest key val
  end.

(** Where a new integer key goes: before the first key that is not an index
    or is a larger index. *)
Fixpoint props_insert_index {A} (ps : list (string * A)) (i : nat)
    (key : string) (val : A) : list (string * A) :=
  match ps with
  | [] => [(key, val)]
  | (k, v) :: rest =>
      match array_index k with
      | Some j => if (j <? i)%nat
                  then (k, v) :: props_insert_index rest i key val
                  else (key, val) :: ps
      | None => (key, val) :: ps
      end
  end.

(** [obj[key] = val] on the property list of an ordinary object: an existing
    key keeps its place; a new integer key is placed among the integer keys,
    which come first in ascending order; any other new key goes last. *)
Definition props_store {A} (ps : list (string * A)) (key : string) (val : A)
  : list (string * A) :=
  match props_lookup ps key with
  | Some _ => props_replace ps key val
  | None =>
      match array_index key with
      | Some i => props_insert_index ps i key val
      | None => ps ++ [(key, val)]
      end
  end.

(** [arr[i] = val]: in range it overwrites, past the end it extends the array
    (the holes read as [undefined]). *)
Definition array_store (elems : list value) (i : nat) (val : value) : list value :=
  if (i <? length elems)%nat then <[i := val]> elems
  else elems ++ repeat VUndef (i - length elems) ++ [val].

(** [node[key] = val].  A named property on an array has no place in the
    model; a store on a primitive is ignored (the file is not in strict
    mode). *)
Definition store_prop (node : value) (key : string) (val : value) : result value :=
  match node with
  | VObj r ps => Ok (VObj r (props_store ps key val))
  | VArr r elems =>
      match array_index key with
      | Some i => Ok (VArr r (array_store elems i val))
      | None => Throw Unmodelled
      end
  | _ => Ok node
  end.

(** Allocation: the state of the path utility is the next free reference.
    Reference 0 is the module-level [EMPTY]. *)
Definition EMPTY : value := VObj 0 [].

Definition new_object : M nat value := fun next => (Ok (VObj next []), S next).
Definition new_array : M nat value := fun next => (Ok (VArr next []), S next).

(** [utils.shallowCopy(obj)] *)
Definition shallowCopy (obj : value) : M nat value :=
  match obj with
  | VArr _ elems => fun next => (Ok (VArr next elems), S next)
  | VObj _ ps => fun next => (Ok (VObj next ps), S next)
  | VNull => throw TypeError          (* Object.keys(null) *)
  | _ => ret obj
  end.

(** ** record/json-path.js *)

Module jsonPath.

(** A character that ends a path token: [.], [[], []] or white space, the
    complement of the class in [PARTS_REG_EXP = /([^.[\]\s]+)/g]. *)
Definition is_separator (c : ascii) : bool :=
  Ascii.eqb c "." || Ascii.eqb c "[" || Ascii.eqb c "]" || is_space c.

(** [String(path).match(PARTS_REG_EXP)]: the maximal runs of characters that
    are not separators, in order; [cur] is the run being read. *)
Fixpoint match_parts (s : string) (cur : string) : list string :=
  match s with
  | EmptyString => if String.eqb cur "" then [] else [cur]
  | String c rest =>
      if is_separator c
      then (if String.eqb cur "" then match_parts rest ""
            else cur :: match_parts rest "")
      else match_parts rest (cur +:+ String c "")
  end.

(** [tokenize(path)]; [None] is [undefined].  The module memoizes the result
    per path in [cache]; the memo returns what the computation returns, so it
    is left out. *)
Definition tokenize (path : option string) : result (list string) :=
  match path with
  | None => Ok []
  | Some p =>
      if String.eqb p "" then Ok []                      (* !path *)
      else
        let parts := if String.eqb p "undefined" then Some []
                     else match match_parts p "" with
                          | [] => None                   (* match gives null *)
                          | ts => Some ts
                          end in
        match parts with
        | None => Throw InvalidPath
        | Some ts => Ok ts
        end
  end.

(** The loop of [get]: [data] is the cursor, [tokens] what is left. *)
Fixpoint get_loop (data : value) (tokens : list string) : result value :=
  match tokens with
  | [] => Ok data
  | tok :: rest =>
      if is_undefined data then Ok VUndef
      else if negb (typeof_object data) || is_null data
           then Throw InvalidDataOrPath
           else get_loop (get_prop data tok) rest
  end.

Definition get (data : value) (path : option string) : result value :=
  match tokenize path with
  | Throw e => Throw e
  | Ok tokens =>
      let data := if truthy data then data else EMPTY in   (* data || EMPTY *)
      get_loop data tokens
  end.

(** *** patch *)

Section patch_loops.
(** The recursive call. *)
Variable patch : value -> value -> nat -> value * nat.
Variable oldValue : value.

(** The loop over [newValue] in the array case; [arr] is [None] for [null],
    else the reference and the elements of the array under construction. *)
Fixpoint patch_array_loop (oldElems : list value) (i : nat)
    (newElems : list value) (arr : option (nat * list value)) (next : nat)
  : option (nat * list value) * nat :=
  match newElems with
  | [] => (arr, next)
  | newElem :: rest =>
      let '(val, next) := patch (nth i oldElems VUndef) newElem next in
      match arr with
      | None =>
          if strict_eq val (nth i oldElems VUndef)
          then patch_array_loop oldElems (S i) rest None next
          else
            (* for (let j = 0; j < i; ++j) arr[j] = oldValue[j] *)
            let copied := map (fun j => nth j oldElems VUndef) (seq 0 i) in
            patch_array_loop oldElems (S i) rest
              (Some (next, array_store copied i val)) (S next)
      | Some (r, elems) =>
          patch_array_loop oldElems (S i) rest
            (Some (r, array_store elems i val)) next
      end
  end.

(** [for (let j = 0; j < i; ++j) obj[newKeys[j]] = oldValue[newKeys[j]]] *)
Definition copy_props (newKeys : list string) (i : nat) : list (string * value) :=
  fold_left (fun ps key => props_store ps key (get_prop oldValue key))
            (firstn i newKeys) [].

(** The loop over [newKeys] in the object case.  [newKeys] is
    [Object.keys(newValue).filter(key => newValue[key] !== undefined)]; the
    loop here runs over the properties of [newValue] and passes over those
    whose value is [undefined], so that [i] counts the keys that remain and
    [newVal] is [newValue[key]]. *)
Fixpoint patch_object_loop (oldKeys newKeys : list string) (i : nat)
    (newProps : list (string * value)) (obj : option (nat * list (string * value)))
    (next : nat) : option (nat * list (string * value)) * nat :=
  match newProps with
  | [] => (obj, next)
  | (key, newVal) :: rest =>
      if is_undefined newVal
      then patch_object_loop oldKeys newKeys i rest obj next
      else
        let '(val, next) := patch (get_prop oldValue key) newVal next in
        match obj with
        | None =>
            if strict_eq val (get_prop oldValue key)
               && bool_decide (oldKeys !! i = Some key)
            then patch_object_loop oldKeys newKeys (S i) rest None next
            else
              patch_object_loop oldKeys newKeys (S i) rest
                (Some (next, props_store (copy_props newKeys i) key val)) (S next)
        | Some (r, ps) =>
            patch_object_loop oldKeys newKeys (S i) rest
              (Some (r, props_store ps key val)) next
        end
  end.
End patch_loops.

Definition defined_keys (ps : list (string * value)) : list string :=
  map fst (List.filter (fun kv => negb (is_undefined (snd kv))) ps).

Fixpoint patch (oldValue newValue : value) (next : nat) {struct newValue}
  : value * nat :=
  if is_null oldValue || is_null newValue then (newValue, next)
  else
    match newValue with
    | VArr _ newElems =>
        match oldValue with
        | VArr _ oldElems =>
            let '(arr, next) :=
              if (length newElems =? length oldElems)%nat
              then patch_array_loop patch oldElems 0 newElems None next
              else patch_array_loop patch oldElems 0 newElems
                     (Some (next, [])) (S next) in
            match arr with                      (* arr || oldValue *)
            | Some (r, elems) => (VArr r elems, next)
            | None => (oldValue, next)
            end
        | _ => (if strict_eq newValue oldValue then oldValue else newValue, next)
        end
    | VObj _ newProps =>
        if typeof_object oldValue then
          let newKeys := defined_keys newProps in
          let oldKeys := keys oldValue in
          let '(obj, next) :=
            if (length newKeys =? length oldKeys)%nat
            then patch_object_loop patch oldValue oldKeys newKeys 0 newProps None next
            else patch_object_loop patch oldValue oldKeys newKeys 0 newProps
                   (Some (next, [])) (S next) in
          match obj with                        (* obj || oldValue *)
          | Some (r, ps) => (VObj r ps, next)
          | None => (oldValue, next)
          end
        else (if strict_eq newValue oldValue then oldValue else newValue, next)
    | _ => (if strict_eq newValue oldValue then oldValue else newValue, next)
    end.

(** *** set *)

(** [!isNaN(token)]: the token converts to a number.  A token holds no dot and
    no white space, which leaves, of the numeric literals of [Number(string)]:
    signed decimal digits with an optional exponent, signed [Infinity], and
    unsigned hexadecimal, octal and binary literals. *)
Definition all_chars (p : ascii -> bool) (s : string) : bool :=
  forallb p (list_ascii_of_string s).

Definition is_digit (c : ascii) : bool := bool_decide (is_Some (digit_value c)).
Definition is_hex_digit (c : ascii) : bool :=
  let n := N_of_ascii c in
  (is_digit c || ((65 <=? n) && (n <=? 70)) || ((97 <=? n) && (n <=? 102)))%N.
Definition is_octal_digit (c : ascii) : bool :=
  let n := N_of_ascii c in ((48 <=? n) && (n <=? 55))%N.
Definition is_binary_digit (c : ascii) : bool :=
  Ascii.eqb c "0" || Ascii.eqb c "1".

Definition nonempty_all (p : ascii -> bool) (s : string) : bool :=
  negb (String.eqb s "") && all_chars p s.

Definition strip_sign (s : string) : string :=
  match s with
  | String "+" rest | String "-" rest => rest
  | _ => s
  end.

Definition is_decimal_literal (s : string) : bool :=
  match read_digits s 0 0 with
  | (_, O, _) => false
  | (_, _, EmptyString) => true
  | (_, _, String e rest) =>
      (Ascii.eqb e "e" || Ascii.eqb e "E") && nonempty_all is_digit (strip_sign rest)
  end.

Definition is_numeric (token : string) : bool :=
  match token with
  | String "0" (String x rest) =>
      if Ascii.eqb x "x" || Ascii.eqb x "X" then nonempty_all is_hex_digit rest
      else if Ascii.eqb x "o" || Ascii.eqb x "O" then nonempty_all is_octal_digit rest
      else if Ascii.eqb x "b" || Ascii.eqb x "B" then nonempty_all is_binary_digit rest
      else is_decimal_literal token
  | _ =>
      let body := strip_sign token in
      String.eqb body "Infinity" || is_decimal_literal body
  end.

(** The loop of [set].  The source walks down with [node], storing each fresh
    copy into its parent before it descends; the copy is reachable only
    through [result], so the same tree is built here from the leaf upwards and
    [set_loop node tokens] returns [node] as it is when the loop ends. *)
Fixpoint set_loop (node : value) (tokens : list string) (newValue : value)
  : M nat value :=
  match tokens with
  | [] => ret node
  | [tok] => lift_result (store_prop node tok newValue)
  | tok :: (nextTok :: _) as rest =>
      (child <-
         (if negb (is_undefined (get_prop node tok))
          then shallowCopy (get_prop node tok)
          else if is_numeric nextTok then new_array
          else new_object) ;;
       child' <- set_loop child rest newValue ;;
       lift_result (store_prop node tok child'))%js
  end.

(** [patch] as a computation on the allocator. *)
Definition patchM (oldValue newValue : value) : M nat value :=
  fun next => let '(v, next') := patch oldValue newValue next in (Ok v, next').

Definition set (data : value) (path : option string) (val : value) : M nat value :=
  (tokens <- lift_result (tokenize path) ;;
   match tokens with
   | [] => patchM data val
   | _ =>
       oldValue <- lift_result (get data path) ;;
       newValue <- patchM oldValue val ;;
       if strict_eq newValue oldValue then ret data
       else
         result <- (if truthy data then shallowCopy data else new_object) ;;
         set_loop result tokens newValue
   end)%js.

End jsonPath.

(** ** JSON documents and [JSON.parse] *)

Unset Elimination Schemes.
Inductive json : Type :=
| JNull
| JBool (b : bool)
| JNum (n : Z)
| JStr (s : string)
| JArr (items : list json)
| JObj (members : list (string * json)).
Set Elimination Schemes.

(** The value [JSON.parse] builds for a document: fresh arrays and objects,
    members defined in the order they are written (a repeated name keeps its
    first place and its last value). *)
Fixpoint reify (j : json) (next : nat) : value * nat :=
  match j with
  | JNull => (VNull, next)
  | JBool b => (VBool b, next)
  | JNum n => (VNum n, next)
  | JStr s => (VStr s, next)
  | JArr items =>
      let '(elems, next') :=
        (fix go (items : list json) (next : nat) : list value * nat :=
           match items with
           | [] => ([], next)
           | item :: rest =>
               let '(v, next) := reify item next in
               let '(vs, next) := go rest next in
               (v :: vs, next)
           end) items (S next) in
      (VArr next elems, next')
  | JObj members =>
      let '(ps, next') :=
        (fix go (members : list (string * json)) (acc : list (string * value))
             (next : nat) : list (string * value) * nat :=
           match members with
           | [] => (acc, next)
           | (k, item) :: rest =>
               let '(v, next) := reify item next in
               go rest (props_store acc k v) next
           end) members [] (S next) in
      (VObj next ps, next')
  end.

(** ** Induction on values, JSON values, structural equality *)

Section value_induction.
Variable P : value -> Prop.
Hypothesis Hundef : P VUndef.
Hypothesis Hnull : P VNull.
Hypothesis Hbool : forall b, P (VBool b).
Hypothesis Hnum : forall n, P (VNum n).
Hypothesis Hstr : forall s, P (VStr s).
Hypothesis Harr : forall r elems, Forall P elems -> P (VArr r elems).
Hypothesis Hobj : forall r ps, Forall (fun kv => P (snd kv)) ps -> P (VObj r ps).

Fixpoint value_ind (v : value) : P v :=
  match v with
  | VUndef => Hundef
  | VNull => Hnull
  | VBool b => Hbool b
  | VNum n => Hnum n
  | VStr s => Hstr s
  | VArr r elems =>
      Harr r elems
        ((fix go (l : list value) : Forall P l :=
            match l with
            | [] => @List.Forall_nil _ P
            | x :: l' => @List.Forall_cons _ P x l' (value_ind x) (go l')
            end) elems)
  | VObj r ps =>
      Hobj r ps
        ((fix go (l : list (string * value)) : Forall (fun kv => P (snd kv)) l :=
            match l with
            | [] => @List.Forall_nil _ _
            | x :: l' => @List.Forall_cons _ (fun kv => P (snd kv)) x l' (value_ind (snd x)) (go l')
            end) ps)
  end.
End value_induction.

(** Induction on documents. *)
Section json_induction.
Variable P : json -> Prop.
Hypothesis Hnull : P JNull.
Hypothesis Hbool : forall b, P (JBool b).
Hypothesis Hnum : forall n, P (JNum n).
Hypothesis Hstr : forall s, P (JStr s).
Hypothesis Harr : forall items, Forall P items -> P (JArr items).
Hypothesis Hobj : forall members, Forall (fun m => P (snd m)) members -> P (JObj members).

End json_induction.

(** A JSON value: no [undefined] anywhere, and the keys of an object are
    distinct (as they are in every JavaScript object). *)
Fixpoint is_json (v : value) : bool :=
  match v with
  | VUndef => false
  | VNull | VBool _ | VNum _ | VStr _ => true
  | VArr _ elems => forallb is_json elems
  | VObj _ ps =>
      bool_decide (NoDup (map fst ps)) && forallb (fun kv => is_json (snd kv)) ps
  end.

(** The structure of a value: the value without its references.  Two values
    are structurally equal when their structures are the same, member for
    member in [Object.keys] order. *)
Fixpoint erase (v : value) : value :=
  match v with
  | VArr _ elems => VArr 0 (map erase elems)
  | VObj _ ps => VObj 0 (map (fun kv => (fst kv, erase (snd kv))) ps)
  | _ => v
  end.

Definition structurally_equal (a b : value) : Prop := erase a = erase b.

(** ** utils/utils.js: version tokens *)

Module utils.

(** [s.indexOf(c)] for a one-character needle; [-1] when absent. *)
Fixpoint indexOf (s : string) (c : ascii) : Z :=
  match s with
  | EmptyString => -1
  | String x rest =>
      if Ascii.eqb x c then 0
      else let i := indexOf rest c in if (i <? 0)%Z then -1 else i + 1
  end.

Definition str_length (s : string) : Z := Z.of_nat (String.length s).

(** An index argument of [slice], relative to the end when negative and
    clamped to the string. *)
Definition clamp_index (s : string) (i : Z) : nat :=
  Z.to_nat (if (i <? 0)%Z then Z.max (str_length s + i) 0
            else Z.min i (str_length s)).

(** [s.slice(from, to)] and [s.slice(from)] *)
Definition slice (s : string) (from to : Z) : string :=
  let a := clamp_index s from in
  let b := clamp_index s to in
  String.substring a (b - a) s.
Definition slice_from (s : string) (from : Z) : string :=
  slice s from (str_length s).

(** [splitRev(s)]; [None] stands for [null] and [undefined]. *)
Definition splitRev (s : option string) : list string :=
  match s with
  | None => []
  | Some s =>
      if String.eqb s "" then []                         (* !s *)
      else
        let i := indexOf s "-" in
        [slice s 0 i; slice_from s (i + 1)]
  end.

(** [a >= b] on strings: code units compared from the left. *)
Fixpoint string_ge (a b : string) : bool :=
  match a, b with
  | _, EmptyString => true
  | EmptyString, String _ _ => false
  | String x a', String y b' =>
      if (N_of_ascii y <? N_of_ascii x)%N then true
      else if (N_of_ascii x <? N_of_ascii y)%N then false
      else string_ge a' b'
  end.

(** [x > y] on numbers, false when either is [NaN]. *)
Definition number_gt (x y : option Z) : bool :=
  match x, y with
  | Some x, Some y => (y <? x)%Z
  | _, _ => false
  end.

Definition is_empty_version (v : option string) : bool :=     (* !v *)
  match v with
  | None => true
  | Some s => String.eqb s ""
  end.

(** [compareVersions(a, b)]: is [a] at least as recent as [b]? *)
Definition compareVersions (a b : option string) : bool :=
  if is_empty_version a then false
  else if is_empty_version b then true
  else
    match splitRev a, splitRev b with
    | [av; ar], [bv; br] =>
        number_gt (parseInt av) (parseInt bv)
        || (String.eqb av bv && string_ge ar br)
    | _, _ => false       (* not reached: both are non-empty strings *)
    end.

End utils.

(** ** Version tokens of the specification

    A version token is [counter-nonce]; the counter is written in decimal
    without leading zeros, as [`${start + 1}-${xuid()}`] writes it. *)

Definition version_token (counter : N) (nonce : string) : string :=
  show_N counter +:+ "-" +:+ nonce.

(** The version order: the higher counter wins, and on equal counters the
    nonce that is greater from the left, code unit by code unit. *)
Fixpoint string_compare (a b : string) : comparison :=
  match a, b with
  | EmptyString, EmptyString => Eq
  | EmptyString, String _ _ => Lt
  | String _ _, EmptyString => Gt
  | String x a', String y b' =>
      match (N_of_ascii x ?= N_of_ascii y)%N with
      | Eq => string_compare a' b'
      | c => c
      end
  end.

Definition version_le (w v : N * string) : Prop :=
  (fst w < fst v)%N \/ (fst w = fst v /\ string_compare (snd w) (snd v) <> Gt).

(** [String(x)] of a number; [None] is [NaN]. *)
Definition show_number (x : option Z) : string :=
  match x with
  | None => "NaN"
  | Some z => if (z <? 0)%Z then "-" +:+ show_N (Z.to_N (- z)) else show_N (Z.to_N z)
  end.

(** [String(x)] of a number beyond [2^53]: the shortest decimal numeral that
    reads back as [x], the nearest to [x] of those, written in full below
    [1e21] and with an exponent from there on. *)
Fixpoint shortest_numeral (fuel k : nat) (x : Z) (len : nat) : Z :=
  match fuel with
  | O => x
  | S fuel' =>
      let p := (10 ^ Z.of_nat (len - k))%Z in
      let v0 := (x / p * p)%Z in
      let v1 := (v0 + p)%Z in
      let ok0 := (round_double v0 =? x)%Z in
      let ok1 := (round_double v1 =? x)%Z in
      if ok0 && ok1 then
        if (x - v0 <? v1 - x)%Z then v0
        else if (v1 - x <? x - v0)%Z then v1
        else if Z.even (x / p) then v0 else v1
      else if ok0 then v0
      else if ok1 then v1
      else shortest_numeral fuel' (S k) x len
  end.

Fixpoint strip_zeros (fuel : nat) (v : Z) : Z :=
  match fuel with
  | O => v
  | S fuel' => if (v mod 10 =? 0)%Z then strip_zeros fuel' (v / 10) else v
  end.

Definition show_exponent (v : Z) : string :=
  let digits := show_N (Z.to_N v) in
  let significant := show_N (Z.to_N (strip_zeros (String.length digits) v)) in
  match significant with
  | String d EmptyString => String d "e+"
  | String d rest => String d ("." +:+ rest +:+ "e+")
  | EmptyString => "e+"
  end +:+ show_N (N.of_nat (String.length digits - 1)).

(** [String(x)] of a number as [parseInt] and [+] make them. *)
Definition show_double (x : option Z) : string :=
  match x with
  | None => "NaN"
  | Some z =>
      let a := Z.abs z in
      if (a <=? Z.of_N safe_limit)%Z then show_number (Some z)
      else
        (if (z <? 0)%Z then "-" else "") +:+
        (if (infinity <=? a)%Z then "Infinity"
         else
           let v := shortest_numeral 17 1 a (String.length (show_N (Z.to_N a))) in
           if (v <? 10 ^ 21)%Z then show_N (Z.to_N v) else show_exponent v)
  end.

#[global] Arguments show_double : simpl never.

(** ** Messages and constants *)

Inductive TOPIC := CONNECTION | AUTH | ERROR | EVENT | RECORD | RPC.
Inductive ACTIONS :=
| ACK | READ | UPDATE | UNSUBSCRIBE | SUBSCRIPTION_HAS_PROVIDER | ACTION_ERROR
| PING | PONG | CHALLENGE | CHALLENGE_RESPONSE | REDIRECT | REJECTION | REQUEST
| UNLISTEN.
Inductive CONNECTION_STATE :=
| CLOSED | AWAITING_CONNECTION | CHALLENGING | AWAITING_AUTHENTICATION
| AUTHENTICATING | OPEN | RECONNECTING | STATE_ERROR.

Global Instance TOPIC_eq_dec : EqDecision TOPIC.
Proof. solve_decision. Defined.
Global Instance ACTIONS_eq_dec : EqDecision ACTIONS.
Proof. solve_decision. Defined.
Global Instance CONNECTION_STATE_eq_dec : EqDecision CONNECTION_STATE.
Proof. solve_decision. Defined.

(** The event names of [C.EVENT] that the code here compares or reports.  The
    constants file is not among the sources; the names stand for the values
    it gives them. *)
Definition EVENT_CONNECTION_ERROR : string := "connectionError".
Definition EVENT_MESSAGE_DENIED : string := "MESSAGE_DENIED".
Definition EVENT_CONNECTION_AUTHENTICATION_TIMEOUT : string :=
  "CONNECTION_AUTHENTICATION_TIMEOUT".

(** A parsed inbound message; [data] is [message.data]. *)
Record Message := { topic : TOPIC; action : ACTIONS; data : list string }.

(** What [connection.sendMsg(topic, action, data)] was called with. *)
Record Sent := { sent_topic : TOPIC; sent_action : ACTIONS; sent_data : list value }.

(** [null] for an unset version, the string otherwise. *)
Definition version_value (v : option string) : value :=
  match v with
  | None => VNull
  | Some s => VStr s
  end.

(** ** record/record.js *)

Module record.

(** A promise made by [whenReady]. *)
Inductive promise := Pending | Resolved | Rejected (reason : string).

(** A listener on the record's own events: the two a pending [whenReady]
    registers with [once], or one of the user's. *)
Inductive listener :=
| once_resolve (p : nat)          (* this.once('ready', resolve) *)
| once_reject (p : nat)           (* this.once('destroy', () => reject(new Error('destroyed'))) *)
| user_listener (f : nat).

(** An argument of [subscribe] and [unsubscribe], told apart by [typeof]. *)
Inductive argument :=
| arg_string (s : string)
| arg_function (f : nat)
| arg_boolean (b : bool)
| arg_other.

Record PatchEntry := { entry_path : string; entry_data : value }.

(** The fields of a record.  [_eventEmitter] is [this._eventEmitter._callbacks]
    (callbacks per subscribed path, [None] before the first [on]);
    [_callbacks] holds the listeners of the record's own emitter. *)
Record state := {
  name : string;
  usages : Z;
  isDestroyed : bool;
  isReady : bool;
  isSubscribed : bool;
  hasProvider : value;
  version : option string;
  _data : value;
  _patchQueue : option (list PatchEntry);
  _eventEmitter : option (list (string * list nat));
  _callbacks : list (string * listener)
}.

(** What a record shares with the rest of the client: the allocator, the
    messages handed to the connection, the number of [xuid()] calls so far, the
    promises handed out, the calls made to the user's callbacks, and the
    records listening to [connectionStateChanged] on the client. *)
Record env := {
  next_ref : nat;
  outbox : list Sent;
  xuid_calls : nat;
  promises : list promise;
  calls : list (nat * value);
  client_listeners : list string
}.

Definition set_usages x (r : state) : state :=
  {| name := name r; usages := x; isDestroyed := isDestroyed r; isReady := isReady r;
     isSubscribed := isSubscribed r; hasProvider := hasProvider r; version := version r;
     _data := _data r; _patchQueue := _patchQueue r; _eventEmitter := _eventEmitter r;
     _callbacks := _callbacks r |}.
Definition set_isDestroyed x (r : state) : state :=
  {| name := name r; usages := usages r; isDestroyed := x; isReady := isReady r;
     isSubscribed := isSubscribed r; hasProvider := hasProvider r; version := version r;
     _data := _data r; _patchQueue := _patchQueue r; _eventEmitter := _eventEmitter r;
     _callbacks := _callbacks r |}.
Definition set_isReady x (r : state) : state :=
  {| name := name r; usages := usages r; isDestroyed := isDestroyed r; isReady := x;
     isSubscribed := isSubscribed r; hasProvider := hasProvider r; version := version r;
     _data := _data r; _patchQueue := _patchQueue r; _eventEmitter := _eventEmitter r;
     _callbacks := _callbacks r |}.
Definition set_isSubscribed x (r : state) : state :=
  {| name := name r; usages := usages r; isDestroyed := isDestroyed r; isReady := isReady r;
     isSubscribed := x; hasProvider := hasProvider r; version := version r;
     _data := _data r; _patchQueue := _patchQueue r; _eventEmitter := _eventEmitter r;
     _callbacks := _callbacks r |}.
Definition set_hasProvider x (r : state) : state :=
  {| name := name r; usages := usages r; isDestroyed := isDestroyed r; isReady := isReady r;
     isSubscribed := isSubscribed r; hasProvider := x; version := version r;
     _data := _data r; _patchQueue := _patchQueue r; _eventEmitter := _eventEmitter r;
     _callbacks := _callbacks r |}.
Definition set_version x (r : state) : state :=
  {| name := name r; usages := usages r; isDestroyed := isDestroyed r; isReady := isReady r;
     isSubscribed := isSubscribed r; hasProvider := hasProvider r; version := x;
     _data := _data r; _patchQueue := _patchQueue r; _eventEmitter := _eventEmitter r;
     _callbacks := _callbacks r |}.
Definition set_data x (r : state) : state :=
  {| name := name r; usages := usages r; isDestroyed := isDestroyed r; isReady := isReady r;
     isSubscribed := isSubscribed r; hasProvider := hasProvider r; version := version r;
     _data := x; _patchQueue := _patchQueue r; _eventEmitter := _eventEmitter r;
     _callbacks := _callbacks r |}.
Definition set_patchQueue x (r : state) : state :=
  {| name := name r; usages := usages r; isDestroyed := isDestroyed r; isReady := isReady r;
     isSubscribed := isSubscribed r; hasProvider := hasProvider r; version := version r;
     _data := _data r; _patchQueue := x; _eventEmitter := _eventEmitter r;
     _callbacks := _callbacks r |}.
Definition set_eventEmitter x (r : state) : state :=
  {| name := name r; usages := usages r; isDestroyed := isDestroyed r; isReady := isReady r;
     isSubscribed := isSubscribed r; hasProvider := hasProvider r; version := version r;
     _data := _data r; _patchQueue := _patchQueue r; _eventEmitter := x;
     _callbacks := _callbacks r |}.
Definition set_callbacks x (r : state) : state :=
  {| name := name r; usages := usages r; isDestroyed := isDestroyed r; isReady := isReady r;
     isSubscribed := isSubscribed r; hasProvider := hasProvider r; version := version r;
     _data := _data r; _patchQueue := _patchQueue r; _eventEmitter := _eventEmitter r;
     _callbacks := x |}.

Definition set_next_ref x (e : env) : env :=
  {| next_ref := x; outbox := outbox e; xuid_calls := xuid_calls e;
     promises := promises e; calls := calls e; client_listeners := client_listeners e |}.
Definition set_outbox x (e : env) : env :=
  {| next_ref := next_ref e; outbox := x; xuid_calls := xuid_calls e;
     promises := promises e; calls := calls e; client_listeners := client_listeners e |}.
Definition set_xuid_calls x (e : env) : env :=
  {| next_ref := next_ref e; outbox := outbox e; xuid_calls := x;
     promises := promises e; calls := calls e; client_listeners := client_listeners e |}.
Definition set_promises x (e : env) : env :=
  {| next_ref := next_ref e; outbox := outbox e; xuid_calls := xuid_calls e;
     promises := x; calls := calls e; client_listeners := client_listeners e |}.
Definition set_calls x (e : env) : env :=
  {| next_ref := next_ref e; outbox := outbox e; xuid_calls := xuid_calls e;
     promises := promises e; calls := x; client_listeners := client_listeners e |}.
Definition set_client_listeners x (e : env) : env :=
  {| next_ref := next_ref e; outbox := outbox e; xuid_calls := xuid_calls e;
     promises := promises e; calls := calls e; client_listeners := x |}.

(** A method of a record runs on the record and on what it shares. *)
Definition method (A : Type) : Type := M (state * env) A.

Definition this {A} (f : state -> A) : method A := gets (fun s => f (fst s)).
Definition shared {A} (f : env -> A) : method A := gets (fun s => f (snd s)).
Definition update (f : state -> state) : method unit :=
  modify (fun s => (f (fst s), snd s)).
Definition update_shared (f : env -> env) : method unit :=
  modify (fun s => (fst s, f (snd s))).

(** Run a computation of the path utility on the shared allocator. *)
Definition alloc {A} (m : M nat A) : method A :=
  fun s => let '(r, next) := m (next_ref (snd s)) in
           (r, (fst s, set_next_ref next (snd s))).

(** [invariant(cond, msg)] *)
Definition invariant (cond : bool) : method unit :=
  if cond then ret tt else throw InvariantViolation.

(** [this._connection.sendMsg(topic, action, data)] *)
Definition sendMsg (t : TOPIC) (a : ACTIONS) (d : list value) : method unit :=
  update_shared (fun e =>
    set_outbox (outbox e ++ [{| sent_topic := t; sent_action := a; sent_data := d |}]) e).


(** *** The two emitters (component-emitter) *)

Definition settle (p : nat) (outcome : promise) : method unit :=
  update_shared (fun e =>
    match promises e !! p with
    | Some Pending => set_promises (<[p := outcome]> (promises e)) e
    | _ => e                                  (* a settled promise stays as it is *)
    end).

Definition call (f : nat) (arg : value) : method unit :=
  update_shared (fun e => set_calls (calls e ++ [(f, arg)]) e).

Definition run_listener (l : listener) (arg : value) : method unit :=
  match l with
  | once_resolve p => settle p Resolved
  | once_reject p => settle p (Rejected "destroyed")
  | user_listener f => call f arg
  end.

Definition is_once (l : listener) : bool :=
  match l with user_listener _ => false | _ => true end.

Fixpoint run_listeners (ls : list listener) (arg : value) : method unit :=
  match ls with
  | [] => ret tt
  | l :: rest => (run_listener l arg ;;; run_listeners rest arg)%js
  end.

(** [this.emit(event, arg)]: every listener of the event is called; one
    registered with [once] is taken off as it fires. *)
Definition emit (event : string) (arg : value) : method unit :=
  (ls <- this _callbacks ;;
   let fired := List.filter (fun el => String.eqb (fst el) event) ls in
   let kept := List.filter (fun el => negb (String.eqb (fst el) event && is_once (snd el))) ls in
   update (set_callbacks kept) ;;;
   run_listeners (map snd fired) arg)%js.

(** The event name of a path: [undefined] is the key ["undefined"]. *)
Definition path_key (path : option string) : string := default "undefined" path.

(** [this._eventEmitter.on(path, callback)] *)
Definition emitter_on (path : option string) (f : nat) : method unit :=
  update (fun r =>
    let m := default [] (_eventEmitter r) in
    let old := default [] (props_lookup m (path_key path)) in
    set_eventEmitter (Some (props_store m (path_key path) (old ++ [f]))) r).

Fixpoint remove_first (f : nat) (l : list nat) : list nat :=
  match l with
  | [] => []
  | g :: rest => if Nat.eqb g f then rest else g :: remove_first f rest
  end.

(** [this._eventEmitter.off(path, callback)], always called with two
    arguments: the first registration of [callback] under [path] goes. *)
Definition emitter_off (path : option string) (f : option nat) : method unit :=
  update (fun r =>
    let m := default [] (_eventEmitter r) in
    set_eventEmitter
      (Some match props_lookup m (path_key path), f with
            | Some l, Some f => props_store m (path_key path) (remove_first f l)
            | _, _ => m
            end) r).

Fixpoint call_all (fs : list nat) (arg : value) : method unit :=
  match fs with
  | [] => ret tt
  | f :: rest => (call f arg ;;; call_all rest arg)%js
  end.

(** [this._eventEmitter.emit(path, arg)] *)
Definition emitter_emit (key : string) (arg : value) : method unit :=
  (m <- this _eventEmitter ;;
   call_all (default [] (props_lookup (default [] m) key)) arg)%js.

(** *** The methods *)

Record normalized := {
  args_path : option string;
  args_callback : option nat;
  args_triggerNow : option bool
}.

(** [_normalizeArguments(args)] *)
Fixpoint _normalizeArguments (args : list argument) (result : normalized) : normalized :=
  match args with
  | [] => result
  | arg_string s :: rest =>
      _normalizeArguments rest
        {| args_path := Some s; args_callback := args_callback result;
           args_triggerNow := args_triggerNow result |}
  | arg_function f :: rest =>
      _normalizeArguments rest
        {| args_path := args_path result; args_callback := Some f;
           args_triggerNow := args_triggerNow result |}
  | arg_boolean b :: rest =>
      _normalizeArguments rest
        {| args_path := args_path result; args_callback := args_callback result;
           args_triggerNow := Some b |}
  | arg_other :: rest => _normalizeArguments rest result
  end.

Definition no_arguments : normalized :=
  {| args_path := None; args_callback := None; args_triggerNow := None |}.

(** [s.split('-')[0]] *)
Fixpoint split_head (s : string) : string :=
  match s with
  | EmptyString => EmptyString
  | String c rest => if Ascii.eqb c "-" then EmptyString else String c (split_head rest)
  end.

Section methods.
(** The [n]-th identifier [xuid()] hands out, [JSON.parse] ([None] when it
    throws), and [messageParser.convertTyped]. *)
Variable xuid : nat -> string.
Variable JSON_parse : string -> option json.
Variable convertTyped : option string -> value.

(** [JSON.parse(text)], with [text] possibly [undefined]. *)
Definition parse (text : option string) : method value :=
  match text ≫= JSON_parse with
  | None => throw SyntaxError
  | Some j => alloc (fun next => let '(v, next') := reify j next in (Ok v, next'))
  end.

(** [new Record(name, connection, client)] *)
Definition create (recordName : string) : M env state :=
  if String.eqb recordName "" then throw (InvalidArgument "name")
  else fun e =>
    (Ok {| name := recordName; usages := 0; isDestroyed := false; isReady := false;
           isSubscribed := true; hasProvider := VBool false; version := None;
           _data := VUndef; _patchQueue := Some []; _eventEmitter := None;
           _callbacks := [] |},
     set_outbox (outbox e ++ [{| sent_topic := RECORD; sent_action := READ;
                                 sent_data := [VStr recordName] |}])
       (set_client_listeners (client_listeners e ++ [recordName]) e)).

Definition get (path : option string) : method value :=
  (destroyed <- this isDestroyed ;;
   invariant (negb destroyed) ;;;
   d <- this _data ;;
   lift_result (jsonPath.get d path))%js.

Definition _dispatchUpdate : method unit :=
  (v <- this version ;;
   let start := if utils.is_empty_version v then Some 0
                else parseInt (split_head (default "" v)) in
   n <- shared xuid_calls ;;
   update_shared (set_xuid_calls (S n)) ;;;
   let version' := show_double ((fun x => round_double (x + 1)) <$> start)
                   +:+ "-" +:+ xuid n in
   nm <- this name ;;
   d <- this _data ;;
   sendMsg RECORD UPDATE [VStr nm; VStr version'; d; version_value v] ;;;
   update (set_version (Some version')))%js.

(** The loop of [_applyChange] over the subscribed paths. *)
Fixpoint notify (paths : list string) (newData oldData : value) : method unit :=
  match paths with
  | [] => ret tt
  | path :: rest =>
      (newValue <- lift_result (jsonPath.get newData (Some path)) ;;
       oldValue <- lift_result (jsonPath.get oldData (Some path)) ;;
       (if negb (strict_eq newValue oldValue)
        then (v <- get (Some path) ;; emitter_emit path v)
        else ret tt) ;;;
       notify rest newData oldData)%js
  end.

Definition _applyChange (newData : value) : method unit :=
  (destroyed <- this isDestroyed ;;
   if destroyed then ret tt
   else
     oldData <- this _data ;;
     update (set_data newData) ;;;
     cbs <- this _eventEmitter ;;
     match cbs with
     | None => ret tt
     | Some m => notify (map fst m) newData oldData
     end)%js.

(** [set(pathOrData, dataOrNil)]; [args] is [arguments]. *)
Definition set (args : list value) : method unit :=
  (destroyed <- this isDestroyed ;;
   invariant (negb destroyed) ;;;
   if destroyed then ret tt
   else
     let one := (length args =? 1)%nat in
     let path := if one then VUndef else nth 0 args VUndef in
     let data := if one then nth 0 args VUndef else nth 1 args VUndef in
     if is_undefined path && negb (typeof_object data)
     then throw (InvalidArgument "data")
     else
       match path with
       | VUndef | VStr (String _ _) =>
           let path := match path with VStr s => Some s | _ => None end in
           q <- this _patchQueue ;;
           match path, q with
           | Some p, Some q =>
               update (set_patchQueue (Some (q ++ [{| entry_path := p; entry_data := data |}])))
           | _, _ => update (set_patchQueue None)
           end ;;;
           oldValue <- this _data ;;
           newValue <- alloc (jsonPath.set oldValue path data) ;;
           if strict_eq oldValue newValue then ret tt
           else
             _applyChange newValue ;;;
             ready <- this isReady ;;
             if ready then _dispatchUpdate else ret tt
       | _ => throw (InvalidArgument "path")
       end)%js.

Definition subscribe (args : list argument) : method unit :=
  (destroyed <- this isDestroyed ;;
   invariant (negb destroyed) ;;;
   if destroyed then ret tt
   else
     let args := _normalizeArguments args no_arguments in
     if bool_decide (args_path args = Some "") then throw (InvalidArgument "path")
     else
       match args_callback args with
       | None => throw (InvalidArgument "callback")
       | Some callback =>
           emitter_on (args_path args) callback ;;;
           d <- this _data ;;
           if default false (args_triggerNow args) && truthy d
           then (v <- get (args_path args) ;; call callback v)
           else ret tt
       end)%js.

Definition unsubscribe (args : list argument) : method unit :=
  (destroyed <- this isDestroyed ;;
   invariant (negb destroyed) ;;;
   if destroyed then ret tt
   else
     let args := _normalizeArguments args no_arguments in
     if bool_decide (args_path args = Some "") then throw (InvalidArgument "path")
     else emitter_off (args_path args) (args_callback args))%js.

(** [whenReady()] returns the promise it makes, by its index in [promises]. *)
Definition whenReady : method nat :=
  (destroyed <- this isDestroyed ;;
   invariant (negb destroyed) ;;;
   p <- shared (fun e => length (promises e)) ;;
   if destroyed
   then (update_shared (fun e => set_promises (promises e ++ [Rejected "destroyed"]) e) ;;;
         ret p)
   else
     update_shared (fun e => set_promises (promises e ++ [Pending]) e) ;;;
     ready <- this isReady ;;
     (if ready then settle p Resolved
      else update (fun r =>
             set_callbacks (_callbacks r ++ [("ready", once_resolve p);
                                             ("destroy", once_reject p)]) r)) ;;;
     ret p)%js.

Definition discard (silent : bool) : method unit :=
  (destroyed <- this isDestroyed ;;
   invariant (silent || negb destroyed) ;;;
   if destroyed then ret tt
   else update (fun r => set_usages (usages r - 1) r))%js.

Definition destroy : method unit :=
  (subscribed <- this isSubscribed ;;
   nm <- this name ;;
   (if subscribed then sendMsg RECORD UNSUBSCRIBE [VStr nm] else ret tt) ;;;
   update (set_isDestroyed true) ;;;
   update (set_isSubscribed false) ;;;
   update (set_data VUndef) ;;;
   update (set_patchQueue (Some [])) ;;;
   update_shared (fun e =>
     set_client_listeners (List.filter (fun n => negb (String.eqb n nm)) (client_listeners e)) e) ;;;
   update (set_eventEmitter (Some [])) ;;;        (* this._eventEmitter.off() *)
   update (set_callbacks []) ;;;                  (* this.off() *)
   emit "destroy" (VStr nm))%js.

Definition _applyUpdate (message : Message) : method unit :=
  (let version' := data message !! 1%nat in
   v <- this version ;;
   if utils.compareVersions v version' then ret tt
   else
     update (set_version version') ;;;
     parsed <- parse (data message !! 2%nat) ;;
     d <- this _data ;;
     merged <- alloc (jsonPath.set d None parsed) ;;
     _applyChange merged)%js.

(** The loop of [_onRead] over the patch queue. *)
Fixpoint replay (queue : list PatchEntry) (newValue : value) : M nat value :=
  match queue with
  | [] => ret newValue
  | entry :: rest =>
      (newValue <- jsonPath.set newValue (Some (entry_path entry)) (entry_data entry) ;;
       replay rest newValue)%js
  end.

Definition _onRead (message : Message) : method unit :=
  (oldValue <- parse (data message !! 2%nat) ;;
   d <- this _data ;;
   q <- this _patchQueue ;;
   newValue <-
     match q with
     | Some queue =>
         newValue <- alloc (replay queue oldValue) ;;
         update (set_patchQueue None) ;;;
         ret newValue
     | None => ret (if truthy d then d else oldValue)      (* this._data || oldValue *)
     end ;;
   update (set_isReady true) ;;;
   update (set_version (data message !! 1%nat)) ;;;
   _applyChange newValue ;;;
   (if negb (strict_eq newValue oldValue) then _dispatchUpdate else ret tt) ;;;
   emit "ready" VUndef)%js.

(** [_$onMessage(message)] *)
Definition _onMessage (message : Message) : method unit :=
  (destroyed <- this isDestroyed ;;
   invariant (negb destroyed) ;;;
   if destroyed then ret tt
   else if bool_decide (action message = UPDATE) then
     ready <- this isReady ;;
     if negb ready then _onRead message else _applyUpdate message
   else if bool_decide (action message = SUBSCRIPTION_HAS_PROVIDER) then
     let provider := convertTyped (data message !! 1%nat) in
     update (set_hasProvider provider) ;;;
     emit "hasProviderChanged" provider
   else ret tt)%js.

(** A call of a method the record does not have: [this._destroy(true)] in
    [_handleConnectionStateChange] and [vec[i]._$destroy()] in the pruner of
    the handler.  Neither record.js nor the emitter mixed into it defines a
    routine of these names (the routine of the file is [destroy]), so the
    call is a TypeError. *)
Definition undefined_method (name : string) : method unit := throw TypeError.

(** [_handleConnectionStateChange()], with what
    [this._client.getConnectionState()] answers. *)
Definition _handleConnectionStateChange (st : CONNECTION_STATE) : method unit :=
  (destroyed <- this isDestroyed ;;
   if destroyed then ret tt
   else
     match st with
     | OPEN =>
         subscribed <- this isSubscribed ;;
         if negb subscribed
         then (nm <- this name ;;
               sendMsg RECORD READ [VStr nm] ;;;
               update (set_isSubscribed true))
         else ret tt
     | RECONNECTING => update (set_isSubscribed false)
     | CLOSED => update (set_isSubscribed false) ;;; undefined_method "_destroy"
     | _ => ret tt
     end)%js.

(** The version [_dispatchUpdate] makes from the version [v]: the counter
    of [v] plus one (1 when [v] is unset) and the next identifier. *)
Definition next_version (v : option string) (e : env) : string :=
  show_double ((fun x => round_double (x + 1)) <$>
               (if utils.is_empty_version v then Some 0
                else parseInt (split_head (default "" v))))
  +:+ "-" +:+ xuid (xuid_calls e).

(** What the application, the registry and the connection do to a record. *)
Inductive op :=
| op_get (path : option string)
| op_set (args : list value)
| op_subscribe (args : list argument)
| op_unsubscribe (args : list argument)
| op_whenReady
| op_discard (silent : bool)
| op_destroy
| op_message (message : Message)
| op_connection (st : CONNECTION_STATE).

(** The result of an operation is dropped here; the effects stay. *)
Definition forget {A} (m : method A) : method unit :=
  fun s => let '(r, s') := m s in
           (match r with Ok _ => Ok tt | Throw e => Throw e end, s').

Definition perform (o : op) : method unit :=
  match o with
  | op_get path => forget (get path)
  | op_set args => set args
  | op_subscribe args => subscribe args
  | op_unsubscribe args => unsubscribe args
  | op_whenReady => forget whenReady
  | op_discard silent => discard silent
  | op_destroy => destroy
  | op_message m => _onMessage m
  | op_connection st => _handleConnectionStateChange st
  end.

Definition run (ops : list op) (s : state * env) : state * env :=
  fold_left (fun s o => snd (perform o s)) ops s.

End methods.

(** The versions of the [UPDATE] messages of the record [recordName] among
    the messages handed to the connection, in the order they were sent. *)
Definition update_versions (recordName : string) (out : list Sent) : list string :=
  omap (fun m =>
          match sent_action m, sent_data m with
          | UPDATE, VStr n :: VStr v :: _ =>
              if String.eqb n recordName then Some v else None
          | _, _ => None
          end) out.

(** The counter of a version, as [_dispatchUpdate] reads it. *)
Definition counter (v : string) : option Z := parseInt (split_head v).

Definition strictly_increasing (l : list (option Z)) : Prop :=
  forall i j x y, (i < j)%nat -> l !! i = Some x -> l !! j = Some y ->
    exists a b, x = Some a /\ y = Some b /\ (a < b)%Z.




(** The subscribed paths can be read in [d]. *)
Definition readable (r : state) (d : value) : Prop :=
  forall path, path ∈ map fst (default [] (_eventEmitter r)) ->
    exists v, jsonPath.get d (Some path) = Ok v.

End record.

(** ** record/record-handler.js *)

Module recordHandler.

(** The registry.  [records] holds every record object the handler has made,
    at the index that is its identity (the handle the application keeps);
    [_recordsMap] and [_recordsVec] refer to records by that identity. *)
Record state := {
  _recordsMap : gmap string nat;
  _recordsVec : list nat;
  records : list record.state;
  shared : record.env;
  client_errors : list (TOPIC * option string * option string)
}.

Definition set_recordsMap x (h : state) : state :=
  {| _recordsMap := x; _recordsVec := _recordsVec h; records := records h;
     shared := shared h; client_errors := client_errors h |}.
Definition set_recordsVec x (h : state) : state :=
  {| _recordsMap := _recordsMap h; _recordsVec := x; records := records h;
     shared := shared h; client_errors := client_errors h |}.
Definition set_records x (h : state) : state :=
  {| _recordsMap := _recordsMap h; _recordsVec := _recordsVec h; records := x;
     shared := shared h; client_errors := client_errors h |}.
Definition set_shared x (h : state) : state :=
  {| _recordsMap := _recordsMap h; _recordsVec := _recordsVec h; records := records h;
     shared := x; client_errors := client_errors h |}.
Definition set_client_errors x (h : state) : state :=
  {| _recordsMap := _recordsMap h; _recordsVec := _recordsVec h; records := records h;
     shared := shared h; client_errors := x |}.

(** A method call on the record object [i]. *)
Definition on_record {A} (i : nat) (m : record.method A) : M state A :=
  fun h =>
    match records h !! i with
    | None => (Throw TypeError, h)
    | Some r =>
        let '(res, (r', e')) := m (r, shared h) in
        (res, set_shared e' (set_records (<[i := r']> (records h)) h))
    end.

Section methods.
Variable xuid : nat -> string.
Variable JSON_parse : string -> option json.
Variable convertTyped : option string -> value.

(** [new RecordHandler(options, connection, client)] *)
Definition create (e : record.env) : state :=
  {| _recordsMap := ∅; _recordsVec := []; records := []; shared := e;
     client_errors := [] |}.

Definition getRecord (recordName : string) : M state nat :=
  (found <- gets (fun h => _recordsMap h !! recordName) ;;
   rec <-
     match found with
     | Some i => ret i
     | None =>
         fun h =>
           match record.create recordName (shared h) with
           | (Throw e, env') => (Throw e, set_shared env' h)
           | (Ok r, env') =>
               let i := length (records h) in
               (Ok i,
                set_recordsVec (_recordsVec h ++ [i])
                  (set_recordsMap (<[recordName := i]> (_recordsMap h))
                     (set_shared env' (set_records (records h ++ [r]) h))))
           end
     end ;;
   on_record rec (record.update (fun r => record.set_usages (record.usages r + 1) r)) ;;;
   ret rec)%js.

(** The loop of [_prune]; [n] bounds the iterations left, [j - i] at the
    start. *)
Fixpoint prune_loop (n i j : nat) : M state nat :=
  match n with
  | O => ret i
  | S n' =>
      if (i <? j)%nat then
        (vec <- gets _recordsVec ;;
         match vec !! i with
         | None => throw TypeError
         | Some rec =>
             r <- on_record rec (gets fst) ;;
             if (record.usages r =? 0)%Z && record.isReady r then
               modify (fun h => set_recordsMap (delete (record.name r) (_recordsMap h)) h) ;;;
               on_record rec (record.undefined_method "_$destroy") ;;;
               modify (fun h =>
                 set_recordsVec
                   (match _recordsVec h !! (j - 1)%nat with
                    | Some last => <[i := last]> (_recordsVec h)
                    | None => _recordsVec h
                    end) h) ;;;
               prune_loop n' i (j - 1)
             else prune_loop n' (S i) j
         end)%js
      else ret i
  end.

(** One run of the pruner (the body of the idle callback). *)
Definition _prune : M state unit :=
  (j <- gets (fun h => length (_recordsVec h)) ;;
   i <- prune_loop j 0 j ;;
   modify (fun h => set_recordsVec (take i (_recordsVec h)) h))%js.       (* vec.splice(i) *)

(** [_$handle(message)], without the listeners, which live outside this
    file. *)
Definition _handle (message : Message) : M state unit :=
  if bool_decide (action message = ACTION_ERROR)
     && negb (bool_decide (data message !! 0%nat = Some EVENT_MESSAGE_DENIED))
  then modify (fun h =>
         set_client_errors
           (client_errors h ++ [(RECORD, data message !! 0%nat, data message !! 1%nat)]) h)
  else
    (let recordName :=
       if bool_decide (action message = ACK) || bool_decide (action message = ACTION_ERROR)
       then data message !! 1%nat else data message !! 0%nat in
     found <- gets (fun h => recordName ≫= (fun n => _recordsMap h !! n)) ;;
     match found with
     | Some rec => on_record rec (record._onMessage xuid JSON_parse convertTyped message)
     | None => ret tt
     end)%js.

(** [set(recordName, pathOrData, dataOrNil)]; [args] is what follows the
    name in [arguments]. *)
Definition set (recordName : string) (args : list value) : M state unit :=
  (rec <- getRecord recordName ;;
   on_record rec
     (record.set xuid
        (if (length args =? 1)%nat then [nth 0 args VUndef]
         else [nth 0 args VUndef; nth 1 args VUndef])) ;;;
   on_record rec (record.discard false))%js.

(** What the application and the environment do to a handler. *)
Inductive op :=
| op_getRecord (recordName : string)
| op_discard (rec : nat) (silent : bool)
| op_prune
| op_message (message : Message).

Definition exec (o : op) (h : state) : state :=
  match o with
  | op_getRecord n => snd (getRecord n h)
  | op_discard rec silent => snd (on_record rec (record.discard silent) h)
  | op_prune => snd (_prune h)
  | op_message m => snd (_handle m h)
  end.

Definition run (ops : list op) (h : state) : state := fold_left (fun h o => exec o h) ops h.

(** The handles the application holds after [o], given those it held. *)
Definition held_after (o : op) (h : state) (held : list nat) : list nat :=
  match o with
  | op_getRecord n =>
      match fst (getRecord n h) with
      | Ok rec => rec :: held
      | Throw _ => held
      end
  | op_discard rec _ => record.remove_first rec held
  | _ => held
  end.

(** The application releases only handles it holds: every [discard] is on a
    record acquired with [getRecord] and not yet released. *)
Fixpoint disciplined (ops : list op) (h : state) (held : list nat) : Prop :=
  match ops with
  | [] => True
  | o :: rest =>
      match o with
      | op_discard rec _ => rec ∈ held
      | _ => True
      end /\ disciplined rest (exec o h) (held_after o h held)
  end.
End methods.

(** The reference counts cover the handles the application holds: every
    handle is a record, and no record is held more often than it is counted. *)
Definition accounted (h : state) (held : list nat) : Prop :=
  let counts := map record.usages (records h) in
  (forall i, i ∈ held -> (i < length counts)%nat) /\
  (forall i u, counts !! i = Some u ->
     (Z.of_nat (count_occ Nat.eq_dec held i) <= u)%Z).

End recordHandler.

(** ** message/connection.js

    The connection as far as the heartbeat goes.  Time enters as the value
    [Date.now()] has when a handler runs; what the connection does to the
    endpoint, to the client and to its timers is recorded in [effects]. *)

Inductive readyState := WS_CONNECTING | WS_OPEN | WS_CLOSING | WS_CLOSED.
Global Instance readyState_eq_dec : EqDecision readyState.
Proof. solve_decision. Defined.

(** A frame built by [messageBuilder.getMsg(topic, action, data)]. *)
Record frame := { frame_topic : TOPIC; frame_action : ACTIONS; frame_data : list string }.

Inductive effect :=
| endpoint_send (packet : list frame)          (* this._endpoint.send(...) *)
| endpoint_close                               (* this._endpoint.close() *)
| client_error (t : TOPIC) (event : string) (msg : option string)  (* this._client._$onError(...) *)
| deferred_error (msg : string)                (* the same from setTimeout(..., 1) *)
| state_changed (st : CONNECTION_STATE)        (* this._client.emit(CONNECTION_STATE_CHANGED, state) *)
| clear_interval                               (* clearInterval(this._heartbeatInterval) *)
| clear_timeout                                (* clearTimeout(this._messageSender) *)
| cancel_idle_callback.                        (* utils.cancelIdleCallback(this._messageHandler) *)

Module connection_state.
Record t := {
  heartbeatInterval : Z;                   (* this._options.heartbeatInterval *)
  maxMessagesPerPacket : nat;              (* this._options.maxMessagesPerPacket *)
  _state : CONNECTION_STATE;
  _endpoint : readyState;                  (* this._endpoint.readyState *)
  _lastHeartBeat : option Z;
  _heartbeatInterval : bool;               (* is the interval timer set? *)
  _messageSender : bool;                   (* is the flush timer set? *)
  _messageHandler : bool;                  (* is the idle callback set? (older file) *)
  _queuedMessages : list frame;
  _authParams : option string;
  _deliberateClose : bool;
  _redirecting : bool;
  _challengeDenied : bool;
  _connectionAuthenticationTimeout : bool;
  _url : string;
  _originalUrl : string;
  effects : list effect
}.
End connection_state.

Module Connection.
Import connection_state.

Definition with_effect (x : effect) (c : t) : t :=
  {| heartbeatInterval := heartbeatInterval c; maxMessagesPerPacket := maxMessagesPerPacket c;
     _state := _state c; _endpoint := _endpoint c; _lastHeartBeat := _lastHeartBeat c;
     _heartbeatInterval := _heartbeatInterval c; _messageSender := _messageSender c;
     _messageHandler := _messageHandler c;
     _queuedMessages := _queuedMessages c; _authParams := _authParams c;
     _deliberateClose := _deliberateClose c; _redirecting := _redirecting c;
     _challengeDenied := _challengeDenied c;
     _connectionAuthenticationTimeout := _connectionAuthenticationTimeout c;
     _url := _url c; _originalUrl := _originalUrl c; effects := effects c ++ [x] |}.
Definition set_state x (c : t) : t :=
  {| heartbeatInterval := heartbeatInterval c; maxMessagesPerPacket := maxMessagesPerPacket c;
     _state := x; _endpoint := _endpoint c; _lastHeartBeat := _lastHeartBeat c;
     _heartbeatInterval := _heartbeatInterval c; _messageSender := _messageSender c;
     _messageHandler := _messageHandler c;
     _queuedMessages := _queuedMessages c; _authParams := _authParams c;
     _deliberateClose := _deliberateClose c; _redirecting := _redirecting c;
     _challengeDenied := _challengeDenied c;
     _connectionAuthenticationTimeout := _connectionAuthenticationTimeout c;
     _url := _url c; _originalUrl := _originalUrl c; effects := effects c |}.
Definition set_endpoint x (c : t) : t :=
  {| heartbeatInterval := heartbeatInterval c; maxMessagesPerPacket := maxMessagesPerPacket c;
     _state := _state c; _endpoint := x; _lastHeartBeat := _lastHeartBeat c;
     _heartbeatInterval := _heartbeatInterval c; _messageSender := _messageSender c;
     _messageHandler := _messageHandler c;
     _queuedMessages := _queuedMessages c; _authParams := _authParams c;
     _deliberateClose := _deliberateClose c; _redirecting := _redirecting c;
     _challengeDenied := _challengeDenied c;
     _connectionAuthenticationTimeout := _connectionAuthenticationTimeout c;
     _url := _url c; _originalUrl := _originalUrl c; effects := effects c |}.
Definition set_lastHeartBeat x (c : t) : t :=
  {| heartbeatInterval := heartbeatInterval c; maxMessagesPerPacket := maxMessagesPerPacket c;
     _state := _state c; _endpoint := _endpoint c; _lastHeartBeat := x;
     _heartbeatInterval := _heartbeatInterval c; _messageSender := _messageSender c;
     _messageHandler := _messageHandler c;
     _queuedMessages := _queuedMessages c; _authParams := _authParams c;
     _deliberateClose := _deliberateClose c; _redirecting := _redirecting c;
     _challengeDenied := _challengeDenied c;
     _connectionAuthenticationTimeout := _connectionAuthenticationTimeout c;
     _url := _url c; _originalUrl := _originalUrl c; effects := effects c |}.
Definition set_heartbeatInterval x (c : t) : t :=
  {| heartbeatInterval := heartbeatInterval c; maxMessagesPerPacket := maxMessagesPerPacket c;
     _state := _state c; _endpoint := _endpoint c; _lastHeartBeat := _lastHeartBeat c;
     _heartbeatInterval := x; _messageSender := _messageSender c;
     _messageHandler := _messageHandler c;
     _queuedMessages := _queuedMessages c; _authParams := _authParams c;
     _deliberateClose := _deliberateClose c; _redirecting := _redirecting c;
     _challengeDenied := _challengeDenied c;
     _connectionAuthenticationTimeout := _connectionAuthenticationTimeout c;
     _url := _url c; _originalUrl := _originalUrl c; effects := effects c |}.
Definition set_messageSender x (c : t) : t :=
  {| heartbeatInterval := heartbeatInterval c; maxMessagesPerPacket := maxMessagesPerPacket c;
     _state := _state c; _endpoint := _endpoint c; _lastHeartBeat := _lastHeartBeat c;
     _heartbeatInterval := _heartbeatInterval c; _messageSender := x;
     _messageHandler := _messageHandler c;
     _queuedMessages := _queuedMessages c; _authParams := _authParams c;
     _deliberateClose := _deliberateClose c; _redirecting := _redirecting c;
     _challengeDenied := _challengeDenied c;
     _connectionAuthenticationTimeout := _connectionAuthenticationTimeout c;
     _url := _url c; _originalUrl := _originalUrl c; effects := effects c |}.
Definition set_queuedMessages x (c : t) : t :=
  {| heartbeatInterval := heartbeatInterval c; maxMessagesPerPacket := maxMessagesPerPacket c;
     _state := _state c; _endpoint := _endpoint c; _lastHeartBeat := _lastHeartBeat c;
     _heartbeatInterval := _heartbeatInterval c; _messageSender := _messageSender c;
     _messageHandler := _messageHandler c;
     _queuedMessages := x; _authParams := _authParams c;
     _deliberateClose := _deliberateClose c; _redirecting := _redirecting c;
     _challengeDenied := _challengeDenied c;
     _connectionAuthenticationTimeout := _connectionAuthenticationTimeout c;
     _url := _url c; _originalUrl := _originalUrl c; effects := effects c |}.
(** The flags and the address change together in few places. *)
Definition set_flags (deliberate redirecting denied timeout : bool) (url : string) (c : t) : t :=
  {| heartbeatInterval := heartbeatInterval c; maxMessagesPerPacket := maxMessagesPerPacket c;
     _state := _state c; _endpoint := _endpoint c; _lastHeartBeat := _lastHeartBeat c;
     _heartbeatInterval := _heartbeatInterval c; _messageSender := _messageSender c;
     _messageHandler := _messageHandler c;
     _queuedMessages := _queuedMessages c; _authParams := _authParams c;
     _deliberateClose := deliberate; _redirecting := redirecting;
     _challengeDenied := denied;
     _connectionAuthenticationTimeout := timeout;
     _url := url; _originalUrl := _originalUrl c; effects := effects c |}.
Definition set_deliberateClose x (c : t) : t :=
  set_flags x (_redirecting c) (_challengeDenied c) (_connectionAuthenticationTimeout c) (_url c) c.
Definition set_challengeDenied x (c : t) : t :=
  set_flags (_deliberateClose c) (_redirecting c) x (_connectionAuthenticationTimeout c) (_url c) c.

(** [messageBuilder.getMsg(topic, action, data)] *)
Definition getMsg (t : TOPIC) (a : ACTIONS) (d : list string) : frame :=
  {| frame_topic := t; frame_action := a; frame_data := d |}.

(** [this._endpoint.close()]: the socket starts closing. *)
Definition close_endpoint (c : t) : t :=
  set_endpoint (match _endpoint c with WS_CLOSED => WS_CLOSED | _ => WS_CLOSING end)
    (with_effect endpoint_close c).

Definition _setState (st : CONNECTION_STATE) (c : t) : t :=
  if bool_decide (_state c = st) then c
  else with_effect (state_changed st) (set_state st c).

Definition _reset (c : t) : t :=
  let c := if _heartbeatInterval c
           then set_lastHeartBeat None
                  (set_heartbeatInterval false (with_effect clear_interval c))
           else c in
  if _messageSender c
  then set_queuedMessages [] (set_messageSender false (with_effect clear_timeout c))
  else c.

(** [_onError(err)] for an error that carries only a message. *)
Definition _onError (message : string) (c : t) : t :=
  with_effect (deferred_error message) (_setState STATE_ERROR (_reset c)).

Definition _submit (packet : list frame) (c : t) : t :=
  if bool_decide (_endpoint c = WS_OPEN)
  then with_effect (endpoint_send packet) c
  else _onError "Tried to send message on a closed websocket connection" c.

Definition _sendAuthParams (c : t) : t :=
  _submit [getMsg AUTH REQUEST [default "" (_authParams c)]] (_setState AUTHENTICATING c).

(** The loop of [_sendQueuedMessages]; [n] bounds the packets, one per queued
    message at most. *)
Fixpoint send_packets (n : nat) (c : t) : t :=
  match n with
  | O => c
  | S n' =>
      match _queuedMessages c with
      | [] => c
      | queue =>
          let packet := take (maxMessagesPerPacket c) queue in
          send_packets n'
            (_submit packet (set_queuedMessages (drop (maxMessagesPerPacket c) queue) c))
      end
  end.

Definition _sendQueuedMessages (c : t) : t :=
  if negb (bool_decide (_state c = OPEN)) || negb (bool_decide (_endpoint c = WS_OPEN))
  then c
  else set_messageSender false (send_packets (length (_queuedMessages c)) c).

Definition close (c : t) : t :=
  close_endpoint (set_deliberateClose true (_reset (_sendQueuedMessages c))).

(** [send(message)]: the message joins the queue; a queue longer than a
    packet is sent at once, otherwise the flush timer is set if it is not. *)
Definition send (message : frame) (c : t) : t :=
  let c := set_queuedMessages (_queuedMessages c ++ [message]) c in
  if (maxMessagesPerPacket c <? length (_queuedMessages c))%nat
  then _sendQueuedMessages (with_effect clear_timeout c)
  else if negb (_messageSender c) then set_messageSender true c
  else c.

(** [sendMsg(topic, action, data)] *)
Definition sendMsg (t : TOPIC) (a : ACTIONS) (d : list string) (c : connection_state.t)
  : connection_state.t :=
  send (getMsg t a d) c.

(** [flush()] *)
Definition flush (c : t) : t := _sendQueuedMessages c.

(** [heartBeatTolerance] *)
Definition heartBeatTolerance (c : t) : Z := heartbeatInterval c * 3.

Definition heartbeat_message (tolerance : Z) : string :=
  "heartbeat not received in the last " +:+ show_number (Some tolerance) +:+ " milliseconds".

(** [_checkHeartBeat()], run by the interval timer when [Date.now()] is [now];
    a [null] last heartbeat counts as 0 in the subtraction. *)
Definition _checkHeartBeat (now : Z) (c : t) : t :=
  if (heartBeatTolerance c <? now - default 0 (_lastHeartBeat c))%Z
  then with_effect
         (client_error CONNECTION EVENT_CONNECTION_ERROR
            (Some (heartbeat_message (heartBeatTolerance c))))
         (close_endpoint (with_effect clear_interval c))
  else _submit [getMsg CONNECTION PING []] c.

Definition _handleConnectionResponse (now : Z) (message : Message) (c : t) : t :=
  match action message with
  | PING => _submit [getMsg CONNECTION PONG []] (set_lastHeartBeat (Some now) c)
  | PONG => set_lastHeartBeat (Some now) c
  | ACK =>
      let c := _setState AWAITING_AUTHENTICATION c in
      if bool_decide (is_Some (_authParams c)) then _sendAuthParams c else c
  | CHALLENGE =>
      _submit [getMsg CONNECTION CHALLENGE_RESPONSE [_originalUrl c]] (_setState CHALLENGING c)
  | REJECTION => close (set_challengeDenied true c)
  | REDIRECT =>
      close_endpoint
        (set_flags (_deliberateClose c) true (_challengeDenied c)
           (_connectionAuthenticationTimeout c) (default "" (data message !! 0%nat)) c)
  | ACTION_ERROR =>
      if bool_decide (data message !! 0%nat = Some EVENT_CONNECTION_AUTHENTICATION_TIMEOUT)
      then with_effect
             (client_error CONNECTION EVENT_CONNECTION_AUTHENTICATION_TIMEOUT
                (data message !! 1%nat))
             (set_flags true (_redirecting c) (_challengeDenied c) true (_url c) c)
      else c
  | _ => c
  end.

End Connection.

(** The older [message/connection.js] of the repository: the server pings,
    the client answers and watches. *)
Module ConnectionLegacy.
Import connection_state.

Definition _setState (st : CONNECTION_STATE) (c : t) : t :=
  Connection.with_effect (state_changed st) (Connection.set_state st c).

Definition _onError (error : string) (c : t) : t :=
  Connection.with_effect (deferred_error error)
    (_setState STATE_ERROR (Connection.with_effect clear_interval c)).

Definition _submit (packet : list frame) (c : t) : t :=
  if bool_decide (_endpoint c = WS_OPEN)
  then Connection.with_effect (endpoint_send packet) c
  else _onError "Tried to send message on a closed websocket connection" c.

Definition _sendAuthParams (c : t) : t :=
  _submit [Connection.getMsg AUTH REQUEST [default "" (_authParams c)]]
    (_setState AUTHENTICATING c).

Definition close (c : t) : t :=
  let c := Connection.close_endpoint
             (Connection.set_deliberateClose true (Connection.with_effect clear_interval c)) in
  if _messageHandler c then Connection.with_effect cancel_idle_callback c else c.

Definition heartBeatTolerance (c : t) : Z := heartbeatInterval c * 2.

Definition _checkHeartBeat (now : Z) (c : t) : t :=
  if (heartBeatTolerance c <? now - default 0 (_lastHeartBeat c))%Z
  then Connection.with_effect
         (client_error CONNECTION EVENT_CONNECTION_ERROR
            (Some (Connection.heartbeat_message (heartBeatTolerance c))))
         (Connection.close_endpoint (Connection.with_effect clear_interval c))
  else c.

Definition _handleConnectionResponse (now : Z) (message : Message) (c : t) : t :=
  match action message with
  | PING =>
      _submit [Connection.getMsg CONNECTION PONG []] (Connection.set_lastHeartBeat (Some now) c)
  | ACK =>
      let c := _setState AWAITING_AUTHENTICATION c in
      if bool_decide (is_Some (_authParams c)) then _sendAuthParams c else c
  | CHALLENGE =>
      _submit [Connection.getMsg CONNECTION CHALLENGE_RESPONSE [_originalUrl c]]
        (_setState CHALLENGING c)
  | REJECTION => close (Connection.set_challengeDenied true c)
  | REDIRECT =>
      Connection.close_endpoint
        (Connection.set_flags (_deliberateClose c) true (_challengeDenied c)
           (_connectionAuthenticationTimeout c) (default "" (data message !! 0%nat)) c)
  | ACTION_ERROR =>
      if bool_decide (data message !! 0%nat = Some EVENT_CONNECTION_AUTHENTICATION_TIMEOUT)
      then Connection.with_effect
             (client_error CONNECTION EVENT_CONNECTION_AUTHENTICATION_TIMEOUT
                (data message !! 1%nat))
             (Connection.set_flags true (_redirecting c) (_challengeDenied c) true (_url c) c)
      else c
  | _ => c
  end.

End ConnectionLegacy.

(** ** message/connection.js: opening, authenticating and reconnecting

    The connection with the fields and options that [connection_state.t]
    leaves out.  What these methods do beyond the effects of [core] is
    recorded in [events], each with the number of effects that came before
    it.  The callback of [authenticate] is taken not to call back into the
    connection. *)

Definition EVENT_IS_CLOSED : string := "IS_CLOSED".
Definition EVENT_TOO_MANY_AUTH_ATTEMPTS : string := "TOO_MANY_AUTH_ATTEMPTS".

Module ConnectionLifecycle.
Import connection_state.

Inductive event :=
| create_endpoint (url : string)         (* new WebSocket(this._url), the handlers bound *)
| set_reconnect_timeout (delay : Z)      (* setTimeout(this._tryOpen.bind(this), delay) *)
| clear_reconnect_timeout                (* clearTimeout(this._reconnectTimeout) *)
| set_heartbeat_interval                 (* utils.setInterval(this._checkHeartBeat.bind(this), ...) *)
| auth_callback (success : bool) (data : option string)
                                         (* this._authCallback(success, this._getAuthData(data)) *)
| max_reconnection_attempts_reached (attempt : nat).
                                         (* emit(MAX_RECONNECTION_ATTEMPTS_REACHED, attempt) *)

Record t := {
  core : connection_state.t;
  maxReconnectAttempts : option nat;       (* this._options.maxReconnectAttempts; None is Infinity *)
  reconnectIntervalIncrement : Z;          (* this._options.reconnectIntervalIncrement *)
  maxReconnectInterval : Z;                (* this._options.maxReconnectInterval *)
  _authCallback : bool;                    (* is a callback set? *)
  _tooManyAuthAttempts : bool;
  _reconnectTimeout : option Z;            (* the timer, with the delay it was set to *)
  _reconnectionAttempt : nat;
  events : list (nat * event)
}.

Definition set_core x (f : t) : t :=
  {| core := x; maxReconnectAttempts := maxReconnectAttempts f;
     reconnectIntervalIncrement := reconnectIntervalIncrement f;
     maxReconnectInterval := maxReconnectInterval f; _authCallback := _authCallback f;
     _tooManyAuthAttempts := _tooManyAuthAttempts f;
     _reconnectTimeout := _reconnectTimeout f;
     _reconnectionAttempt := _reconnectionAttempt f; events := events f |}.
Definition set_authCallback x (f : t) : t :=
  {| core := core f; maxReconnectAttempts := maxReconnectAttempts f;
     reconnectIntervalIncrement := reconnectIntervalIncrement f;
     maxReconnectInterval := maxReconnectInterval f; _authCallback := x;
     _tooManyAuthAttempts := _tooManyAuthAttempts f;
     _reconnectTimeout := _reconnectTimeout f;
     _reconnectionAttempt := _reconnectionAttempt f; events := events f |}.
Definition set_tooManyAuthAttempts x (f : t) : t :=
  {| core := core f; maxReconnectAttempts := maxReconnectAttempts f;
     reconnectIntervalIncrement := reconnectIntervalIncrement f;
     maxReconnectInterval := maxReconnectInterval f; _authCallback := _authCallback f;
     _tooManyAuthAttempts := x;
     _reconnectTimeout := _reconnectTimeout f;
     _reconnectionAttempt := _reconnectionAttempt f; events := events f |}.
Definition set_reconnectTimeout x (f : t) : t :=
  {| core := core f; maxReconnectAttempts := maxReconnectAttempts f;
     reconnectIntervalIncrement := reconnectIntervalIncrement f;
     maxReconnectInterval := maxReconnectInterval f; _authCallback := _authCallback f;
     _tooManyAuthAttempts := _tooManyAuthAttempts f;
     _reconnectTimeout := x;
     _reconnectionAttempt := _reconnectionAttempt f; events := events f |}.
Definition set_reconnectionAttempt x (f : t) : t :=
  {| core := core f; maxReconnectAttempts := maxReconnectAttempts f;
     reconnectIntervalIncrement := reconnectIntervalIncrement f;
     maxReconnectInterval := maxReconnectInterval f; _authCallback := _authCallback f;
     _tooManyAuthAttempts := _tooManyAuthAttempts f;
     _reconnectTimeout := _reconnectTimeout f;
     _reconnectionAttempt := x; events := events f |}.
Definition with_event (x : event) (f : t) : t :=
  {| core := core f; maxReconnectAttempts := maxReconnectAttempts f;
     reconnectIntervalIncrement := reconnectIntervalIncrement f;
     maxReconnectInterval := maxReconnectInterval f; _authCallback := _authCallback f;
     _tooManyAuthAttempts := _tooManyAuthAttempts f;
     _reconnectTimeout := _reconnectTimeout f;
     _reconnectionAttempt := _reconnectionAttempt f;
     events := events f ++ [(length (effects (core f)), x)] |}.

(** A method of the part in [connection_state.t], run on [core]. *)
Definition on_core (m : connection_state.t -> connection_state.t) (f : t) : t :=
  set_core (m (core f)) f.

Definition set_authParams x (c : connection_state.t) : connection_state.t :=
  {| heartbeatInterval := heartbeatInterval c; maxMessagesPerPacket := maxMessagesPerPacket c;
     _state := _state c; _endpoint := _endpoint c; _lastHeartBeat := _lastHeartBeat c;
     _heartbeatInterval := _heartbeatInterval c; _messageSender := _messageSender c;
     _messageHandler := _messageHandler c;
     _queuedMessages := _queuedMessages c; _authParams := x;
     _deliberateClose := _deliberateClose c; _redirecting := _redirecting c;
     _challengeDenied := _challengeDenied c;
     _connectionAuthenticationTimeout := _connectionAuthenticationTimeout c;
     _url := _url c; _originalUrl := _originalUrl c; effects := effects c |}.
Definition set_redirecting x (c : connection_state.t) : connection_state.t :=
  Connection.set_flags (_deliberateClose c) x (_challengeDenied c)
    (_connectionAuthenticationTimeout c) (_url c) c.
Definition set_url x (c : connection_state.t) : connection_state.t :=
  Connection.set_flags (_deliberateClose c) (_redirecting c) (_challengeDenied c)
    (_connectionAuthenticationTimeout c) x c.

(** [_createEndpoint()]: a new socket for [this._url], not open yet. *)
Definition _createEndpoint (f : t) : t :=
  on_core (Connection.set_endpoint WS_CONNECTING) (with_event (create_endpoint (_url (core f))) f).

Definition _clearReconnect (f : t) : t :=
  set_reconnectionAttempt 0 (set_reconnectTimeout None (with_event clear_reconnect_timeout f)).

(** [_tryOpen()], run by the reconnect timer. *)
Definition _tryOpen (f : t) : t :=
  let f := if bool_decide (_originalUrl (core f) <> _url (core f))
           then on_core (set_url (_originalUrl (core f))) f
           else f in
  set_reconnectTimeout None (_createEndpoint f).

(** [this._reconnectionAttempt < this._options.maxReconnectAttempts] *)
Definition attempts_left (f : t) : bool :=
  match maxReconnectAttempts f with
  | None => true
  | Some m => (_reconnectionAttempt f <? m)%nat
  end.

Definition _tryReconnect (f : t) : t :=
  if bool_decide (is_Some (_reconnectTimeout f)) then f
  else if attempts_left f then
    let f := on_core (Connection._setState RECONNECTING) f in
    let delay := Z.min (maxReconnectInterval f)
                   (reconnectIntervalIncrement f * Z.of_nat (_reconnectionAttempt f)) in
    let f := set_reconnectTimeout (Some delay) (with_event (set_reconnect_timeout delay) f) in
    set_reconnectionAttempt (S (_reconnectionAttempt f)) f
  else
    let f := on_core Connection.close (_clearReconnect f) in
    with_event (max_reconnection_attempts_reached (_reconnectionAttempt f)) f.

(** [_onOpen()], when [Date.now()] is [now]. *)
Definition _onOpen (now : Z) (f : t) : t :=
  let f := _clearReconnect f in
  let f := on_core (Connection.set_lastHeartBeat (Some now)) f in
  let f := on_core (Connection.set_heartbeatInterval true) (with_event set_heartbeat_interval f) in
  on_core (Connection._setState AWAITING_CONNECTION) f.

Definition _onClose (f : t) : t :=
  let f := on_core Connection._reset f in
  if _redirecting (core f) then _createEndpoint (on_core (set_redirecting false) f)
  else if _deliberateClose (core f) then on_core (Connection._setState CLOSED) f
  else _tryReconnect f.

(** [authenticate(authParams, callback)]; [callback] tells whether one is
    given. *)
Definition authenticate (authParams : option string) (callback : bool) (f : t) : t :=
  let f := set_authCallback callback (on_core (set_authParams authParams) f) in
  if _tooManyAuthAttempts f || _challengeDenied (core f)
     || _connectionAuthenticationTimeout (core f)
  then on_core (Connection.with_effect
                  (client_error ERROR EVENT_IS_CLOSED
                     (Some "this client's connection was closed"))) f
  else if _deliberateClose (core f) && bool_decide (_state (core f) = CLOSED)
  then on_core (Connection.set_deliberateClose false) (_createEndpoint f)
  else if bool_decide (_state (core f) = AWAITING_AUTHENTICATION)
  then on_core Connection._sendAuthParams f
  else f.

(** [connection.send] for each of [messages], in order. *)
Definition send_all (messages : list frame) (c : connection_state.t) : connection_state.t :=
  fold_left (fun c m => Connection.send m c) messages c.

(** [_setState(state)] with the listeners of the client.  [emit] runs them
    before [_setState] returns, and a listener may send: on [OPEN] every
    record that is not subscribed sends its READ (record.js,
    [_handleConnectionStateChange]).  [heard] is what the listeners hand to
    [send], in order. *)
Definition _setState (st : CONNECTION_STATE) (heard : list frame) (c : connection_state.t)
  : connection_state.t :=
  if bool_decide (_state c = st) then c
  else send_all heard (Connection._setState st c).

(** [_handleAuthResponse(message)].  [heard] is what the listeners of the
    state change send and [answered] what the callback of the login sends,
    both during the call. *)
Definition _handleAuthResponse (message : Message) (heard answered : list frame) (f : t) : t :=
  match action message with
  | ACTION_ERROR =>
      let f :=
        if bool_decide (data message !! 0%nat = Some EVENT_TOO_MANY_AUTH_ATTEMPTS)
        then set_tooManyAuthAttempts true (on_core (Connection.set_deliberateClose true) f)
        else on_core (_setState AWAITING_AUTHENTICATION heard) f in
      if _authCallback f
      then on_core (send_all answered) (with_event (auth_callback false (data message !! 1%nat)) f)
      else f
  | ACK =>
      let f := on_core (_setState OPEN heard) f in
      let f := if _authCallback f
               then on_core (send_all answered)
                      (with_event (auth_callback true (data message !! 0%nat)) f)
               else f in
      on_core Connection._sendQueuedMessages f
  | _ => f
  end.

End ConnectionLifecycle.

(** ** Vocabulary of the properties *)

(** A string of decimal digits. *)
Fixpoint digits_only (s : string) : Prop :=
  match s with
  | EmptyString => True
  | String c rest => (exists d, (d < 10)%N /\ c = digit_char d) /\ digits_only rest
  end.


(** [walk c ts c' ts']: starting at cursor [c] with the tokens [ts] to go, the
    walk of [get] arrives at cursor [c'] with [ts'] to go.  A step is taken
    only from an array or an object. *)
Inductive walk : value -> list string -> value -> list string -> Prop :=
| walk_here c ts : walk c ts c ts
| walk_step c tok ts c' ts' :
    is_Some (ref_of c) ->
    walk (get_prop c tok) ts c' ts' ->
    walk c (tok :: ts) c' ts'.


(** A value that is neither [undefined] nor an array or object: a number, a
    string, a boolean or [null]. *)
Definition primitive_or_null (v : value) : bool :=
  negb (is_undefined v) && bool_decide (ref_of v = None).

(** ** A sample environment for the worked scenarios

    Identifiers [id0], [id1], ...; a [JSON.parse] that knows four documents;
    a [convertTyped] that answers [true]. *)

Definition sample_xuid (n : nat) : string := "id" +:+ show_N (N.of_nat n).

Definition sample_parse (text : string) : option json :=
  if String.eqb text "{}" then Some (JObj [])
  else if String.eqb text "5" then Some (JNum 5)
  else if String.eqb text "[5]" then Some (JArr [JNum 5])
  else if String.eqb text "null" then Some JNull
  else None.

Definition sample_convertTyped (_ : option string) : value := VBool true.

Definition empty_env : record.env :=
  {| record.next_ref := 1; record.outbox := []; record.xuid_calls := 0;
     record.promises := []; record.calls := []; record.client_listeners := [] |}.

(** The record [r] right after [new Record('r', connection, client)]. *)
Definition fresh_record : record.state * record.env :=
  ({| record.name := "r"; record.usages := 0; record.isDestroyed := false;
      record.isReady := false; record.isSubscribed := true;
      record.hasProvider := VBool false; record.version := None;
      record._data := VUndef; record._patchQueue := Some [];
      record._eventEmitter := None; record._callbacks := [] |},
   {| record.next_ref := 1;
      record.outbox := [{| sent_topic := RECORD; sent_action := READ;
                           sent_data := [VStr "r"] |}];
      record.xuid_calls := 0; record.promises := []; record.calls := [];
      record.client_listeners := ["r"] |}).

Definition update_message (version json : string) : Message :=
  {| topic := RECORD; action := UPDATE; data := ["r"; version; json] |}.

(** An open connection with the default heartbeat interval, last heard of at
    time 0. *)
Definition sample_connection : connection_state.t :=
  {| connection_state.heartbeatInterval := 30000;
     connection_state.maxMessagesPerPacket := 128;
     connection_state._state := OPEN;
     connection_state._endpoint := WS_OPEN;
     connection_state._lastHeartBeat := Some 0;
     connection_state._heartbeatInterval := true;
     connection_state._messageSender := false;
     connection_state._messageHandler := false;
     connection_state._queuedMessages := [];
     connection_state._authParams := None;
     connection_state._deliberateClose := false;
     connection_state._redirecting := false;
     connection_state._challengeDenied := false;
     connection_state._connectionAuthenticationTimeout := false;
     connection_state._url := "ws://localhost:6020/deepstream";
     connection_state._originalUrl := "ws://localhost:6020/deepstream";
     connection_state.effects := [] |}.

Definition connection_message (a : ACTIONS) : Message :=
  {| topic := CONNECTION; action := a; data := [] |}.

(** A path token: not empty, and free of the characters that separate
    tokens. *)
Definition is_token (t : string) : bool :=
  negb (String.eqb t "")
  && jsonPath.all_chars (fun c => negb (jsonPath.is_separator c)) t.


(** The arguments of a call by [typeof]: the strings, the functions and the
    booleans among them, in order. *)
Definition string_arguments (args : list record.argument) : list string :=
  omap (fun a => match a with record.arg_string s => Some s | _ => None end) args.
Definition function_arguments (args : list record.argument) : list nat :=
  omap (fun a => match a with record.arg_function f => Some f | _ => None end) args.
Definition boolean_arguments (args : list record.argument) : list bool :=
  omap (fun a => match a with record.arg_boolean b => Some b | _ => None end) args.


(** An error of the "invalid argument ..." kind. *)
Definition is_invalid_argument (e : error) : bool :=
  match e with InvalidArgument _ => true | _ => false end.

(** The promise a listener settles, if it is one of [whenReady]'s. *)
Definition listener_promise (l : record.listener) : option nat :=
  match l with
  | record.once_resolve p | record.once_reject p => Some p
  | record.user_listener _ => None
  end.

(** Is the message handed to the connection an [UPDATE]? *)
Definition is_update (m : Sent) : bool := bool_decide (sent_action m = UPDATE).


(** A record the pruner takes away: nobody holds it, and it is ready. *)
Definition prunable (r : record.state) : bool :=
  (record.usages r =? 0)%Z && record.isReady r.

(** The registry is in order on the entries [vec]: no record is entered
    twice, every entry is a live record that the map has under its name, and
    every name of the map leads to an entry, the record of that name. *)
Definition registry_ok_on (vec : list nat) (h : recordHandler.state) : Prop :=
  NoDup vec /\
  (forall i, i ∈ vec ->
     exists r, recordHandler.records h !! i = Some r /\
       record.isDestroyed r = false /\
       recordHandler._recordsMap h !! record.name r = Some i) /\
  (forall n i, recordHandler._recordsMap h !! n = Some i ->
     i ∈ vec /\ exists r, recordHandler.records h !! i = Some r /\ record.name r = n).

Definition registry_ok (h : recordHandler.state) : Prop :=
  registry_ok_on (recordHandler._recordsVec h) h.


(** What a record keeps through [set] and through a message: its name, its
    reference count and whether it is destroyed. *)
Definition same_identity (st st' : record.state) : Prop :=
  record.name st' = record.name st /\ record.usages st' = record.usages st /\
  record.isDestroyed st' = record.isDestroyed st.

(** The pruner passes over the entry [k]: it is a record in use, or not
    ready. *)
Definition pruner_keeps (h : recordHandler.state) (k : nat) : bool :=
  match recordHandler.records h !! k with
  | Some r => negb (prunable r)
  | None => false
  end.

(** The pruner has nothing to take in [h]. *)
Definition nothing_to_prune (h : recordHandler.state) : bool :=
  forallb (pruner_keeps h) (recordHandler._recordsVec h).

Section pruner_runs.
Variable xuid : nat -> string.
Variable JSON_parse : string -> option json.
Variable convertTyped : option string -> value.

End pruner_runs.


(** The packets handed to the endpoint so far, in order, and the frames in
    them. *)
Definition packets_sent (c : connection_state.t) : list (list frame) :=
  omap (fun x => match x with endpoint_send p => Some p | _ => None end)
       (connection_state.effects c).
Definition frames_sent (c : connection_state.t) : list frame := concat (packets_sent c).

(** What the application and the flush timer do to the message queue. *)
Inductive traffic :=
| traffic_send (message : frame)        (* connection.send(message) *)
| traffic_flush.                        (* the timer runs _sendQueuedMessages, or flush() *)

Definition traffic_step (c : connection_state.t) (x : traffic) : connection_state.t :=
  match x with
  | traffic_send m => Connection.send m c
  | traffic_flush => Connection.flush c
  end.


(** The message queue of an open connection is in order: it holds no more
    than one packet, and while it holds anything the flush timer is set. *)
Definition queue_in_order (c : connection_state.t) : Prop :=
  connection_state._state c = OPEN /\ connection_state._endpoint c = WS_OPEN /\
  (length (connection_state._queuedMessages c)
     <= connection_state.maxMessagesPerPacket c)%nat /\
  (connection_state._queuedMessages c <> [] -> connection_state._messageSender c = true).

(** The messages among the traffic, in order. *)
Definition messages_of (xs : list traffic) : list frame :=
  omap (fun x => match x with traffic_send m => Some m | traffic_flush => None end) xs.

(** A frame that reads the record [name]. *)
Definition read_frame (name : string) : frame := Connection.getMsg RECORD READ [name].

(** A connection that takes two messages per packet and has five waiting, as
    after sends made while it was not yet open. *)
Definition loaded_connection (st : CONNECTION_STATE) : connection_state.t :=
  {| connection_state.heartbeatInterval := 30000;
     connection_state.maxMessagesPerPacket := 2;
     connection_state._state := st;
     connection_state._endpoint := WS_OPEN;
     connection_state._lastHeartBeat := Some 0;
     connection_state._heartbeatInterval := false;
     connection_state._messageSender := true;
     connection_state._messageHandler := false;
     connection_state._queuedMessages :=
       [read_frame "a"; read_frame "b"; read_frame "c"; read_frame "d"; read_frame "e"];
     connection_state._authParams := None;
     connection_state._deliberateClose := false;
     connection_state._redirecting := false;
     connection_state._challengeDenied := false;
     connection_state._connectionAuthenticationTimeout := false;
     connection_state._url := "ws://localhost:6020/deepstream";
     connection_state._originalUrl := "ws://localhost:6020/deepstream";
     connection_state.effects := [] |}.


(** The names every ordinary object inherits from [Object.prototype]. *)
Definition object_prototype_names : list string :=
  ["constructor"; "hasOwnProperty"; "isPrototypeOf"; "propertyIsEnumerable";
   "toLocaleString"; "toString"; "valueOf"; "__proto__";
   "__defineGetter__"; "__defineSetter__"; "__lookupGetter__"; "__lookupSetter__"].

(** Reading [v[key]] may leave the own properties of [v]: the key is one of
    the inherited names and [v] has no property of its own under it; on an
    array, which holds only its elements here, every key but an index and
    [length]. *)
Definition inherits (v : value) (key : string) : bool :=
  match v with
  | VObj _ ps =>
      bool_decide (key ∈ object_prototype_names)
      && negb (bool_decide (is_Some (props_lookup ps key)))
  | VArr _ _ => negb (bool_decide (is_Some (array_index key)) || String.eqb key "length")
  | _ => false
  end.

(** The walk of [get] along [tokens] from [data] reads own properties only,
    and no token is [__proto__]. *)
Fixpoint own_path (data : value) (tokens : list string) : bool :=
  match tokens with
  | [] => true
  | tok :: rest =>
      negb (String.eqb tok "__proto__") && negb (inherits data tok)
      && own_path (get_prop data tok) rest
  end.



(** Every reference in [v] satisfies [p]. *)
Fixpoint refs_all (p : nat -> bool) (v : value) : bool :=
  match v with
  | VArr r elems => p r && forallb (refs_all p) elems
  | VObj r ps => p r && forallb (fun kv => refs_all p (snd kv)) ps
  | _ => true
  end.



Section elements.
Variable no_array_for_object : value -> value -> bool.
Variable oldElems : list value.
(** The elements of the new array against those of the old one, from index
    [i] on. *)
Fixpoint elements_from (i : nat) (elems : list value) : bool :=
  match elems with
  | [] => true
  | e :: rest => no_array_for_object (nth i oldElems VUndef) e && elements_from (S i) rest
  end.
End elements.

(** Where [new] holds an object, [old] holds no array: looked at wherever
    [patch] goes, that is below every key of an object that both have and
    every index of an array that both have. *)
Fixpoint no_array_for_object (old new : value) : bool :=
  match new with
  | VObj _ ps =>
      match old with
      | VArr _ _ => false
      | VObj _ _ => forallb (fun kv => no_array_for_object (get_prop old (fst kv)) (snd kv)) ps
      | _ => true
      end
  | VArr _ elems =>
      match old with
      | VArr _ oldElems => elements_from no_array_for_object oldElems 0 elems
      | _ => true
      end
  | _ => true
  end.



(** The delays of the reconnect timers set so far, in order. *)
Definition reconnect_delays (f : ConnectionLifecycle.t) : list Z :=
  omap (fun e => match snd e with
                 | ConnectionLifecycle.set_reconnect_timeout d => Some d
                 | _ => None
                 end)
       (ConnectionLifecycle.events f).

(** A failed attempt: the socket closes, and later the reconnect timer runs
    [_tryOpen]. *)
Definition close_and_retry (f : ConnectionLifecycle.t) : ConnectionLifecycle.t :=
  ConnectionLifecycle._tryOpen (ConnectionLifecycle._onClose f).

(** The connection was neither closed on purpose nor is it being redirected,
    and no reconnect timer is pending. *)
Definition lost_not_closed (f : ConnectionLifecycle.t) : Prop :=
  connection_state._deliberateClose (ConnectionLifecycle.core f) = false /\
  connection_state._redirecting (ConnectionLifecycle.core f) = false /\
  ConnectionLifecycle._reconnectTimeout f = None.

(** The delay before attempt [k]. *)
Definition backoff (f : ConnectionLifecycle.t) (k : nat) : Z :=
  Z.min (ConnectionLifecycle.maxReconnectInterval f)
        (ConnectionLifecycle.reconnectIntervalIncrement f * Z.of_nat k).

(** A connection with the options of the second default-options file (five
    attempts, 4 s more each time, 180 s at most) around [c]. *)
Definition sample_lifecycle (c : connection_state.t) : ConnectionLifecycle.t :=
  {| ConnectionLifecycle.core := c;
     ConnectionLifecycle.maxReconnectAttempts := Some 5%nat;
     ConnectionLifecycle.reconnectIntervalIncrement := 4000;
     ConnectionLifecycle.maxReconnectInterval := 180000;
     ConnectionLifecycle._authCallback := true;
     ConnectionLifecycle._tooManyAuthAttempts := false;
     ConnectionLifecycle._reconnectTimeout := None;
     ConnectionLifecycle._reconnectionAttempt := 0;
     ConnectionLifecycle.events := [] |}.

Definition auth_message (a : ACTIONS) (d : list string) : Message :=
  {| topic := AUTH; action := a; data := d |}.


(* ====================================================================== *)
(** * Properties *)
(* ====================================================================== *)

#[local] Arguments String.append !_ _ / : simpl nomatch.

(** *** Worked examples of the path utility *)

Example tokenize_dotted :
  jsonPath.tokenize (Some "a.b[0] c") = Ok ["a"; "b"; "0"; "c"].
Proof. reflexivity. Qed.

Example tokenize_only_separators : jsonPath.tokenize (Some "..") = Throw InvalidPath.
Proof. reflexivity. Qed.

Example is_numeric_examples :
  map jsonPath.is_numeric ["0"; "12"; "1e3"; "0x1F"; "-5"; "a1"; "1a"; "Infinity"; "0x"]
  = [true; true; true; true; true; false; false; true; false].
Proof. reflexivity. Qed.

(** [set(undefined, 'a.b', 1)] then [set(_, 'a.c', 2)] gives [{a: {b: 1, c: 2}}]. *)
Example set_two_paths :
  let '(r1, n1) := jsonPath.set VUndef (Some "a.b") (VNum 1) 1%nat in
  match r1 with
  | Ok d1 => fst (jsonPath.set d1 (Some "a.c") (VNum 2) n1)
  | Throw e => Throw e
  end
  = Ok (VObj 3 [("a", VObj 4 [("b", VNum 1); ("c", VNum 2)])]).
Proof. reflexivity. Qed.

(** Integer tokens make arrays: [set(undefined, 'xs.1', true)] is
    [{xs: [<hole>, true]}]. *)
Example set_creates_array :
  fst (jsonPath.set VUndef (Some "xs.1") (VBool true) 1%nat)
  = Ok (VObj 1 [("xs", VArr 2 [VUndef; VBool true])]).
Proof. reflexivity. Qed.

Lemma strict_eq_refl v : strict_eq v v = true.
Proof.
  destruct v; simpl; auto using Bool.eqb_reflx, Z.eqb_refl, String.eqb_refl, Nat.eqb_refl.
Qed.

Lemma props_lookup_nodup {A} (ps : list (string * A)) i k v :
  NoDup (map fst ps) -> ps !! i = Some (k, v) -> props_lookup ps k = Some v.
Proof.
  revert i. induction ps as [|[k' v'] ps IH]; intros i Hnd Hi; [done|].
  simpl in *. apply NoDup_cons in Hnd as [Hnotin Hnd].
  destruct i as [|i]; simpl in Hi.
  - injection Hi as -> ->. by rewrite String.eqb_refl.
  - destruct (String.eqb_spec k' k) as [->|Hne].
    + exfalso. apply Hnotin. apply list_elem_of_fmap.
      exists (k, v). split; [done|]. eapply list_elem_of_lookup_2; eauto.
    + eauto.
Qed.

Import jsonPath.

(** The array loop keeps [arr] at [null] when every element patches to the
    old element. *)
Lemma patch_array_loop_same oldElems : forall newElems i next,
  Forall2 (fun o n => forall next, patch o n next = (o, next))
          (drop i oldElems) newElems ->
  patch_array_loop patch oldElems i newElems None next = (None, next).
Proof.
  induction newElems as [|n newElems IH]; intros i next H; [done|].
  inversion H as [|o ? os ? Hon Hrest Hdrop]; subst.
  assert (Hi : oldElems !! i = Some o).
  { rewrite <- (Nat.add_0_r i), <- lookup_drop, <- Hdrop. done. }
  assert (Hnth : nth i oldElems VUndef = o).
  { apply nth_lookup_Some with (d := VUndef) in Hi. done. }
  simpl. rewrite Hnth, Hon, strict_eq_refl.
  apply IH. rewrite (drop_S _ _ _ Hi) in Hdrop. by simplify_eq.
Qed.

(** The object loop keeps [obj] at [null] when the keys of [newValue] that
    carry a value are the keys of [oldValue], in order, and every value
    patches to the old one. *)
Lemma patch_object_loop_same r oldProps newKeys :
  NoDup (map fst oldProps) ->
  forall newProps i next,
  Forall2 (fun o n => fst o = fst n /\
                      forall next, patch (snd o) (snd n) next = (snd o, next))
          (drop i oldProps)
          (List.filter (fun kv => negb (is_undefined (snd kv))) newProps) ->
  patch_object_loop patch (VObj r oldProps) (map fst oldProps) newKeys i
    newProps None next = (None, next).
Proof.
  intros Hnd. induction newProps as [|[key newVal] newProps IH]; intros i next H; [done|].
  simpl in *. destruct (is_undefined newVal) eqn:Hu; simpl in H.
  - by apply IH.
  - inversion H as [|[k o] ? os ? [Hk Hon] Hrest Hdrop]; subst. simpl in *. subst k.
    assert (Hi : oldProps !! i = Some (key, o)).
    { rewrite <- (Nat.add_0_r i), <- lookup_drop, <- Hdrop. done. }
    rewrite (props_lookup_nodup _ _ _ _ Hnd Hi). simpl.
    rewrite Hon, strict_eq_refl. simpl.
    rewrite bool_decide_true by (by rewrite list_lookup_fmap, Hi).
    apply IH. rewrite (drop_S _ _ _ Hi) in Hdrop. by simplify_eq.
Qed.

Lemma is_json_not_undefined v : is_json v = true -> is_undefined v = false.
Proof. by destruct v. Qed.

Lemma filter_defined_json (ps : list (string * value)) :
  forallb (fun kv => is_json (snd kv)) ps = true ->
  List.filter (fun kv => negb (is_undefined (snd kv))) ps = ps.
Proof.
  induction ps as [|kv ps IH]; simpl; [done|].
  intros [H1 H2]%andb_true_iff.
  by rewrite (is_json_not_undefined _ H1), IH.
Qed.

(** Patching a JSON value with a structurally equal one returns the old value
    and allocates nothing. *)
Lemma patch_structurally_equal : forall b a next,
  is_json a = true -> is_json b = true -> structurally_equal a b ->
  patch a b next = (a, next).
Proof.
  unfold structurally_equal.
  induction b as [| | | | |r newElems IH|r newProps IH] using value_ind;
    intros a next Ha Hb He; destruct a; simpl in He; try discriminate;
    try (injection He as ->); try done.
  - simpl. by destruct b.
  - simpl. by rewrite Z.eqb_refl.
  - simpl. by rewrite String.eqb_refl.
  - (* arrays *)
    injection He as He. simpl in Ha, Hb.
    assert (Hlen : length newElems = length elems).
    { apply (f_equal length) in He. by rewrite !length_map in He. }
    assert (H2 : Forall2 (fun o n => forall next, patch o n next = (o, next))
                   elems newElems).
    { clear Hlen. revert elems Ha He.
      induction newElems as [|n ns IHns]; intros [|o os] Ha He; try done.
      simpl in *. apply andb_true_iff in Ha as [Ho Hos].
      apply andb_true_iff in Hb as [Hn Hns].
      inversion IH; subst. injection He as He1 He2.
      constructor; [intros; by eauto|]. by apply IHns. }
    simpl. rewrite Hlen, Nat.eqb_refl.
    rewrite patch_array_loop_same; [done|]. by rewrite drop_0.
  - (* objects *)
    injection He as He. simpl in Ha, Hb.
    apply andb_true_iff in Ha as [Hnd%bool_decide_eq_true Ha].
    apply andb_true_iff in Hb as [_ Hb].
    assert (Hkeys : map fst newProps = map fst props).
    { apply (f_equal (map fst)) in He. rewrite !map_map in He. simpl in He. done. }
    assert (H2 : Forall2 (fun o n => fst o = fst n /\
                     forall next, patch (snd o) (snd n) next = (snd o, next))
                   props newProps).
    { clear Hkeys Hnd. revert props Ha He.
      induction newProps as [|[k n] ns IHns]; intros [|[k' o] os] Ha He; try done.
      simpl in *. apply andb_true_iff in Ha as [Ho Hos].
      apply andb_true_iff in Hb as [Hn Hns].
      inversion IH; subst. injection He as He1 He2 He3. simpl in *.
      constructor; [split; [done|intros; by eauto]|]. by apply IHns. }
    simpl. unfold defined_keys. rewrite (filter_defined_json _ Hb).
    rewrite Hkeys, Nat.eqb_refl.
    rewrite patch_object_loop_same; [done..|].
    by rewrite drop_0, (filter_defined_json _ Hb).
Qed.

(** C5.  For every JSON value [a], [patch(a, a)] is [a] itself, the same
    reference; and for JSON values [a] and [b] that are structurally equal
    (the same members in the same [Object.keys] order), [patch(a, b)] is
    [a].  Nothing is allocated in either case. *)
Theorem patch_returns_old_when_equal :
  (forall a next, is_json a = true -> patch a a next = (a, next)) /\
  (forall a b next,
      is_json a = true -> is_json b = true -> structurally_equal a b ->
      patch a b next = (a, next)).
Proof.
  split.
  - intros a next Ha. by apply patch_structurally_equal.
  - intros a b next. apply patch_structurally_equal.
Qed.

Lemma patch_returns_old_when_equal_witness :
  let a := VObj 1 [("a", VNum 1); ("b", VArr 2 [VStr "x"; VNull])] in
  let b := VObj 3 [("a", VNum 1); ("b", VArr 4 [VStr "x"; VNull])] in
  patch a a 5 = (a, 5%nat) /\ patch a b 5 = (a, 5%nat).
Proof.
  split.
  - apply (proj1 patch_returns_old_when_equal). reflexivity.
  - apply (proj2 patch_returns_old_when_equal); reflexivity.
Defined.

(** Key order is part of the structure: with the same members in another
    order [patch] builds a new object. *)
Example patch_other_key_order :
  patch (VObj 1 [("a", VNum 1); ("b", VNum 2)]) (VObj 2 [("b", VNum 2); ("a", VNum 1)]) 3
  = (VObj 3 [("b", VNum 2); ("a", VNum 1)], 4%nat).
Proof. reflexivity. Qed.

(** C7, as amended.  For an object [d] none of whose values is [undefined]
    (a JSON object) and an object [v] whose keys with a defined value are the
    keys of [d], in order and with structurally equal values, all other keys
    of [v] being [undefined], [set(d, undefined, v)] returns [d] itself and
    allocates nothing. *)
Theorem set_root_undefined_extras_noop : forall r dProps r' vProps next,
  is_json (VObj r dProps) = true ->
  Forall2 (fun kd kv => fst kd = fst kv /\ is_json (snd kv) = true /\
                        structurally_equal (snd kd) (snd kv))
          dProps (List.filter (fun kv => negb (is_undefined (snd kv))) vProps) ->
  jsonPath.set (VObj r dProps) None (VObj r' vProps) next = (Ok (VObj r dProps), next).
Proof.
  intros r dProps r' vProps next Hd H2.
  simpl in Hd. apply andb_true_iff in Hd as [Hnd%bool_decide_eq_true Hd].
  unfold jsonPath.set, bind, lift_result, patchM. simpl tokenize. cbv iota beta.
  assert (Hlen : length (defined_keys vProps) = length (map fst dProps)).
  { unfold defined_keys. rewrite !length_map. symmetry. by eapply Forall2_length. }
  assert (H3 : Forall2 (fun o n => fst o = fst n /\
                   forall next, patch (snd o) (snd n) next = (snd o, next))
                 (drop 0 dProps)
                 (List.filter (fun kv => negb (is_undefined (snd kv))) vProps)).
  { rewrite drop_0. clear Hnd Hlen.
    induction H2 as [|kd kv ds vs (Hk & Hjv & He) _ IH]; [constructor|].
    simpl in Hd. apply andb_true_iff in Hd as [Hj Hd].
    constructor; [|by apply IH]. split; [done|].
    intros n. by apply patch_structurally_equal. }
  simpl. rewrite Hlen, Nat.eqb_refl.
  by rewrite (patch_object_loop_same r dProps _ Hnd vProps 0 next H3).
Qed.

(** Seed case 6: [jsonPath.set({a:1,b:2}, undefined, {a:1,b:2,c:undefined})]
    returns the input, the same reference. *)
Lemma set_root_undefined_extras_noop_witness :
  let d := VObj 1 [("a", VNum 1); ("b", VNum 2)] in
  jsonPath.set d None (VObj 2 [("a", VNum 1); ("b", VNum 2); ("c", VUndef)]) 3%nat
  = (Ok d, 3%nat).
Proof.
  apply set_root_undefined_extras_noop; [reflexivity|].
  simpl. repeat constructor.
Defined.

(** C7 as it is worded fails for an object that has a key whose value is
    [undefined]: [patch] counts no such key of the new value but all keys of
    the old one, and builds a new object.  A record comes to hold such data
    through [set('a', undefined)]. *)
Lemma set_root_undefined_valued_counterexample :
  let d := VObj 1 [("a", VUndef)] in
  jsonPath.set d None (VObj 2 [("a", VUndef); ("c", VUndef)]) 3%nat
  = (Ok (VObj 3 []), 4%nat) /\
  strict_eq (VObj 3 []) d = false /\
  jsonPath.set d None d 3%nat = (Ok (VObj 3 []), 4%nat) /\
  jsonPath.set (VObj 5 [("a", VNum 1)]) (Some "a") VUndef 6%nat
  = (Ok (VObj 6 [("a", VUndef)]), 7%nat).
Proof. by vm_compute. Qed.

(** The tests of the repository on [undefined] properties. *)
Example undefined_props_on_empty_object :
  jsonPath.set (VObj 1 []) None (VObj 2 [("gallery", VUndef); ("rundown", VUndef)]) 3%nat
  = (Ok (VObj 1 []), 3%nat).
Proof. reflexivity. Qed.

Example undefined_props_on_new_object :
  jsonPath.set (VObj 1 [("time", VNum 1)]) None (VObj 2 [("time", VUndef)]) 3%nat
  = (Ok (VObj 3 []), 4%nat).
Proof. reflexivity. Qed.

(** *** What [patch] returns *)



Lemma refs_all_nth p elems i :
  forallb (refs_all p) elems = true -> refs_all p (nth i elems VUndef) = true.
Proof.
  revert i. induction elems as [|e elems IH]; intros [|i]; simpl; try done.
  - by intros [? ?]%andb_true_iff.
  - intros [? ?]%andb_true_iff. by apply IH.
Qed.

Lemma refs_all_lookup p (ps : list (string * value)) k :
  forallb (fun kv => refs_all p (snd kv)) ps = true ->
  refs_all p (default VUndef (props_lookup ps k)) = true.
Proof.
  induction ps as [|[k' v'] ps IH]; simpl; [done|].
  intros [? ?]%andb_true_iff. destruct (String.eqb k' k); [done|]. by apply IH.
Qed.

Lemma refs_all_get_prop p v k : refs_all p v = true -> refs_all p (get_prop v k) = true.
Proof.
  destruct v; simpl; try done.
  - intros [_ H]%andb_true_iff. destruct (array_index k).
    + by apply refs_all_nth.
    + by destruct (String.eqb k "length").
  - intros [_ H]%andb_true_iff. by apply refs_all_lookup.
Qed.







Section patch_content.
Variable n : nat.









End patch_content.

(** *** What [JSON.parse] builds *)














(** An array where the new value holds an object with the indices as keys:
    [patch([1, 2], {"0": 1, "1": 2})] is the old array. *)
Example patch_array_for_object :
  patch (VArr 1 [VNum 1; VNum 2]) (VObj 2 [("0", VNum 1); ("1", VNum 2)]) 3
  = (VArr 1 [VNum 1; VNum 2], 3%nat).
Proof. reflexivity. Qed.

(** *** get *)


Lemma get_loop_throws c : forall ts e,
  get_loop c ts = Throw e ->
  e = InvalidDataOrPath /\
  exists c' tok rest, walk c ts c' (tok :: rest) /\ primitive_or_null c' = true.
Proof.
  intros ts. revert c. induction ts as [|tok ts IH]; intros c e H; [done|].
  simpl in H.
  destruct (is_undefined c) eqn:Hu; [done|].
  destruct (negb (typeof_object c) || is_null c) eqn:Hp.
  - injection H as <-. split; [done|]. exists c, tok, ts. split; [constructor|].
    unfold primitive_or_null. rewrite Hu. by destruct c.
  - apply IH in H as (-> & c' & tok' & rest & Hw & Hc'). split; [done|].
    exists c', tok', rest. split; [|done].
    apply walk_step; [by destruct c|done].
Qed.



(** A name the start inherits is outside the theorem: [own_path] refuses
    [get({}, "constructor.name")], where the cursor after the first token is
    the constructor of the object and no own property. *)
Example own_path_refuses_inherited :
  own_path EMPTY ["constructor"; "name"] = false /\
  own_path (VObj 1 [("constructor", VObj 2 [])]) ["constructor"; "name"] = true /\
  own_path (VArr 1 [VNum 1]) ["0"] = true /\
  own_path (VArr 1 [VNum 1]) ["map"] = false.
Proof. by vm_compute. Qed.


(** *** Decimal numerals *)

Lemma digit_value_char d : (d < 10)%N -> digit_value (digit_char d) = Some d.
Proof.
  intros Hd. unfold digit_value, digit_char.
  rewrite N_ascii_embedding by lia.
  replace ((48 <=? 48 + d)%N) with true by (symmetry; apply N.leb_le; lia).
  replace ((48 + d <=? 57)%N) with true by (symmetry; apply N.leb_le; lia).
  simpl. f_equal. lia.
Qed.

Lemma digit_char_not_dash d : (d < 10)%N -> Ascii.eqb (digit_char d) "-" = false.
Proof.
  intros Hd. apply Ascii.eqb_neq. intros H.
  apply (f_equal digit_value) in H. rewrite digit_value_char in H by done. done.
Qed.

Lemma append_assoc (a b c : string) : (a +:+ b) +:+ c = a +:+ (b +:+ c).
Proof. induction a; simpl; congruence. Qed.

Lemma length_append (a b : string) :
  String.length (a +:+ b) = (String.length a + String.length b)%nat.
Proof. induction a; simpl; congruence. Qed.

Lemma show_digits_app fuel : forall n acc,
  show_digits fuel n acc = show_digits fuel n "" +:+ acc.
Proof.
  induction fuel as [|fuel IH]; intros n acc; [done|].
  simpl. destruct (n <? 10)%N; [done|].
  rewrite IH. rewrite (IH _ (String _ "")). by rewrite append_assoc.
Qed.

Lemma show_digits_digits fuel : forall n acc,
  digits_only acc -> digits_only (show_digits fuel n acc).
Proof.
  induction fuel as [|fuel IH]; intros n acc Hacc; [done|].
  simpl.
  assert (digits_only (String (digit_char (n mod 10)) acc)).
  { split; [|done]. exists (n mod 10)%N. split; [|done]. by apply N.mod_lt. }
  destruct (n <? 10)%N; [done|]. by apply IH.
Qed.

Lemma show_digits_nonempty fuel n acc : show_digits (S fuel) n acc <> "".
Proof.
  rewrite show_digits_app. simpl. destruct (n <? 10)%N; [done|].
  rewrite show_digits_app. by destruct (show_digits fuel _ "").
Qed.

Lemma show_N_digits n : digits_only (show_N n).
Proof. by apply show_digits_digits. Qed.

Lemma show_N_nonempty n : show_N n <> "".
Proof. apply show_digits_nonempty. Qed.

(** Reading back what [show_digits] wrote. *)
Lemma read_show_digits fuel : forall n,
  (n < 10 ^ N.of_nat (S fuel))%N ->
  exists k : nat, forall acc a cnt,
    read_digits (show_digits (S fuel) n acc) a cnt
    = read_digits acc (a * 10 ^ N.of_nat (S k) + n)%N (cnt + S k)%nat.
Proof.
  induction fuel as [|fuel IH]; intros n Hn.
  - exists 0%nat. intros acc a cnt. simpl in Hn.
    assert (Hlt : (n < 10)%N) by lia.
    simpl. rewrite (proj2 (N.ltb_lt _ _) Hlt). simpl.
    rewrite N.mod_small by done. rewrite digit_value_char by done.
    f_equal; lia.
  - destruct (N.ltb_spec n 10) as [Hlt|Hge].
    + exists 0%nat. intros acc a cnt.
      change (show_digits (S (S fuel)) n acc)
        with (let acc' := String (digit_char (n mod 10)) acc in
              if (n <? 10)%N then acc' else show_digits (S fuel) (n / 10) acc').
      simpl. rewrite (proj2 (N.ltb_lt _ _) Hlt). simpl.
      rewrite N.mod_small by done. rewrite digit_value_char by done.
      f_equal; lia.
    + destruct (IH (n / 10)%N) as [k Hk].
      { apply N.Div0.div_lt_upper_bound.
        replace (10 * 10 ^ N.of_nat (S fuel))%N with (10 ^ N.of_nat (S (S fuel)))%N; [done|].
        rewrite (Nat2N.inj_succ (S fuel)), N.pow_succ_r'. done. }
      exists (S k). intros acc a cnt.
      change (show_digits (S (S fuel)) n acc)
        with (let acc' := String (digit_char (n mod 10)) acc in
              if (n <? 10)%N then acc' else show_digits (S fuel) (n / 10) acc').
      cbv zeta. rewrite (proj2 (N.ltb_ge _ _) Hge). rewrite Hk.
      simpl read_digits. rewrite digit_value_char by (by apply N.mod_lt).
      f_equal; [|lia].
      rewrite (Nat2N.inj_succ (S k)), N.pow_succ_r'.
      pose proof (N.div_mod n 10%N ltac:(done)). lia.
Qed.

Lemma show_N_fuel n : (n < 10 ^ N.of_nat (S (N.to_nat (N.log2 n))))%N.
Proof.
  destruct (N.eq_dec n 0%N) as [->|Hn]; [done|].
  rewrite Nat2N.inj_succ, N2Nat.id.
  pose proof (N.log2_spec n ltac:(lia)) as [_ H].
  eapply N.lt_le_trans; [exact H|].
  apply N.pow_le_mono_l. lia.
Qed.

Lemma read_show_N n : exists k : nat, forall rest a cnt,
  read_digits (show_N n +:+ rest) a cnt
  = read_digits rest (a * 10 ^ N.of_nat (S k) + n)%N (cnt + S k)%nat.
Proof.
  destruct (read_show_digits _ n (show_N_fuel n)) as [k Hk].
  exists k. intros rest a cnt. unfold show_N. by rewrite <- show_digits_app, Hk.
Qed.

Lemma append_empty_r (s : string) : s +:+ "" = s.
Proof. induction s; simpl; congruence. Qed.

Lemma digit_char_cases d :
  (d < 10)%N ->
  In (digit_char d) ["0"; "1"; "2"; "3"; "4"; "5"; "6"; "7"; "8"; "9"]%char.
Proof.
  intros Hd.
  assert (Hc : In d [0; 1; 2; 3; 4; 5; 6; 7; 8; 9]%N) by (simpl; lia).
  simpl in Hc. simpl.
  repeat (destruct Hc as [<-|Hc]; [tauto|]). done.
Qed.

Lemma parse_integer_show_N n : parse_integer (show_N n) = Some (Z.of_N n).
Proof.
  destruct (read_show_N n) as [k Hk].
  pose proof (show_N_digits n) as Hd.
  pose proof (show_N_nonempty n) as Hne.
  specialize (Hk "" 0%N 0%nat). rewrite append_empty_r in Hk.
  rewrite N.mul_0_l, N.add_0_l, Nat.add_0_l in Hk.
  unfold parse_integer.
  destruct (show_N n) as [|c s] eqn:Hs; [done|].
  destruct Hd as [(d & Hd & ->) _].
  pose proof (digit_char_cases d Hd) as Hc. simpl in Hc.
  repeat (destruct Hc as [Hc0|Hc];
          [rewrite <- Hc0 in *; simpl in Hk |- *; rewrite Hk; reflexivity|]).
  done.
Qed.

Lemma show_N_inj m n : show_N m = show_N n -> m = n.
Proof.
  intros H. pose proof (parse_integer_show_N m) as Hm.
  rewrite H, parse_integer_show_N in Hm. injection Hm. lia.
Qed.

(** Up to [2^53] nothing is rounded. *)
Lemma round_double_exact z :
  (Z.abs z <= Z.of_N safe_limit)%Z -> round_double z = z.
Proof.
  intros Hz. unfold round_double.
  destruct (Z.leb_spec (Z.log2 (Z.abs z) - 52) 0) as [|Hlog]; [done|].
  assert (Ha : Z.abs z = Z.of_N safe_limit).
  { destruct (Z.lt_ge_cases (Z.abs z) (2 ^ 53)) as [Hlt|Hge].
    - assert (0 < Z.abs z)%Z as Hpos.
      { destruct (Z.abs z) eqn:E; [simpl in Hlog|..]; lia. }
      apply (Z.log2_lt_pow2 _ _ Hpos) in Hlt. lia.
    - change (2 ^ 53)%Z with (Z.of_N safe_limit) in Hge. lia. }
  destruct (Z.abs_spec z) as [[_ Heq]|[_ Heq]]; rewrite Heq in Ha.
  - by rewrite Ha.
  - replace z with (- Z.of_N safe_limit)%Z by lia. reflexivity.
Qed.

Lemma parseInt_show_N n :
  (n <= safe_limit)%N -> parseInt (show_N n) = Some (Z.of_N n).
Proof.
  intros Hn. unfold parseInt. rewrite parse_integer_show_N. simpl.
  by rewrite round_double_exact by lia.
Qed.

(** *** Version tokens *)

Lemma indexOf_digits ds rest :
  digits_only ds ->
  utils.indexOf (ds +:+ String "-" rest) "-" = Z.of_nat (String.length ds).
Proof.
  induction ds as [|c ds IH]; intros Hd; [done|].
  destruct Hd as [(d & Hd & ->) Hds]. simpl.
  rewrite digit_char_not_dash by done. rewrite IH by done.
  destruct (Z.ltb_spec (Z.of_nat (String.length ds)) 0); lia.
Qed.


Lemma substring_prefix a b : String.substring 0 (String.length a) (a +:+ b) = a.
Proof. induction a; simpl; [by destruct b|congruence]. Qed.

Lemma substring_all b : String.substring 0 (String.length b) b = b.
Proof. induction b; simpl; congruence. Qed.

Lemma substring_suffix a b :
  String.substring (String.length a) (String.length b) (a +:+ b) = b.
Proof. induction a; simpl; [apply substring_all|done]. Qed.

Lemma splitRev_token c nonce :
  utils.splitRev (Some (version_token c nonce)) = [show_N c; nonce].
Proof.
  unfold utils.splitRev, version_token. simpl.
  pose proof (show_N_nonempty c) as Hne. pose proof (show_N_digits c) as Hd.
  destruct (String.eqb_spec (show_N c +:+ String "-" nonce) "") as [He|_].
  { destruct (show_N c); discriminate. }
  rewrite indexOf_digits by done.
  set (ds := show_N c) in *.
  assert (Hlen : utils.str_length (ds +:+ String "-" nonce)
                 = Z.of_nat (String.length ds) + 1 + Z.of_nat (String.length nonce)).
  { unfold utils.str_length. rewrite length_append. simpl. lia. }
  unfold utils.slice_from, utils.slice, utils.clamp_index. rewrite Hlen.
  repeat match goal with
         | |- context [(?x <? 0)%Z] =>
             destruct (Z.ltb_spec x 0); [lia|]
         end.
  rewrite !Z.min_l by lia.
  replace (Z.to_nat 0) with 0%nat by done.
  rewrite Nat.sub_0_r, Nat2Z.id, substring_prefix.
  replace (Z.to_nat (Z.of_nat (String.length ds) + 1)) with (String.length (ds +:+ "-")).
  2:{ rewrite length_append. simpl. lia. }
  replace (Z.to_nat (Z.of_nat (String.length ds) + 1 + Z.of_nat (String.length nonce))
           - String.length (ds +:+ "-"))%nat with (String.length nonce).
  2:{ rewrite length_append. simpl. lia. }
  replace (ds +:+ String "-" nonce) with ((ds +:+ "-") +:+ nonce).
  2:{ by rewrite append_assoc. }
  by rewrite substring_suffix.
Qed.

Lemma version_token_nonempty c nonce :
  utils.is_empty_version (Some (version_token c nonce)) = false.
Proof.
  unfold version_token. simpl. pose proof (show_N_nonempty c).
  apply String.eqb_neq. destruct (show_N c); done.
Qed.

Lemma string_ge_compare a : forall b,
  utils.string_ge a b = true <-> string_compare b a <> Gt.
Proof.
  induction a as [|x a IH]; intros [|y b]; simpl; try done.
  destruct (N.compare_spec (N_of_ascii y) (N_of_ascii x)) as [He|Hlt|Hgt].
  - rewrite He, N.ltb_irrefl. apply IH.
  - rewrite (proj2 (N.ltb_lt _ _) Hlt). done.
  - rewrite (proj2 (N.ltb_ge _ _)) by lia.
    rewrite (proj2 (N.ltb_lt _ _) Hgt). done.
Qed.

(** [compareVersions] on two tokens decides the version order. *)
Lemma compareVersions_tokens cv nv cw nw :
  (cv <= safe_limit)%N -> (cw <= safe_limit)%N ->
  utils.compareVersions (Some (version_token cv nv)) (Some (version_token cw nw)) = true
  <-> version_le (cw, nw) (cv, nv).
Proof.
  intros Hcv Hcw. unfold utils.compareVersions, version_le.
  rewrite !version_token_nonempty, !splitRev_token, !parseInt_show_N by done. simpl.
  rewrite orb_true_iff, andb_true_iff, Z.ltb_lt, String.eqb_eq, string_ge_compare.
  split.
  - intros [H|[H1 H2]]; [left; lia|right]. split; [|done]. symmetry. by apply show_N_inj.
  - intros [H|[-> H2]]; [left; lia|by right].
Qed.

(** *** Records *)

Section record_properties.
Variable xuid : nat -> string.
Variable JSON_parse : string -> option json.
Variable convertTyped : option string -> value.

Import record.

#[local] Abbreviation _applyChange := (record._applyChange).
#[local] Abbreviation _dispatchUpdate := (record._dispatchUpdate xuid).
#[local] Abbreviation _applyUpdate := (record._applyUpdate JSON_parse).
#[local] Abbreviation _onRead := (record._onRead xuid JSON_parse).
#[local] Abbreviation _onMessage := (record._onMessage xuid JSON_parse convertTyped).
#[local] Abbreviation perform := (record.perform xuid JSON_parse convertTyped).
#[local] Abbreviation run := (record.run xuid JSON_parse convertTyped).

Lemma set_calls_id e : set_calls (calls e) e = e.
Proof. by destruct e. Qed.

Lemma call_all_effect fs v : forall st e,
  call_all fs v (st, e) = (Ok tt, (st, set_calls (calls e ++ map (fun f => (f, v)) fs) e)).
Proof.
  induction fs as [|f fs IH]; intros st e; simpl.
  - by rewrite app_nil_r, set_calls_id.
  - unfold bind, call, update_shared, modify. simpl. rewrite IH. simpl.
    by rewrite <- app_assoc.
Qed.

(** The loop of [_applyChange] touches nothing but the log of calls. *)
Lemma notify_effect paths newData oldData : forall st e,
  exists res cs, notify paths newData oldData (st, e) = (res, (st, set_calls cs e)).
Proof.
  induction paths as [|path paths IH]; intros st e; simpl.
  - exists (Ok tt), (calls e). by rewrite set_calls_id.
  - unfold bind, lift_result.
    destruct (jsonPath.get newData (Some path)) as [nv|err].
    2:{ exists (Throw err), (calls e). by rewrite set_calls_id. }
    destruct (jsonPath.get oldData (Some path)) as [ov|err].
    2:{ exists (Throw err), (calls e). by rewrite set_calls_id. }
    destruct (negb (strict_eq nv ov)).
    + unfold record.get, bind, this, gets, invariant, lift_result. simpl.
      destruct (isDestroyed st); simpl.
      { exists (Throw InvariantViolation), (calls e). by rewrite set_calls_id. }
      destruct (jsonPath.get (_data st) (Some path)) as [v|err].
      2:{ exists (Throw err), (calls e). by rewrite set_calls_id. }
      unfold emitter_emit, bind, this, gets. simpl.
      rewrite call_all_effect.
      destruct (IH st (set_calls (calls e ++ map (fun f => (f, v))
                  (default [] (props_lookup (default [] (_eventEmitter st)) path))) e))
        as (res & cs & ->).
      by exists res, cs.
    + unfold ret. destruct (IH st e) as (res & cs & ->). by exists res, cs.
Qed.

Lemma notify_ok paths newData oldData : forall st e,
  isDestroyed st = false ->
  (forall p, p ∈ paths -> exists v, jsonPath.get newData (Some p) = Ok v) ->
  (forall p, p ∈ paths -> exists v, jsonPath.get oldData (Some p) = Ok v) ->
  (forall p, p ∈ paths -> exists v, jsonPath.get (_data st) (Some p) = Ok v) ->
  fst (notify paths newData oldData (st, e)) = Ok tt.
Proof.
  induction paths as [|path paths IH]; intros st e Hd Hn Ho Hc; [done|].
  simpl. unfold bind, lift_result.
  destruct (Hn path) as [nv ->]; [by left|].
  destruct (Ho path) as [ov ->]; [by left|].
  assert (Hrest : forall e', fst (notify paths newData oldData (st, e')) = Ok tt).
  { intros e'. apply IH; [done|..]; intros p Hp; [apply Hn|apply Ho|apply Hc]; by right. }
  destruct (negb (strict_eq nv ov)).
  - unfold record.get, bind, this, gets, invariant, lift_result. simpl. rewrite Hd. simpl.
    destruct (Hc path) as [v ->]; [by left|].
    unfold emitter_emit, bind, this, gets. simpl. rewrite call_all_effect.
    specialize (Hrest (set_calls (calls e ++ map (fun f => (f, v))
                  (default [] (props_lookup (default [] (_eventEmitter st)) path))) e)).
    destruct (notify paths newData oldData _) as [res s']. done.
  - unfold ret. specialize (Hrest e).
    destruct (notify paths newData oldData _) as [res s']. done.
Qed.

(** [_applyChange(newData)] on a live record stores [newData]; beyond that
    it only calls subscribers. *)
Lemma applyChange_effect newData st e :
  isDestroyed st = false ->
  exists res cs,
    _applyChange newData (st, e) = (res, (set_data newData st, set_calls cs e)).
Proof.
  intros Hd. unfold record._applyChange, bind, this, update, gets, modify. simpl.
  rewrite Hd. simpl. destruct (_eventEmitter st) as [m|] eqn:Hm.
  - destruct (notify_effect (map fst m) newData (_data st) (set_data newData st) e)
      as (res & cs & ->). by exists res, cs.
  - exists (Ok tt), (calls e). by rewrite set_calls_id.
Qed.

Lemma applyChange_ok newData st e :
  isDestroyed st = false ->
  readable st newData -> readable st (_data st) ->
  fst (_applyChange newData (st, e)) = Ok tt.
Proof.
  intros Hd Hn Ho. unfold record._applyChange, bind, this, update, gets, modify. simpl.
  rewrite Hd. simpl. unfold readable in *.
  destruct (_eventEmitter st) as [m|] eqn:Hm; [|done].
  simpl in *. by apply notify_ok.
Qed.

(** [_dispatchUpdate()] *)
Lemma dispatchUpdate_effect st e :
  let version' := next_version xuid (version st) e in
  _dispatchUpdate (st, e)
  = (Ok tt,
     (set_version (Some version') st,
      set_outbox (outbox e ++ [{| sent_topic := RECORD; sent_action := UPDATE;
                                  sent_data := [VStr (name st); VStr version'; _data st;
                                                version_value (version st)] |}])
        (set_xuid_calls (S (xuid_calls e)) e))).
Proof. reflexivity. Qed.

Lemma onMessage_update_ready message st e :
  isDestroyed st = false -> isReady st = true -> action message = UPDATE ->
  _onMessage message (st, e) = _applyUpdate message (st, e).
Proof.
  intros Hd Hr Ha. unfold record._onMessage, bind, this, gets, invariant. simpl.
  rewrite Hd. simpl. rewrite Ha. simpl. by rewrite Hr.
Qed.

Lemma onMessage_update_unready message st e :
  isDestroyed st = false -> isReady st = false -> action message = UPDATE ->
  _onMessage message (st, e) = _onRead message (st, e).
Proof.
  intros Hd Hr Ha. unfold record._onMessage, bind, this, gets, invariant. simpl.
  rewrite Hd. simpl. rewrite Ha. simpl. by rewrite Hr.
Qed.


Lemma run_listeners_effect ls arg : forall st e,
  exists ps cs,
    run_listeners ls arg (st, e) = (Ok tt, (st, set_promises ps (set_calls cs e))).
Proof.
  induction ls as [|l ls IH]; intros st e; simpl.
  - exists (promises e), (calls e). by destruct e.
  - unfold bind.
    assert (exists ps cs, run_listener l arg (st, e)
                          = (Ok tt, (st, set_promises ps (set_calls cs e)))) as (ps & cs & ->).
    { destruct l; simpl; unfold settle, call, update_shared, modify; simpl.
      - destruct (promises e !! p) as [[]|];
          first [by exists (<[p:=Resolved]> (promises e)), (calls e); destruct e
                |by exists (promises e), (calls e); destruct e].
      - destruct (promises e !! p) as [[]|];
          first [by exists (<[p:=Rejected "destroyed"]> (promises e)), (calls e); destruct e
                |by exists (promises e), (calls e); destruct e].
      - by exists (promises e), (calls e ++ [(f, arg)]); destruct e. }
    destruct (IH st (set_promises ps (set_calls cs e))) as (ps' & cs' & ->).
    by exists ps', cs'.
Qed.

(** [emit] changes the record's listeners, the promises and the log of
    calls, and nothing else. *)
Lemma emit_effect event arg st e :
  exists cbs ps cs,
    emit event arg (st, e)
    = (Ok tt, (set_callbacks cbs st, set_promises ps (set_calls cs e))).
Proof.
  unfold emit, bind, this, gets, update, modify. simpl.
  match goal with
  | |- context [run_listeners ?ls arg (?st', e)] =>
      destruct (run_listeners_effect ls arg st' e) as (ps & cs & ->)
  end.
  by eexists _, ps, cs.
Qed.

Lemma replay_snoc queue entry : forall v next,
  replay (queue ++ [entry]) v next
  = (v' <- replay queue v ;;
     jsonPath.set v' (Some (entry_path entry)) (entry_data entry))%js next.
Proof.
  induction queue as [|x queue IH]; intros v next; simpl; unfold bind, ret.
  - by destruct (jsonPath.set v _ _ next) as [[v'|err] next'].
  - destruct (jsonPath.set v _ _ next) as [[v'|err] next']; [|done].
    rewrite IH. done.
Qed.

(** C3, as amended.  [set(path, value)] on a live record that still has its
    patch queue appends the entry to the queue.  When the first [UPDATE]
    arrives for a record that is not ready and has the queue [queue], and
    replaying the queue on the parsed snapshot succeeds with [replayed]
    ([replay] applies the entries with [jsonPath.set], first to last), then
    the record's data are [replayed], the queue is gone and the record is
    ready; and when the subscribed paths can be read in the old and in the
    new data, the call completes: if [replayed === snapshot] the record has
    the version of the message and nothing was sent, otherwise exactly one
    [UPDATE] was sent, built on the version of the message, and the record
    has the version of that [UPDATE].  When replaying the queue fails, the
    call fails with the same error and the record is as it was: not ready,
    with its queue. *)
Theorem onRead_replays_patch_queue :
  (forall st e queue path val,
      isDestroyed st = false -> _patchQueue st = Some queue -> path <> "" ->
      _patchQueue (fst (snd (record.set xuid [VStr path; val] (st, e))))
      = Some (queue ++ [{| entry_path := path; entry_data := val |}])) /\
  (forall st e message queue j snapshot next1 replayed next2,
      isReady st = false -> isDestroyed st = false ->
      _patchQueue st = Some queue ->
      action message = UPDATE ->
      data message !! 2%nat ≫= JSON_parse = Some j ->
      reify j (next_ref e) = (snapshot, next1) ->
      replay queue snapshot next1 = (Ok replayed, next2) ->
      let '(res, (st', e')) := _onMessage message (st, e) in
      _data st' = replayed /\ _patchQueue st' = None /\ isReady st' = true /\
      (readable st replayed -> readable st (_data st) ->
         res = Ok tt /\
         if strict_eq replayed snapshot
         then version st' = data message !! 1%nat /\ outbox e' = outbox e
         else
           let version' := next_version xuid (data message !! 1%nat) e in
           version st' = Some version' /\
           outbox e' = outbox e ++
             [{| sent_topic := RECORD; sent_action := UPDATE;
                 sent_data := [VStr (name st); VStr version'; replayed;
                               version_value (data message !! 1%nat)] |}])) /\
  (forall st e message queue j snapshot next1 err next2,
      isReady st = false -> isDestroyed st = false ->
      _patchQueue st = Some queue ->
      action message = UPDATE ->
      data message !! 2%nat ≫= JSON_parse = Some j ->
      reify j (next_ref e) = (snapshot, next1) ->
      replay queue snapshot next1 = (Throw err, next2) ->
      _onMessage message (st, e) = (Throw err, (st, set_next_ref next2 e))).
Proof.
  split; [|split].
  - intros st e queue path val Hd Hq Hp.
    unfold record.set, bind, this, gets, invariant, update, modify, alloc. simpl.
    rewrite Hd. simpl. destruct path as [|c path]; [done|]. simpl. rewrite Hq. simpl.
    destruct (jsonPath.set (_data st) _ val (next_ref e)) as [[newValue|err] next']; [|done].
    simpl. destruct (strict_eq (_data st) newValue); [done|].
    match goal with
    | |- context [record._applyChange newValue (?s, ?e0)] =>
        destruct (applyChange_effect newValue s e0 Hd) as (res & cs & ->)
    end.
    destruct res; [|done]. simpl.
    destruct (isReady st); [|done].
    by rewrite dispatchUpdate_effect.
  - intros st e message queue j snapshot next1 replayed next2 Hr Hd Hq Ha Hj Hre Hrp.
    rewrite onMessage_update_unready by done.
    unfold record._onRead, bind, this, gets, update, modify, parse, alloc. simpl.
    rewrite Hj. simpl. rewrite Hre. simpl. rewrite Hq. simpl. rewrite Hrp. simpl.
    match goal with
    | |- context [record._applyChange replayed (?s, ?e0)] =>
        pose proof (applyChange_ok replayed s e0 Hd) as Hok;
        destruct (applyChange_effect replayed s e0 Hd) as (res & cs & Heq)
    end.
    rewrite Heq in Hok |- *. simpl in Hok.
    destruct res as [[]|err].
    + destruct (strict_eq replayed snapshot) eqn:Hse; simpl.
      * unfold ret.
        match goal with
        | |- context [emit "ready" VUndef (?s, ?e0)] =>
            destruct (emit_effect "ready" VUndef s e0) as (cbs & ps & cs' & ->)
        end.
        simpl. do 3 (split; [done|]). by intros _ _.
      * match goal with
        | |- context [emit "ready" VUndef (?s, ?e0)] =>
            destruct (emit_effect "ready" VUndef s e0) as (cbs & ps & cs' & ->)
        end.
        simpl. do 3 (split; [done|]). by intros _ _.
    + simpl. do 3 (split; [done|]). intros Hn Ho. by specialize (Hok Hn Ho).
  - intros st e message queue j snapshot next1 err next2 Hr Hd Hq Ha Hj Hre Hrp.
    rewrite onMessage_update_unready by done.
    unfold record._onRead, bind, this, gets, update, modify, parse, alloc. simpl.
    rewrite Hj. simpl. rewrite Hre. simpl. rewrite Hq. simpl. by rewrite Hrp.
Qed.

Lemma strict_eq_ref a b :
  strict_eq a b = true -> is_Some (ref_of b) -> is_Some (ref_of a).
Proof. destruct a, b; simpl; try done; by eauto. Qed.

Lemma truthy_ref v : is_Some (ref_of v) -> truthy v = true.
Proof. destruct v; simpl; try done; by intros [? ?]. Qed.

(** Patching with an array or an object gives an array or an object. *)
Lemma patch_ref oldValue newValue next :
  is_Some (ref_of newValue) -> is_Some (ref_of (fst (jsonPath.patch oldValue newValue next))).
Proof.
  intros Hn. destruct newValue as [| | | | |r newElems|r newProps];
    try (by destruct Hn); simpl.
  - destruct (is_null oldValue) eqn:Hnull; simpl; [done|].
    destruct oldValue as [| | | | |r' oldElems|r' oldProps]; simpl; try done.
    + destruct (length newElems =? length oldElems)%nat;
        match goal with
        | |- context [patch_array_loop ?p ?o ?i ?n ?a ?x] =>
            destruct (patch_array_loop p o i n a x) as [[[r2 elems]|] next']
        end; simpl; done.
    + destruct (r =? r')%nat; simpl; done.
  - destruct (is_null oldValue) eqn:Hnull; simpl; [done|].
    destruct (typeof_object oldValue) eqn:Ht.
    + match goal with
      | |- context [if ?c then patch_object_loop ?p ?ov ?ok ?nk ?i ?n ?a ?x else _] =>
          destruct c;
          match goal with
          | |- context [patch_object_loop ?p ?ov ?ok ?nk ?i ?n ?a ?x] =>
              destruct (patch_object_loop p ov ok nk i n a x) as [[[r2 ps]|] next']
          end
      end; simpl; try done; by destruct oldValue.
    + destruct oldValue; simpl in *; try done.
Qed.

(** C10, as amended.  On a record that is not ready, [set(value)] with an
    array or an object (not [null]) drops the patch queue and leaves data
    that are truthy.  When the first [UPDATE] then arrives, the record keeps
    its data and becomes ready; and when the subscribed paths can be read,
    the call completes: if the data are the parsed snapshot itself the
    record has the version of the message and nothing was sent, otherwise
    one [UPDATE] with the local data was sent, built on the version of the
    message. *)
Theorem root_set_before_ready_keeps_local_data :
  (forall st e val,
      isReady st = false -> isDestroyed st = false -> is_Some (ref_of val) ->
      let st' := fst (snd (record.set xuid [val] (st, e))) in
      _patchQueue st' = None /\ truthy (_data st') = true /\
      isReady st' = false /\ isDestroyed st' = false) /\
  (forall st e message j snapshot next1,
      isReady st = false -> isDestroyed st = false ->
      _patchQueue st = None -> truthy (_data st) = true ->
      action message = UPDATE ->
      data message !! 2%nat ≫= JSON_parse = Some j ->
      reify j (next_ref e) = (snapshot, next1) ->
      let '(res, (st', e')) := _onMessage message (st, e) in
      _data st' = _data st /\ _patchQueue st' = None /\ isReady st' = true /\
      (readable st (_data st) ->
         res = Ok tt /\
         if strict_eq (_data st) snapshot
         then version st' = data message !! 1%nat /\ outbox e' = outbox e
         else
           let version' := next_version xuid (data message !! 1%nat) e in
           version st' = Some version' /\
           outbox e' = outbox e ++
             [{| sent_topic := RECORD; sent_action := UPDATE;
                 sent_data := [VStr (name st); VStr version'; _data st;
                               version_value (data message !! 1%nat)] |}])).
Proof.
  split.
  - intros st e val Hr Hd Hv.
    assert (Hobj : typeof_object val = true) by (destruct val; try done; by destruct Hv).
    unfold record.set, bind, this, gets, invariant, update, modify, alloc. simpl.
    rewrite Hd. simpl. rewrite Hobj. simpl.
    unfold jsonPath.set, bind, lift_result, patchM. simpl.
    pose proof (patch_ref (_data st) val (next_ref e) Hv) as Href.
    destruct (jsonPath.patch (_data st) val (next_ref e)) as [newValue next'] eqn:Hp.
    simpl in Href.
    assert (Hq : forall q : option (list PatchEntry),
               match q with Some _ | None => update (set_patchQueue None) end
               = update (set_patchQueue None)) by (by intros []).
    destruct (_patchQueue st); simpl;
      (destruct (strict_eq (_data st) newValue) eqn:Hse; simpl;
       [ do 2 (split; [try done|]); [|done];
         apply truthy_ref;
         (apply strict_eq_ref with (b := newValue); [done|done])
       | match goal with
         | |- context [record._applyChange newValue (?s, ?e0)] =>
             destruct (applyChange_effect newValue s e0 Hd) as (res & cs & ->)
         end;
         destruct res; simpl; rewrite ?Hr; simpl;
         (split; [done|split; [by apply truthy_ref|done]]) ]).
  - intros st e message j snapshot next1 Hr Hd Hq Ht Ha Hj Hre.
    rewrite onMessage_update_unready by done.
    unfold record._onRead, bind, this, gets, update, modify, parse, alloc. simpl.
    rewrite Hj. simpl. rewrite Hre. simpl. rewrite Hq, Ht. simpl.
    match goal with
    | |- context [record._applyChange (_data st) (?s, ?e0)] =>
        pose proof (applyChange_ok (_data st) s e0 Hd) as Hok;
        destruct (applyChange_effect (_data st) s e0 Hd) as (res & cs & Heq)
    end.
    rewrite Heq in Hok |- *. simpl in Hok.
    destruct res as [[]|err].
    + destruct (strict_eq (_data st) snapshot) eqn:Hse; simpl.
      * unfold ret.
        match goal with
        | |- context [emit "ready" VUndef (?s, ?e0)] =>
            destruct (emit_effect "ready" VUndef s e0) as (cbs & ps & cs' & ->)
        end.
        simpl. do 3 (split; [done|]). by intros _.
      * match goal with
        | |- context [emit "ready" VUndef (?s, ?e0)] =>
            destruct (emit_effect "ready" VUndef s e0) as (cbs & ps & cs' & ->)
        end.
        simpl. do 3 (split; [done|]). by intros _.
    + simpl. do 3 (split; [done|]). intros Hn. by specialize (Hok Hn Hn).
Qed.

(** *** Outbound versions *)





Lemma strictly_increasing_snoc l b :
  strictly_increasing l ->
  Forall (fun x => exists a, x = Some a /\ (a < b)%Z) l ->
  strictly_increasing (l ++ [Some b]).
Proof.
  intros Hl Hb i j x y Hij Hi Hj.
  destruct (decide (j < length l)%nat) as [Hjl|Hjl].
  - rewrite lookup_app_l in Hi, Hj by lia. eauto.
  - assert (Hil : (i < length l)%nat).
    { apply lookup_lt_Some in Hj. rewrite length_app in Hj. simpl in Hj. lia. }
    rewrite lookup_app_l in Hi by done.
    rewrite lookup_app_r in Hj by lia.
    destruct (j - length l)%nat eqn:Hk; simpl in Hj; [|by destruct n].
    injection Hj as <-.
    rewrite Forall_forall in Hb.
    destruct (Hb x) as (a & -> & Ha); [by eapply list_elem_of_lookup_2|].
    by exists a, b.
Qed.























(** *** Destroyed records *)

Lemma destroy_sets_isDestroyed s : isDestroyed (fst (snd (record.destroy s))) = true.
Proof.
  destruct s as [st e].
  unfold record.destroy, bind, this, gets, update, update_shared, modify, sendMsg. simpl.
  by destruct (isSubscribed st).
Qed.

Lemma perform_destroyed o s :
  isDestroyed (fst s) = true -> isDestroyed (fst (snd (perform o s))) = true.
Proof.
  destruct s as [st e]. simpl. intros Hd.
  destruct o; simpl;
    unfold forget, record.get, record.set, record.subscribe, record.unsubscribe,
      record.whenReady, record.discard, record._onMessage,
      record._handleConnectionStateChange, bind, this, shared, gets, invariant;
    simpl; rewrite ?Hd; simpl; try done.
  - by destruct silent.
  - apply destroy_sets_isDestroyed.
Qed.

Lemma run_destroyed ops : forall s,
  isDestroyed (fst s) = true -> isDestroyed (fst (run ops s)) = true.
Proof.
  induction ops as [|o ops IH]; intros s Hd; [done|].
  simpl. apply IH. by apply perform_destroyed.
Qed.

(** C4, as amended.  Once [destroy] has run on a record, and whatever is
    done to the record afterwards, [get], [set], [subscribe],
    [unsubscribe], [whenReady] and [discard()] fail with the invariant
    violation and change nothing; [discard(true)], the silent form, returns
    and changes nothing. *)
Theorem destroyed_record_rejects_operations : forall s0 ops,
  let s := run ops (snd (record.destroy s0)) in
  isDestroyed (fst s) = true /\
  (forall path, record.get path s = (Throw InvariantViolation, s)) /\
  (forall args, record.set xuid args s = (Throw InvariantViolation, s)) /\
  (forall args, record.subscribe args s = (Throw InvariantViolation, s)) /\
  (forall args, record.unsubscribe args s = (Throw InvariantViolation, s)) /\
  record.whenReady s = (Throw InvariantViolation, s) /\
  record.discard false s = (Throw InvariantViolation, s) /\
  record.discard true s = (Ok tt, s).
Proof.
  intros s0 ops s.
  assert (Hd : isDestroyed (fst s) = true).
  { apply run_destroyed, destroy_sets_isDestroyed. }
  destruct s as [st e]. simpl in Hd.
  unfold record.get, record.set, record.subscribe, record.unsubscribe,
    record.whenReady, record.discard, bind, this, shared, gets, invariant.
  simpl. rewrite Hd. simpl. by repeat split.
Qed.

(** A [whenReady] promise that is pending when [destroy] runs stays
    pending: [destroy] takes all listeners off the record before it emits
    ['destroy']. *)
Lemma pending_whenReady_survives_destroy st e :
  isDestroyed st = false -> isReady st = false ->
  let '(r, s1) := record.whenReady (st, e) in
  r = Ok (length (promises e)) /\
  promises (snd (snd (record.destroy s1))) !! length (promises e) = Some Pending.
Proof.
  intros Hd Hr.
  unfold record.whenReady, bind, this, shared, gets, invariant, update, update_shared, modify.
  simpl. rewrite Hd. simpl. rewrite Hr. simpl. split; [done|].
  unfold record.destroy, bind, this, gets, update, update_shared, modify, sendMsg. simpl.
  destruct (isSubscribed st); simpl;
    by rewrite lookup_app_r, Nat.sub_diag by done.
Qed.

End record_properties.

(** *** Worked scenarios and witnesses for the records *)

Example fresh_record_created :
  record.create "r" empty_env = (Ok (fst fresh_record), snd fresh_record).
Proof. reflexivity. Qed.

#[local] Abbreviation sample_run :=
  (record.run sample_xuid sample_parse sample_convertTyped).
#[local] Abbreviation sample_onMessage :=
  (record._onMessage sample_xuid sample_parse sample_convertTyped).


(** C1 as it is worded fails beyond [2^53]: the local version
    [9007199254740993-a] is ahead of [9007199254740992-b] in the version
    order, but both counters are the same number to [parseInt], the counter
    strings differ, and the record adopts the older version. *)
Lemma applyUpdate_rounded_counters_counterexample :
  let s := sample_run [record.op_message (update_message "9007199254740993-a" "{}")]
             fresh_record in
  let s' := snd (sample_onMessage (update_message "9007199254740992-b" "[5]") s) in
  record.isReady (fst s) = true /\
  record.version (fst s) = Some (version_token 9007199254740993 "a") /\
  update_message "9007199254740992-b" "[5]"
  = update_message (version_token 9007199254740992 "b") "[5]" /\
  version_le (9007199254740992%N, "b") (9007199254740993%N, "a") /\
  parseInt "9007199254740993" = parseInt "9007199254740992" /\
  record.version (fst s') = Some "9007199254740992-b" /\
  record._data (fst s') = VArr 2 [VNum 5] /\
  sample_onMessage (update_message "9007199254740992-b" "[5]") s <> (Ok tt, s).
Proof.
  intros s s'.
  split; [reflexivity|]. split; [reflexivity|]. split; [reflexivity|].
  split; [left; simpl; lia|]. split; [reflexivity|].
  split; [reflexivity|]. split; [reflexivity|].
  intros H. apply (f_equal (fun x => record.version (fst (snd x)))) in H.
  vm_compute in H. discriminate.
Qed.

(** Seed case 2: two writes before the record is ready, then the snapshot
    [{}] with version [1-X]; a third write once the record is ready. *)
Example seed_case_2 :
  let s := sample_run
             [record.op_set [VStr "a.b"; VNum 1];
              record.op_set [VStr "a.c"; VNum 2];
              record.op_message (update_message "1-X" "{}")] fresh_record in
  erase (record._data (fst s)) = VObj 0 [("a", VObj 0 [("b", VNum 1); ("c", VNum 2)])] /\
  record.isReady (fst s) = true /\
  record._patchQueue (fst s) = None /\
  record.version (fst s) = Some "2-id0" /\
  record.update_versions "r" (record.outbox (snd s)) = ["2-id0"].
Proof. vm_compute. by repeat split. Qed.


(** C2 as it is worded fails at [2^53]: there [start + 1] is [start], and
    after the snapshot [9007199254740992-X] two writes send two [UPDATE]s
    with the same counter. *)
Lemma outbound_versions_stall_counterexample :
  let ops := [record.op_message (update_message "9007199254740992-X" "{}");
              record.op_set [VStr "a"; VNum 1];
              record.op_set [VStr "a"; VNum 2]] in
  let sent := record.update_versions "r" (record.outbox (snd (sample_run ops fresh_record))) in
  sent = ["9007199254740992-id0"; "9007199254740992-id1"] /\
  map record.counter sent = [Some 9007199254740992%Z; Some 9007199254740992%Z] /\
  ~ record.strictly_increasing (map record.counter sent) /\
  record.next_version sample_xuid (Some (version_token 9007199254740992 "X")) empty_env
  <> version_token (9007199254740992 + 1) (sample_xuid 0).
Proof.
  intros ops sent.
  assert (Hsent : sent = ["9007199254740992-id0"; "9007199254740992-id1"])
    by (vm_compute; reflexivity).
  split; [exact Hsent|]. rewrite Hsent.
  assert (Hc : map record.counter ["9007199254740992-id0"; "9007199254740992-id1"]
               = [Some 9007199254740992%Z; Some 9007199254740992%Z])
    by (vm_compute; reflexivity).
  split; [exact Hc|]. rewrite Hc. split.
  - intros H. destruct (H 0%nat 1%nat _ _ ltac:(lia) eq_refl eq_refl) as (a & b & Ha & Hb & Hlt).
    injection Ha as <-. injection Hb as <-. lia.
  - vm_compute. discriminate.
Qed.

Example outbound_versions_of_the_witness :
  let ops := [record.op_set [VStr "a.b"; VNum 1];
              record.op_message (update_message "1-X" "{}");
              record.op_set [VStr "a.b"; VNum 7];
              record.op_message (update_message "9-Y" "{}");
              record.op_set [VStr "a.b"; VNum 8]] in
  record.update_versions "r" (record.outbox (snd (sample_run ops fresh_record)))
  = ["2-id0"; "3-id1"; "10-id2"].
Proof. vm_compute. reflexivity. Qed.

Lemma onRead_replays_patch_queue_witness :
  let s := sample_run [record.op_set [VStr "a.b"; VNum 1];
                       record.op_set [VStr "a.c"; VNum 2]] fresh_record in
  let replayed := VObj 8 [("a", VObj 9 [("b", VNum 1); ("c", VNum 2)])] in
  let '(res, (st', e')) := sample_onMessage (update_message "1-X" "{}") s in
  record._data st' = replayed /\ record._patchQueue st' = None /\
  record.isReady st' = true /\
  (record.readable (fst s) replayed -> record.readable (fst s) (record._data (fst s)) ->
     res = Ok tt /\
     (if strict_eq replayed (VObj 5 []) then
        record.version st' = Some "1-X" /\ record.outbox e' = record.outbox (snd s)
      else
        let version' := record.next_version sample_xuid (Some "1-X") (snd s) in
        record.version st' = Some version' /\
        record.outbox e' = record.outbox (snd s) ++
          [{| sent_topic := RECORD; sent_action := UPDATE;
              sent_data := [VStr "r"; VStr version'; replayed; VStr "1-X"] |}])).
Proof.
  intros s replayed.
  refine (proj1 (proj2 (onRead_replays_patch_queue sample_xuid sample_parse
                          sample_convertTyped))
            (fst s) (snd s) (update_message "1-X" "{}")
            [{| record.entry_path := "a.b"; record.entry_data := VNum 1 |};
             {| record.entry_path := "a.c"; record.entry_data := VNum 2 |}]
            (JObj []) (VObj 5 []) 6%nat replayed 10%nat _ _ _ _ _ _ _);
    reflexivity.
Defined.

(** C3 as the specification words it fails when a queued patch cannot be
    applied to the snapshot: [set('a', 1)] before the record is ready, then
    the snapshot [5].  [jsonPath.set(5, 'a', 1)] throws, the record is not
    ready and the queue is still there. *)
Lemma onRead_replay_failure_counterexample :
  let s := sample_run [record.op_set [VStr "a"; VNum 1]] fresh_record in
  let '(res, (st', _)) := sample_onMessage (update_message "1-X" "5") s in
  record.isReady (fst s) = false /\
  record._patchQueue (fst s)
  = Some [{| record.entry_path := "a"; record.entry_data := VNum 1 |}] /\
  res = Throw InvalidDataOrPath /\
  record.isReady st' = false /\
  record._patchQueue st'
  = Some [{| record.entry_path := "a"; record.entry_data := VNum 1 |}].
Proof. vm_compute. by repeat split. Qed.

Lemma root_set_before_ready_keeps_local_data_witness :
  let local := VObj 100 [("x", VNum 1)] in
  let s := snd (record.set sample_xuid [local] fresh_record) in
  (record._patchQueue (fst s) = None /\ truthy (record._data (fst s)) = true /\
   record.isReady (fst s) = false /\ record.isDestroyed (fst s) = false) /\
  let '(res, (st', e')) := sample_onMessage (update_message "1-X" "{}") s in
  record._data st' = record._data (fst s) /\ record._patchQueue st' = None /\
  record.isReady st' = true /\
  (record.readable (fst s) (record._data (fst s)) ->
     res = Ok tt /\
     (if strict_eq (record._data (fst s)) (VObj 1 []) then
        record.version st' = Some "1-X" /\ record.outbox e' = record.outbox (snd s)
      else
        let version' := record.next_version sample_xuid (Some "1-X") (snd s) in
        record.version st' = Some version' /\
        record.outbox e' = record.outbox (snd s) ++
          [{| sent_topic := RECORD; sent_action := UPDATE;
              sent_data := [VStr "r"; VStr version'; record._data (fst s); VStr "1-X"] |}])).
Proof.
  intros local s. split.
  - refine (proj1 (root_set_before_ready_keeps_local_data sample_xuid sample_parse
                     sample_convertTyped) (fst fresh_record) (snd fresh_record) local _ _ _);
      [reflexivity|reflexivity|by eexists].
  - refine (proj2 (root_set_before_ready_keeps_local_data sample_xuid sample_parse
                     sample_convertTyped) (fst s) (snd s) (update_message "1-X" "{}")
              (JObj []) (VObj 1 []) 2%nat _ _ _ _ _ _ _); reflexivity.
Defined.

(** C10 as it is worded fails for [set(null)], which the argument check lets
    through: the local data are [null], the record takes the server's
    snapshot, and no [UPDATE] follows although [null !== snapshot]. *)
Lemma root_set_null_counterexample :
  let s1 := snd (record.set sample_xuid [VNull] fresh_record) in
  let s2 := snd (sample_onMessage (update_message "1-X" "{}") s1) in
  record._patchQueue (fst s1) = None /\
  record._data (fst s1) = VNull /\
  record._data (fst s2) = VObj 1 [] /\
  strict_eq VNull (VObj 1 []) = false /\
  record.isReady (fst s2) = true /\
  record.update_versions "r" (record.outbox (snd s2)) = [].
Proof. vm_compute. by repeat split. Qed.

(** C4 as it is worded fails for the silent form of [discard], which does not
    fail on a destroyed record. *)
Lemma destroyed_discard_silent_counterexample :
  let s := snd (record.destroy fresh_record) in
  record.isDestroyed (fst s) = true /\
  record.discard true s = (Ok tt, s) /\
  record.discard true s <> (Throw InvariantViolation, s).
Proof. vm_compute. by repeat split. Qed.

(** A promise of [whenReady] made before [destroy] is still pending after
    it. *)
Example pending_promise_after_destroy :
  let '(p, s1) := record.whenReady fresh_record in
  p = Ok 0%nat /\
  record.promises (snd s1) = [record.Pending] /\
  record.promises (snd (snd (record.destroy s1))) = [record.Pending].
Proof. vm_compute. by repeat split. Qed.

(** *** The registry and the reference counts *)

Section handler_properties.
Variable xuid : nat -> string.
Variable JSON_parse : string -> option json.
Variable convertTyped : option string -> value.

Import recordHandler.

#[local] Abbreviation getRecord := (recordHandler.getRecord).
#[local] Abbreviation exec := (recordHandler.exec xuid JSON_parse convertTyped).
#[local] Abbreviation run := (recordHandler.run xuid JSON_parse convertTyped).
#[local] Abbreviation disciplined :=
  (recordHandler.disciplined xuid JSON_parse convertTyped).
#[local] Abbreviation _onMessage := (record._onMessage xuid JSON_parse convertTyped).

(** A message never changes the reference count. *)
Lemma onMessage_usages message st e :
  record.usages (fst (snd (_onMessage message (st, e)))) = record.usages st.
Proof.
  unfold record._onMessage, bind, record.this, gets, record.invariant. simpl.
  destruct (record.isDestroyed st) eqn:Hd; simpl; [done|].
  case_bool_decide; simpl.
  - destruct (record.isReady st) eqn:Hr; simpl.
    + unfold record._applyUpdate, bind, record.this, gets. simpl.
      destruct (utils.compareVersions _ _); [done|].
      unfold record.update, modify, record.parse, record.alloc. simpl.
      destruct (data message !! 2%nat ≫= JSON_parse) as [j|]; simpl; [|done].
      destruct (reify j _) as [parsed next1]. simpl.
      unfold jsonPath.set, bind, lift_result, patchM. simpl.
      destruct (jsonPath.patch _ parsed next1) as [merged next2]. simpl.
      match goal with
      | |- context [record._applyChange ?d (?s, ?e0)] =>
          destruct (applyChange_effect d s e0 Hd) as (res & cs & ->)
      end. done.
    + unfold record._onRead, bind, record.this, gets, record.update, modify,
        record.parse, record.alloc. simpl.
      destruct (data message !! 2%nat ≫= JSON_parse) as [j|]; simpl; [|done].
      destruct (reify j _) as [snapshot next1]. simpl.
      assert (Htail : forall newValue st0 e0,
                 record.usages st0 = record.usages st -> record.isDestroyed st0 = false ->
                 record.usages
                   (fst (snd ((record._applyChange newValue ;;;
                          (if negb (strict_eq newValue snapshot)
                           then record._dispatchUpdate xuid else ret tt) ;;;
                          record.emit "ready" VUndef)%js
                         (record.set_version (data message !! 1%nat)
                            (record.set_isReady true st0), e0))))
                 = record.usages st).
      { intros newValue st0 e0 Hu Hd0. unfold bind.
        match goal with
        | |- context [record._applyChange ?d (?s, ?e1)] =>
            destruct (applyChange_effect d s e1 Hd0) as (res & cs & ->)
        end.
        destruct res as [[]|err]; simpl; [|done].
        destruct (negb (strict_eq newValue snapshot)).
        - rewrite dispatchUpdate_effect. cbv zeta.
          match goal with
          | |- context [record.emit ?ev ?arg (?s, ?e1)] =>
              destruct (emit_effect ev arg s e1) as (cbs & ps & cs' & ->)
          end. done.
        - unfold ret.
          match goal with
          | |- context [record.emit ?ev ?arg (?s, ?e1)] =>
              destruct (emit_effect ev arg s e1) as (cbs & ps & cs' & ->)
          end. done. }
      destruct (record._patchQueue st) as [queue|]; simpl.
      * destruct (record.replay queue snapshot next1) as [[newValue|err] next2]; simpl;
          [|done].
        by apply (Htail newValue (record.set_patchQueue None st)).
      * by apply (Htail _ st).
  - case_bool_decide; simpl; [|done].
    unfold record.update, modify. simpl.
    match goal with
    | |- context [record.emit ?ev ?arg (?s, ?e1)] =>
        destruct (emit_effect ev arg s e1) as (cbs & ps & cs' & ->)
    end. done.
Qed.

(** A method that leaves the count alone leaves all counts alone. *)
Lemma on_record_usages {A} i (m : record.method A) h :
  (forall r e, record.usages (fst (snd (m (r, e)))) = record.usages r) ->
  map record.usages (records (snd (on_record i m h))) = map record.usages (records h).
Proof.
  intros Hm. unfold on_record.
  destruct (records h !! i) as [r|] eqn:Hi; [|done].
  specialize (Hm r (shared h)).
  destruct (m (r, shared h)) as [res [r' e']]. simpl in *.
  rewrite list_fmap_insert, Hm.
  apply list_insert_id. by rewrite list_lookup_fmap, Hi.
Qed.

Lemma prune_loop_usages n : forall i j h,
  map record.usages (records (snd (prune_loop n i j h))) = map record.usages (records h).
Proof.
  induction n as [|n IH]; intros i j h; [done|].
  simpl. destruct (i <? j)%nat; [|done].
  unfold bind, gets. simpl.
  destruct (_recordsVec h !! i) as [rec|]; [|done].
  pose proof (on_record_usages rec (gets fst) h (fun r e => eq_refl)) as H0.
  unfold gets in H0.
  destruct (on_record rec _ h) as [[r|err] h0]; simpl in *; [|done].
  destruct ((record.usages r =? 0)%Z && record.isReady r).
  - unfold modify. simpl.
    match goal with
    | |- context [on_record rec (record.undefined_method ?nm) ?h1] =>
        pose proof (on_record_usages rec (record.undefined_method nm) h1
                      (fun r e => eq_refl)) as H1;
        destruct (on_record rec (record.undefined_method nm) h1) as [[[]|err] h2]
    end; simpl in *; [|congruence].
    rewrite IH. simpl. congruence.
  - rewrite IH. done.
Qed.

Lemma prune_usages h :
  map record.usages (records (snd (_prune h))) = map record.usages (records h).
Proof.
  unfold _prune, bind, gets, modify. simpl.
  pose proof (prune_loop_usages (length (_recordsVec h)) 0 (length (_recordsVec h)) h) as H.
  destruct (prune_loop _ _ _ h) as [[i|err] h']; simpl in *; done.
Qed.

Lemma handle_usages message h :
  map record.usages (records (snd (_handle xuid JSON_parse convertTyped message h)))
  = map record.usages (records h).
Proof.
  unfold _handle.
  destruct (_ && _); [done|].
  unfold bind, gets. simpl.
  destruct (_ ≫= _) as [rec|]; [|done].
  apply on_record_usages. intros r e. apply onMessage_usages.
Qed.

Lemma count_occ_remove_first rec held i :
  rec ∈ held ->
  count_occ Nat.eq_dec held i
  = (count_occ Nat.eq_dec (record.remove_first rec held) i
     + if decide (i = rec) then 1 else 0)%nat.
Proof.
  induction held as [|x held IH]; intros Hin; [by apply elem_of_nil in Hin|].
  simpl. destruct (Nat.eqb_spec x rec) as [->|Hne].
  - destruct (Nat.eq_dec rec i) as [->|Hi].
    + rewrite decide_True by done. lia.
    + rewrite decide_False by done. lia.
  - apply elem_of_cons in Hin as [->|Hin]; [done|].
    specialize (IH Hin). simpl.
    destruct (Nat.eq_dec x i) as [->|Hi]; lia.
Qed.

Lemma remove_first_subset rec held i :
  i ∈ record.remove_first rec held -> i ∈ held.
Proof.
  induction held as [|x held IH]; simpl; [done|].
  destruct (Nat.eqb x rec).
  - intros. by right.
  - intros [->|H]%elem_of_cons; [by left|right; auto].
Qed.

Lemma count_occ_not_in (held : list nat) i :
  i ∉ held -> count_occ Nat.eq_dec held i = 0%nat.
Proof.
  intros H. apply count_occ_not_In. by rewrite <- list_elem_of_In.
Qed.

Lemma exec_accounted o h held :
  match o with op_discard rec _ => rec ∈ held | _ => True end ->
  accounted h held ->
  accounted (exec o h) (held_after o h held).
Proof.
  intros Ho [Hheld Hcount]. destruct o as [n|rec silent| |message]; simpl.
  - (* getRecord *)
    unfold recordHandler.getRecord, bind, gets. simpl.
    destruct (_recordsMap h !! n) as [i|] eqn:Hfound; unfold ret.
    + unfold on_record. destruct (records h !! i) as [r|] eqn:Hi; [|done].
      unfold record.update, modify. simpl. split; simpl.
      * intros j [->|Hj]%elem_of_cons.
        -- rewrite length_map, length_insert. by eapply lookup_lt_Some.
        -- rewrite length_map, length_insert, <- (length_map record.usages). auto.
      * intros j u. rewrite list_fmap_insert. simpl.
        destruct (decide (i = j)) as [->|Hne].
        -- rewrite list_lookup_insert_eq
             by (rewrite length_map; by eapply lookup_lt_Some).
           intros [= <-]. destruct (Nat.eq_dec j j); [|done].
           specialize (Hcount j (record.usages r)).
           rewrite list_lookup_fmap, Hi in Hcount. specialize (Hcount eq_refl). lia.
        -- rewrite list_lookup_insert_ne by done. intros Hu.
           destruct (Nat.eq_dec i j); [done|]. auto.
    + unfold record.create. destruct (String.eqb n ""); [done|]. simpl.
      unfold on_record. simpl.
      rewrite lookup_app_r, Nat.sub_diag by done. simpl.
      unfold record.update, modify. simpl.
      assert (Hfresh : count_occ Nat.eq_dec held (length (records h)) = 0%nat).
      { apply count_occ_not_in. intros Hin. apply Hheld in Hin.
        rewrite length_map in Hin. lia. }
      split; simpl.
      * intros j [->|Hj]%elem_of_cons;
          rewrite length_map, length_insert, length_app; simpl; [lia|].
        apply Hheld in Hj. rewrite length_map in Hj. lia.
      * intros j u. rewrite list_fmap_insert, fmap_app. simpl.
        destruct (decide (length (records h) = j)) as [<-|Hne].
        -- rewrite list_lookup_insert_eq by (rewrite length_app, length_map; simpl; lia).
           intros [= <-]. destruct (Nat.eq_dec _ _); [|done]. rewrite Hfresh. lia.
        -- rewrite list_lookup_insert_ne by done. intros Hu.
           destruct (Nat.eq_dec _ _); [done|].
           apply Hcount.
           destruct (decide (j < length (records h))%nat).
           ++ by rewrite lookup_app_l in Hu by (by rewrite length_map).
           ++ rewrite lookup_app_r in Hu by (rewrite length_map; lia).
              rewrite length_map in Hu.
              destruct (j - length (records h))%nat eqn:Hk; [lia|by destruct n2].
  - (* discard *)
    pose proof (Hheld rec Ho) as Hlt. rewrite length_map in Hlt.
    destruct (lookup_lt_is_Some_2 _ _ Hlt) as [r Hr].
    unfold on_record. rewrite Hr.
    assert (Hcases : exists r', snd (record.discard silent (r, shared h)) = (r', shared h) /\
               (record.usages r - 1 <= record.usages r')%Z).
    { unfold record.discard, bind, record.this, gets, record.invariant, record.update, modify.
      simpl. destruct (record.isDestroyed r), silent; simpl; eexists; split; try done; lia. }
    destruct Hcases as (r' & Hsnd & Hu).
    destruct (record.discard silent (r, shared h)) as [res [r2 e2]].
    simpl in Hsnd. injection Hsnd as -> ->. simpl. split; simpl.
    + intros j Hj%remove_first_subset. rewrite length_map, length_insert.
      apply Hheld in Hj. by rewrite length_map in Hj.
    + intros j u. rewrite list_fmap_insert.
      destruct (decide (rec = j)) as [->|Hne].
      * rewrite list_lookup_insert_eq by (by rewrite length_map).
        intros [= <-]. specialize (Hcount j (record.usages r)).
        rewrite list_lookup_fmap, Hr in Hcount. specialize (Hcount eq_refl).
        rewrite (count_occ_remove_first j held j Ho) in Hcount.
        rewrite decide_True in Hcount by done. lia.
      * rewrite list_lookup_insert_ne by done. intros Hu'.
        specialize (Hcount j u Hu').
        rewrite (count_occ_remove_first rec held j Ho) in Hcount.
        rewrite decide_False in Hcount by done. lia.
  - (* the pruner *)
    unfold accounted. by rewrite prune_usages.
  - (* a message *)
    unfold accounted. by rewrite handle_usages.
Qed.

(** C8, as amended.  Take a handler from its creation through any sequence
    of [getRecord] calls, [discard] calls, pruner runs and messages in which
    every [discard] releases a handle that was acquired and not yet
    released.  Then the reference count of every record is at least the
    number of handles held on it, and so it is never negative. *)
Theorem usages_nonnegative_when_disciplined : forall ops e0 i r,
  disciplined ops (recordHandler.create e0) [] ->
  records (run ops (recordHandler.create e0)) !! i = Some r ->
  (0 <= record.usages r)%Z.
Proof.
  intros ops e0 i r Hd Hr.
  assert (Hgen : forall ops h held,
             disciplined ops h held -> accounted h held ->
             exists held', accounted (run ops h) held').
  { clear. induction ops as [|o ops IH]; intros h held Hd Ha; [by exists held|].
    destruct Hd as [Ho Hd]. simpl. eapply IH; [exact Hd|].
    by apply exec_accounted. }
  destruct (Hgen ops (recordHandler.create e0) [] Hd) as [held' [_ Hc]].
  { split; [by intros j Hj%elem_of_nil|]. intros j u. done. }
  specialize (Hc i (record.usages r)). rewrite list_lookup_fmap, Hr in Hc.
  specialize (Hc eq_refl). lia.
Qed.

End handler_properties.

Lemma usages_nonnegative_when_disciplined_witness :
  let ops := [recordHandler.op_getRecord "r";
              recordHandler.op_message (update_message "1-X" "{}");
              recordHandler.op_getRecord "r";
              recordHandler.op_discard 0 false;
              recordHandler.op_discard 0 false;
              recordHandler.op_prune;
              recordHandler.op_getRecord "r";
              recordHandler.op_discard 1 false] in
  let h := recordHandler.run sample_xuid sample_parse sample_convertTyped ops
             (recordHandler.create empty_env) in
  map record.usages (recordHandler.records h) = [0; 0] /\
  map record.isDestroyed (recordHandler.records h) = [false; false] /\
  forall i r, recordHandler.records h !! i = Some r -> (0 <= record.usages r)%Z.
Proof.
  intros ops h. split; [by vm_compute|]. split; [by vm_compute|].
  intros i r Hr.
  refine (usages_nonnegative_when_disciplined sample_xuid sample_parse sample_convertTyped
            ops empty_env i r _ Hr).
  vm_compute. repeat split; apply list_elem_of_In; simpl; tauto.
Defined.

(** C8 as it is worded fails: nothing stops a second [discard] of a handle
    acquired once, and the count goes below zero. *)
Lemma usages_negative_counterexample :
  let ops := [recordHandler.op_getRecord "r";
              recordHandler.op_discard 0 false;
              recordHandler.op_discard 0 false] in
  map record.usages
    (recordHandler.records
       (recordHandler.run sample_xuid sample_parse sample_convertTyped ops
          (recordHandler.create empty_env)))
  = [-1].
Proof. by vm_compute. Qed.

(** *** The heartbeat *)

(** C9, as amended.  In the connection that pings ([Connection]) the
    tolerance is three heartbeat intervals: a tick on an open endpoint past
    the tolerance clears the timer, closes the endpoint and reports
    "heartbeat not received ..." as a connection error; any other tick
    submits [CONNECTION/PING].  An inbound [PING] sets the last heartbeat and
    is answered with [PONG]; an inbound [PONG] sets the last heartbeat.  In
    the older connection.js ([ConnectionLegacy]) the tolerance is two
    intervals and a tick past it does the same; a tick within it does
    nothing, an inbound [PING] is handled the same way and an inbound [PONG]
    is ignored. *)
Theorem heartbeat_tick_and_replies : forall (c : connection_state.t) now message,
  connection_state._endpoint c = WS_OPEN ->
  let elapsed := now - default 0 (connection_state._lastHeartBeat c) in
  let expired tolerance :=
    Connection.with_effect
      (client_error CONNECTION EVENT_CONNECTION_ERROR
         (Some (Connection.heartbeat_message tolerance)))
      (Connection.close_endpoint (Connection.with_effect clear_interval c)) in
  let pong :=
    Connection.with_effect (endpoint_send [Connection.getMsg CONNECTION PONG []])
      (Connection.set_lastHeartBeat (Some now) c) in
  (Connection.heartBeatTolerance c = connection_state.heartbeatInterval c * 3 /\
   (Connection.heartBeatTolerance c < elapsed ->
      Connection._checkHeartBeat now c = expired (Connection.heartBeatTolerance c)) /\
   (elapsed <= Connection.heartBeatTolerance c ->
      Connection._checkHeartBeat now c
      = Connection.with_effect (endpoint_send [Connection.getMsg CONNECTION PING []]) c) /\
   (action message = PING -> Connection._handleConnectionResponse now message c = pong) /\
   (action message = PONG ->
      Connection._handleConnectionResponse now message c
      = Connection.set_lastHeartBeat (Some now) c)) /\
  (ConnectionLegacy.heartBeatTolerance c = connection_state.heartbeatInterval c * 2 /\
   (ConnectionLegacy.heartBeatTolerance c < elapsed ->
      ConnectionLegacy._checkHeartBeat now c = expired (ConnectionLegacy.heartBeatTolerance c)) /\
   (elapsed <= ConnectionLegacy.heartBeatTolerance c ->
      ConnectionLegacy._checkHeartBeat now c = c) /\
   (action message = PING -> ConnectionLegacy._handleConnectionResponse now message c = pong) /\
   (action message = PONG -> ConnectionLegacy._handleConnectionResponse now message c = c)).
Proof.
  intros c now message Hopen elapsed expired pong.
  split; (split; [reflexivity|]); repeat split.
  - intros H. unfold Connection._checkHeartBeat. fold elapsed.
    by rewrite (proj2 (Z.ltb_lt _ _) H).
  - intros H. unfold Connection._checkHeartBeat, Connection._submit. fold elapsed.
    rewrite (proj2 (Z.ltb_ge _ _) H). by rewrite Hopen.
  - intros H. unfold Connection._handleConnectionResponse, Connection._submit.
    rewrite H. simpl. by rewrite Hopen.
  - intros H. unfold Connection._handleConnectionResponse. by rewrite H.
  - intros H. unfold ConnectionLegacy._checkHeartBeat. fold elapsed.
    by rewrite (proj2 (Z.ltb_lt _ _) H).
  - intros H. unfold ConnectionLegacy._checkHeartBeat. fold elapsed.
    by rewrite (proj2 (Z.ltb_ge _ _) H).
  - intros H. unfold ConnectionLegacy._handleConnectionResponse, ConnectionLegacy._submit.
    rewrite H. simpl. by rewrite Hopen.
  - intros H. unfold ConnectionLegacy._handleConnectionResponse. by rewrite H.
Qed.

Lemma heartbeat_tick_and_replies_witness :
  connection_state.effects (Connection._checkHeartBeat 90001 sample_connection)
  = [clear_interval; endpoint_close;
     client_error CONNECTION EVENT_CONNECTION_ERROR
       (Some "heartbeat not received in the last 90000 milliseconds")] /\
  connection_state.effects (Connection._checkHeartBeat 90000 sample_connection)
  = [endpoint_send [Connection.getMsg CONNECTION PING []]] /\
  Connection._handleConnectionResponse 90001 (connection_message PONG) sample_connection
  = Connection.set_lastHeartBeat (Some 90001) sample_connection.
Proof.
  pose proof (heartbeat_tick_and_replies sample_connection 90001 (connection_message PONG)
                eq_refl) as [(_ & Hexpired & _ & _ & Hpong) _].
  pose proof (heartbeat_tick_and_replies sample_connection 90000 (connection_message PONG)
                eq_refl) as [(_ & _ & Hping & _) _].
  split; [|split].
  - rewrite Hexpired; [reflexivity|]. vm_compute. reflexivity.
  - rewrite Hping; [reflexivity|]. vm_compute. discriminate.
  - by apply Hpong.
Defined.

(** C9 as it is worded fails on the older connection.js: a tick within the
    tolerance sends no [PING], and an inbound [PONG] leaves the last
    heartbeat as it was. *)
Lemma legacy_heartbeat_counterexample :
  connection_state.effects (ConnectionLegacy._checkHeartBeat 30000 sample_connection) = [] /\
  connection_state._lastHeartBeat
    (ConnectionLegacy._handleConnectionResponse 30000 (connection_message PONG)
       sample_connection)
  = Some 0.
Proof. by vm_compute. Qed.

(* ====================================================================== *)
(** * Further properties of the code *)
(* ====================================================================== *)

(** ** utils.js: [splitRev] and [compareVersions] *)

Lemma indexOf_range s c :
  utils.indexOf s c = -1 \/ 0 <= utils.indexOf s c < utils.str_length s.
Proof.
  unfold utils.str_length.
  induction s as [|x s IH]; simpl; [by left|].
  destruct (Ascii.eqb x c); [right; lia|].
  destruct (Z.ltb_spec (utils.indexOf s c) 0); [by left|right; lia].
Qed.

Lemma indexOf_append_absent a c rest :
  utils.indexOf a c = -1 ->
  utils.indexOf (a +:+ String c rest) c = Z.of_nat (String.length a).
Proof.
  induction a as [|x a IH]; simpl; intros H.
  - by rewrite Ascii.eqb_refl.
  - destruct (Ascii.eqb x c); [done|].
    destruct (Z.ltb_spec (utils.indexOf a c) 0) as [Hlt|Hge].
    + destruct (indexOf_range a c) as [Hi|Hi]; [|lia].
      rewrite IH by done.
      destruct (Z.ltb_spec (Z.of_nat (String.length a)) 0); lia.
    + lia.
Qed.

Lemma indexOf_split s c :
  0 <= utils.indexOf s c ->
  exists a b, s = a +:+ String c b /\ utils.indexOf a c = -1.
Proof.
  induction s as [|x s IH]; simpl; [lia|].
  destruct (Ascii.eqb_spec x c) as [->|Hne].
  - intros _. by exists "", s.
  - destruct (Z.ltb_spec (utils.indexOf s c) 0) as [Hlt|Hge]; [lia|].
    intros _. destruct (IH Hge) as (a & b & -> & Ha).
    exists (String x a), b. split; [done|]. simpl.
    rewrite (proj2 (Ascii.eqb_neq _ _) Hne), Ha. done.
Qed.

(** [splitRev] cuts at the first dash. *)
Lemma splitRev_at_dash av ar :
  utils.indexOf av "-" = -1 ->
  utils.splitRev (Some (av +:+ String "-" ar)) = [av; ar].
Proof.
  intros Hav. unfold utils.splitRev.
  destruct (String.eqb_spec (av +:+ String "-" ar) "") as [He|_].
  { destruct av; discriminate. }
  rewrite indexOf_append_absent by done.
  assert (Hlen : utils.str_length (av +:+ String "-" ar)
                 = Z.of_nat (String.length av) + 1 + Z.of_nat (String.length ar)).
  { unfold utils.str_length. rewrite length_append. simpl. lia. }
  unfold utils.slice_from, utils.slice, utils.clamp_index. rewrite Hlen.
  repeat match goal with
         | |- context [(?x <? 0)%Z] =>
             destruct (Z.ltb_spec x 0); [lia|]
         end.
  rewrite !Z.min_l by lia.
  replace (Z.to_nat 0) with 0%nat by done.
  rewrite Nat.sub_0_r, Nat2Z.id, substring_prefix.
  replace (Z.to_nat (Z.of_nat (String.length av) + 1)) with (String.length (av +:+ "-")).
  2:{ rewrite length_append. simpl. lia. }
  replace (Z.to_nat (Z.of_nat (String.length av) + 1 + Z.of_nat (String.length ar))
           - String.length (av +:+ "-"))%nat with (String.length ar).
  2:{ rewrite length_append. simpl. lia. }
  replace (av +:+ String "-" ar) with ((av +:+ "-") +:+ ar).
  2:{ by rewrite append_assoc. }
  by rewrite substring_suffix.
Qed.

(** X1.  [splitRev] and joining with a dash are inverse to each other: a
    counter part without a dash and any revision part, joined, split back
    into the two; and a string that holds a dash splits at its first dash
    into two parts that join back to it. *)
Theorem splitRev_round_trip :
  (forall av ar, utils.indexOf av "-" = -1 ->
     utils.splitRev (Some (av +:+ "-" +:+ ar)) = [av; ar]) /\
  (forall s, 0 <= utils.indexOf s "-" ->
     exists av ar, utils.splitRev (Some s) = [av; ar] /\
       s = av +:+ "-" +:+ ar /\ utils.indexOf av "-" = -1).
Proof.
  split.
  - intros av ar H. by apply splitRev_at_dash.
  - intros s H. destruct (indexOf_split s "-" H) as (av & ar & -> & Hav).
    exists av, ar. by rewrite splitRev_at_dash.
Qed.

Lemma splitRev_round_trip_witness :
  utils.splitRev (Some "12-ab-c") = ["12"; "ab-c"] /\
  exists av ar, utils.splitRev (Some "7-x") = [av; ar] /\ "7-x" = av +:+ "-" +:+ ar /\
    utils.indexOf av "-" = -1.
Proof.
  split.
  - apply (proj1 splitRev_round_trip "12" "ab-c"). reflexivity.
  - apply (proj2 splitRev_round_trip "7-x"). vm_compute. discriminate.
Defined.

(** X2.  A non-empty string without a dash is not rejected: [indexOf] gives
    [-1], so the first part is the string without its last character and the
    second part is the whole string. *)
Theorem splitRev_without_dash : forall s,
  s <> "" -> utils.indexOf s "-" = -1 ->
  utils.splitRev (Some s)
  = [String.substring 0 (String.length s - 1) s; s].
Proof.
  intros s Hne Hi. unfold utils.splitRev.
  rewrite (proj2 (String.eqb_neq _ _) Hne), Hi.
  assert (Hlen : 0 < utils.str_length s).
  { unfold utils.str_length. destruct s; [done|]. simpl. lia. }
  unfold utils.slice_from, utils.slice, utils.clamp_index.
  change (-1 + 1) with 0. change (-1 <? 0) with true. change (0 <? 0) with false.
  cbv iota.
  destruct (Z.ltb_spec (utils.str_length s) 0) as [|_]; [lia|].
  rewrite Z.min_l, Z.max_l, Z.min_r by lia.
  change (Z.to_nat 0) with 0%nat. rewrite !Nat.sub_0_r.
  unfold utils.str_length. rewrite Nat2Z.id, substring_all.
  do 2 f_equal. lia.
Qed.

Lemma splitRev_without_dash_witness :
  utils.splitRev (Some "abc") = ["ab"; "abc"].
Proof. apply (splitRev_without_dash "abc"); [discriminate|reflexivity]. Defined.

Lemma string_ge_refl a : utils.string_ge a a = true.
Proof. induction a as [|x a IH]; simpl; [done|]. by rewrite N.ltb_irrefl. Qed.

Lemma number_gt_irrefl x : utils.number_gt x x = false.
Proof. destruct x; simpl; [apply Z.ltb_irrefl|done]. Qed.

Lemma splitRev_two s :
  s <> "" -> exists av ar, utils.splitRev (Some s) = [av; ar].
Proof.
  intros Hne. unfold utils.splitRev. rewrite (proj2 (String.eqb_neq _ _) Hne). eauto.
Qed.

Lemma compareVersions_same v :
  v <> "" -> utils.compareVersions (Some v) (Some v) = true.
Proof.
  intros Hne. unfold utils.compareVersions, utils.is_empty_version.
  rewrite (proj2 (String.eqb_neq _ _) Hne).
  destruct (splitRev_two v Hne) as (av & ar & ->).
  by rewrite number_gt_irrefl, String.eqb_refl, string_ge_refl.
Qed.

(** X3.  Every non-empty version is at least as recent as itself, whatever
    its form: an update that carries the version the record already has is
    one [compareVersions] tells to drop. *)
Theorem compareVersions_reflexive : forall v,
  v <> "" -> utils.compareVersions (Some v) (Some v) = true.
Proof. exact compareVersions_same. Qed.

Lemma compareVersions_reflexive_witness :
  utils.compareVersions (Some "3-abc") (Some "3-abc") = true /\
  utils.compareVersions (Some "no dash") (Some "no dash") = true.
Proof. split; apply compareVersions_reflexive; discriminate. Defined.

(** The order of code units on strings. *)
Lemma N_of_ascii_inj x y : N_of_ascii x = N_of_ascii y -> x = y.
Proof. intros H. by rewrite <- (ascii_N_embedding x), <- (ascii_N_embedding y), H. Qed.

Lemma string_compare_eq a : forall b, string_compare a b = Eq -> a = b.
Proof.
  induction a as [|x a IH]; intros [|y b]; simpl; try done.
  destruct (N.compare_spec (N_of_ascii x) (N_of_ascii y)) as [He|Hlt|Hgt]; try done.
  intros H. f_equal; [by apply N_of_ascii_inj|by apply IH].
Qed.

Lemma string_compare_antisym a : forall b,
  string_compare b a = CompOpp (string_compare a b).
Proof.
  induction a as [|x a IH]; intros [|y b]; simpl; try done.
  rewrite (N.compare_antisym (N_of_ascii x) (N_of_ascii y)).
  destruct (N_of_ascii x ?= N_of_ascii y)%N; simpl; auto.
Qed.

Lemma string_compare_trans a : forall b c,
  string_compare a b <> Gt -> string_compare b c <> Gt -> string_compare a c <> Gt.
Proof.
  induction a as [|x a IH]; intros [|y b] [|z c]; simpl; try done.
  destruct (N.compare_spec (N_of_ascii x) (N_of_ascii y)) as [He|Hlt|Hgt];
    destruct (N.compare_spec (N_of_ascii y) (N_of_ascii z)) as [He'|Hlt'|Hgt'];
    destruct (N.compare_spec (N_of_ascii x) (N_of_ascii z)) as [He''|Hlt''|Hgt''];
    try done; try lia.
  apply IH.
Qed.

Lemma number_gt_trans x y z :
  utils.number_gt x y = true -> utils.number_gt y z = true -> utils.number_gt x z = true.
Proof.
  destruct x, y, z; simpl; try done. rewrite !Z.ltb_lt. lia.
Qed.

Lemma number_gt_asym x y :
  utils.number_gt x y = true -> utils.number_gt y x = false.
Proof.
  destruct x, y; simpl; try done. rewrite Z.ltb_lt, Z.ltb_ge. lia.
Qed.

Lemma string_ge_trans a b c :
  utils.string_ge a b = true -> utils.string_ge b c = true -> utils.string_ge a c = true.
Proof.
  rewrite !string_ge_compare. intros H1 H2. by apply (string_compare_trans c b a).
Qed.

Lemma string_ge_antisym a b :
  utils.string_ge a b = true -> utils.string_ge b a = true -> a = b.
Proof.
  rewrite !string_ge_compare. intros H1 H2. apply string_compare_eq.
  rewrite (string_compare_antisym a b) in H1.
  by destruct (string_compare a b).
Qed.

Lemma compareVersions_parts a b av ar bv br :
  a <> "" -> b <> "" ->
  utils.splitRev (Some a) = [av; ar] -> utils.splitRev (Some b) = [bv; br] ->
  utils.compareVersions (Some a) (Some b)
  = utils.number_gt (parseInt av) (parseInt bv)
    || (String.eqb av bv && utils.string_ge ar br).
Proof.
  intros Ha Hb Hsa Hsb. unfold utils.compareVersions, utils.is_empty_version.
  by rewrite (proj2 (String.eqb_neq _ _) Ha), (proj2 (String.eqb_neq _ _) Hb), Hsa, Hsb.
Qed.

Lemma compareVersions_empty_left b : utils.compareVersions (Some "") b = false.
Proof. reflexivity. Qed.

(** X4.  [compareVersions] orders the versions.  On all strings the relation
    "at least as recent" is transitive; on strings with a dash two versions
    that are each at least as recent as the other are the same string; and
    of two version tokens whose counters are at most [2^53] one is at least
    as recent as the other. *)
Theorem compareVersions_order :
  let recent (a b : string) := utils.compareVersions (Some a) (Some b) = true in
  (forall a b c, recent a b -> recent b c -> recent a c) /\
  (forall a b, 0 <= utils.indexOf a "-" -> 0 <= utils.indexOf b "-" ->
     recent a b -> recent b a -> a = b) /\
  (forall ca na cb nb, (ca <= safe_limit)%N -> (cb <= safe_limit)%N ->
     recent (version_token ca na) (version_token cb nb)
     \/ recent (version_token cb nb) (version_token ca na)).
Proof.
  cbv zeta. split; [|split].
  - intros a b c Hab Hbc.
    destruct (String.eqb_spec a "") as [->|Ha]; [by rewrite compareVersions_empty_left in Hab|].
    destruct (String.eqb_spec b "") as [->|Hb]; [by rewrite compareVersions_empty_left in Hbc|].
    destruct (String.eqb_spec c "") as [->|Hc].
    { unfold utils.compareVersions, utils.is_empty_version.
      by rewrite (proj2 (String.eqb_neq _ _) Ha). }
    destruct (splitRev_two a Ha) as (av & ar & Hsa).
    destruct (splitRev_two b Hb) as (bv & br & Hsb).
    destruct (splitRev_two c Hc) as (cv & cr & Hsc).
    rewrite (compareVersions_parts a b av ar bv br) in Hab by done.
    rewrite (compareVersions_parts b c bv br cv cr) in Hbc by done.
    rewrite (compareVersions_parts a c av ar cv cr) by done.
    apply orb_true_iff in Hab as [Hab|[Hab1%String.eqb_eq Hab2]%andb_true_iff];
      apply orb_true_iff in Hbc as [Hbc|[Hbc1%String.eqb_eq Hbc2]%andb_true_iff].
    + by rewrite (number_gt_trans _ _ _ Hab Hbc).
    + subst cv. by rewrite Hab.
    + subst bv. by rewrite Hbc.
    + subst bv cv. by rewrite String.eqb_refl, (string_ge_trans _ _ _ Hab2 Hbc2), orb_true_r.
  - intros a b Hia Hib Hab Hba.
    destruct (indexOf_split a "-" Hia) as (av & ar & -> & Hav).
    destruct (indexOf_split b "-" Hib) as (bv & br & -> & Hbv).
    assert (Ha : av +:+ "-" +:+ ar <> "") by (by destruct av).
    assert (Hb : bv +:+ "-" +:+ br <> "") by (by destruct bv).
    rewrite (compareVersions_parts _ _ av ar bv br) in Hab
      by (done || by apply splitRev_at_dash).
    rewrite (compareVersions_parts _ _ bv br av ar) in Hba
      by (done || by apply splitRev_at_dash).
    apply orb_true_iff in Hab as [Hab|[Hab1%String.eqb_eq Hab2]%andb_true_iff].
    { rewrite (number_gt_asym _ _ Hab) in Hba. simpl in Hba.
      apply andb_true_iff in Hba as [->%String.eqb_eq _].
      by rewrite number_gt_irrefl in Hab. }
    subst bv. rewrite number_gt_irrefl, String.eqb_refl in Hba. simpl in Hba.
    by rewrite (string_ge_antisym _ _ Hab2 Hba).
  - intros ca na cb nb Hca Hcb. rewrite !compareVersions_tokens by done.
    unfold version_le. simpl.
    destruct (N.lt_trichotomy ca cb) as [H|[->|H]]; [right; by left| |left; by left].
    destruct (string_compare na nb) eqn:Hc.
    + right. by right.
    + right. by right.
    + left. right. split; [done|]. rewrite (string_compare_antisym na nb), Hc. done.
Qed.

Lemma compareVersions_order_witness :
  utils.compareVersions (Some "12-c") (Some "3-a") = true /\
  "5-k" = "5-k" /\
  (utils.compareVersions (Some (version_token 9007199254740992 "a"))
                         (Some (version_token 7 "b")) = true
   \/ utils.compareVersions (Some (version_token 7 "b"))
                            (Some (version_token 9007199254740992 "a")) = true).
Proof.
  pose proof compareVersions_order as (Htrans & Hanti & Htotal).
  split; [|split].
  - apply (Htrans "12-c" "3-b" "3-a"); reflexivity.
  - apply (Hanti "5-k" "5-k"); try reflexivity; by vm_compute.
  - apply Htotal; by vm_compute.
Defined.

(** Beyond [2^53] two tokens need not be ordered: the counters below are
    the same number to [parseInt] and differ as strings. *)
Example compareVersions_beyond_the_limit :
  utils.compareVersions (Some "9007199254740993-a") (Some "9007199254740992-b") = false /\
  utils.compareVersions (Some "9007199254740992-b") (Some "9007199254740993-a") = false.
Proof. split; reflexivity. Qed.

(** X5.  Two versions whose counters are the same number written in two
    ways (["01"] and ["1"], say) are not ordered at all: [parseInt] finds no
    counter greater and [===] finds the counters different, so neither
    version is at least as recent as the other. *)
Theorem compareVersions_unequal_numerals : forall av ar bv br,
  utils.indexOf av "-" = -1 -> utils.indexOf bv "-" = -1 ->
  parseInt av = parseInt bv -> av <> bv ->
  utils.compareVersions (Some (av +:+ "-" +:+ ar)) (Some (bv +:+ "-" +:+ br)) = false /\
  utils.compareVersions (Some (bv +:+ "-" +:+ br)) (Some (av +:+ "-" +:+ ar)) = false.
Proof.
  intros av ar bv br Ha Hb Hp Hne.
  assert (Hnea : forall x y, String.eqb (x +:+ String "-" y) "" = false).
  { intros x y. apply String.eqb_neq. destruct x; discriminate. }
  unfold utils.compareVersions, utils.is_empty_version.
  change (?x +:+ "-" +:+ ?y) with (x +:+ String "-" y). rewrite !Hnea.
  rewrite !splitRev_at_dash by done. rewrite Hp, number_gt_irrefl. simpl.
  rewrite (proj2 (String.eqb_neq av bv) Hne).
  rewrite (proj2 (String.eqb_neq bv av)) by congruence. done.
Qed.

Lemma compareVersions_unequal_numerals_witness :
  utils.compareVersions (Some "01-a") (Some "1-a") = false /\
  utils.compareVersions (Some "1-a") (Some "01-a") = false.
Proof.
  apply (compareVersions_unequal_numerals "01" "a" "1" "a");
    [reflexivity|reflexivity|reflexivity|discriminate].
Defined.

(** ** json-path.js: [tokenize] *)

Lemma all_chars_append p a b :
  all_chars p (a +:+ b) = all_chars p a && all_chars p b.
Proof.
  unfold all_chars. induction a as [|x a IH]; simpl; [done|].
  by rewrite IH, andb_assoc.
Qed.

Lemma append_nonempty_r a c b : a +:+ String c b <> "".
Proof. by destruct a. Qed.

Lemma match_parts_tokens s : forall cur,
  all_chars (fun c => negb (is_separator c)) cur = true ->
  Forall (fun t => is_token t = true) (match_parts s cur).
Proof.
  induction s as [|c s IH]; intros cur Hcur; simpl.
  - destruct (String.eqb_spec cur "") as [->|Hne]; [constructor|].
    constructor; [|constructor]. unfold is_token.
    by rewrite (proj2 (String.eqb_neq _ _) Hne), Hcur.
  - destruct (is_separator c) eqn:Hc.
    + destruct (String.eqb_spec cur "") as [->|Hne]; [by apply IH|].
      constructor; [|by apply IH]. unfold is_token.
      by rewrite (proj2 (String.eqb_neq _ _) Hne), Hcur.
    + apply IH. rewrite all_chars_append, Hcur. unfold all_chars. simpl.
      by rewrite Hc.
Qed.

(** X6.  Every token [tokenize] returns is a proper token: it is not empty
    and holds no dot, no bracket and no white space. *)
Theorem tokenize_gives_tokens : forall path tokens,
  tokenize path = Ok tokens -> Forall (fun t => is_token t = true) tokens.
Proof.
  intros [p|] tokens; simpl; [|by intros [= <-]].
  destruct (String.eqb p ""); [by intros [= <-]|].
  destruct (String.eqb p "undefined"); [by intros [= <-]|].
  pose proof (match_parts_tokens p "" eq_refl) as H.
  destruct (match_parts p ""); [done|]. by intros [= <-].
Qed.

Lemma tokenize_gives_tokens_witness :
  Forall (fun t => is_token t = true) ["users"; "0"; "name"].
Proof. apply (tokenize_gives_tokens (Some "users[0].name")). reflexivity. Defined.

Lemma match_parts_nonempty_cur s : forall cur, cur <> "" -> match_parts s cur <> [].
Proof.
  induction s as [|c s IH]; intros cur Hne; simpl.
  - by rewrite (proj2 (String.eqb_neq _ _) Hne).
  - destruct (is_separator c).
    + by rewrite (proj2 (String.eqb_neq _ _) Hne).
    + apply IH. apply append_nonempty_r.
Qed.

Lemma match_parts_nil s :
  match_parts s "" = [] <-> all_chars is_separator s = true.
Proof.
  unfold all_chars. induction s as [|c s IH]; simpl; [done|].
  destruct (is_separator c); simpl; [done|].
  split; [|done]. intros H. by apply match_parts_nonempty_cur in H.
Qed.

Lemma tokenize_throws path e :
  tokenize path = Throw e <->
  e = InvalidPath /\
  exists p, path = Some p /\ p <> "" /\ all_chars is_separator p = true.
Proof.
  destruct path as [p|]; simpl.
  2:{ split; [done|]. by intros (_ & p & ? & _). }
  destruct (String.eqb_spec p "") as [->|Hne].
  { split; [done|]. by intros (_ & p & [= <-] & ? & _). }
  destruct (String.eqb_spec p "undefined") as [->|Hnu].
  { split; [done|]. by intros (_ & p & [= <-] & _ & ?). }
  pose proof (match_parts_nil p) as Hnil.
  destruct (match_parts p "") as [|t ts].
  - split; [|by intros [-> _]].
    intros [= <-]. split; [done|]. exists p. repeat split; [done|]. by apply Hnil.
  - split; [done|]. intros (_ & p' & [= <-] & _ & H). by apply Hnil in H.
Qed.

(** X7.  [tokenize] fails, with "invalid path", on exactly the paths that
    are not empty and consist of separators only (dots, brackets, white
    space); on every other path it returns a token list. *)
Theorem tokenize_throws_iff : forall path e,
  tokenize path = Throw e <->
  e = InvalidPath /\
  exists p, path = Some p /\ p <> "" /\ all_chars is_separator p = true.
Proof. exact tokenize_throws. Qed.

Lemma tokenize_throws_iff_witness :
  tokenize (Some ". [ ]") = Throw InvalidPath.
Proof.
  apply (proj2 (tokenize_throws_iff (Some ". [ ]") InvalidPath)).
  split; [reflexivity|]. exists ". [ ]". by repeat split.
Defined.

Lemma match_parts_token t : forall rest cur,
  all_chars (fun c => negb (is_separator c)) t = true ->
  match_parts (t +:+ rest) cur = match_parts rest (cur +:+ t).
Proof.
  unfold all_chars. induction t as [|c t IH]; intros rest cur Ht; simpl in *.
  - by rewrite append_empty_r.
  - apply andb_true_iff in Ht as [Hc Ht]. apply negb_true_iff in Hc.
    rewrite Hc, IH by done. by rewrite append_assoc.
Qed.

Lemma match_parts_concat t ts :
  Forall (fun t => is_token t = true) (t :: ts) ->
  match_parts (String.concat "." (t :: ts)) "" = t :: ts.
Proof.
  revert t. induction ts as [|t' ts IH]; intros t Hts.
  - inversion Hts as [|? ? Ht _]; subst. unfold is_token in Ht.
    apply andb_true_iff in Ht as [Hne%negb_true_iff Ht].
    simpl String.concat.
    rewrite <- (append_empty_r t) at 1. rewrite match_parts_token by done.
    simpl. by rewrite Hne.
  - inversion Hts as [|? ? Ht Hrest]; subst. unfold is_token in Ht.
    apply andb_true_iff in Ht as [Hne%negb_true_iff Ht].
    change (String.concat "." (t :: t' :: ts))
      with (t +:+ String "." (String.concat "." (t' :: ts))).
    rewrite match_parts_token by done. simpl. rewrite Hne. f_equal. by apply IH.
Qed.

(** X8.  Joining tokens with dots and tokenizing gives the tokens back, for
    every non-empty list of proper tokens but the single token ["undefined"]
    (the path ["undefined"] is read as no path at all). *)
Theorem tokenize_join_round_trip : forall tokens,
  tokens <> [] -> Forall (fun t => is_token t = true) tokens ->
  tokens <> ["undefined"] ->
  tokenize (Some (String.concat "." tokens)) = Ok tokens.
Proof.
  intros [|t ts] Hne Htok Hu; [done|].
  pose proof (match_parts_concat t ts Htok) as Hm.
  unfold tokenize.
  destruct (String.eqb_spec (String.concat "." (t :: ts)) "") as [He|_].
  { rewrite He in Hm. discriminate. }
  destruct (String.eqb_spec (String.concat "." (t :: ts)) "undefined") as [He|_].
  { rewrite He in Hm. exfalso. apply Hu. symmetry. exact Hm. }
  by rewrite Hm.
Qed.

Lemma tokenize_join_round_trip_witness :
  tokenize (Some "a.b.0") = Ok ["a"; "b"; "0"] /\
  tokenize (Some "undefined") = Ok [].
Proof.
  split; [|reflexivity].
  apply (tokenize_join_round_trip ["a"; "b"; "0"]); [discriminate| |discriminate].
  repeat constructor.
Defined.

(** ** json-path.js: [set] and [get] together *)






















(** What [set] does below the root, once [get] and [patch] have run. *)
Lemma set_below_root data path v next tok toks :
  tokenize (Some path) = Ok (tok :: toks) ->
  jsonPath.set data (Some path) v next
  = match jsonPath.get data (Some path) with
    | Throw e => (Throw e, next)
    | Ok oldValue =>
        let '(newValue, next1) := patch oldValue v next in
        if strict_eq newValue oldValue then (Ok data, next1)
        else
          match (if truthy data then shallowCopy data else new_object) next1 with
          | (Ok result, next2) => set_loop result (tok :: toks) newValue next2
          | (Throw e, next2) => (Throw e, next2)
          end
    end.
Proof.
  intros Htok. unfold jsonPath.set. unfold bind at 1. unfold lift_result at 1.
  rewrite Htok. unfold bind at 1. unfold lift_result at 1.
  destruct (jsonPath.get data (Some path)) as [oldValue|e]; [|done].
  unfold bind at 1. unfold patchM. destruct (patch oldValue v next) as [newValue next1].
  destruct (strict_eq newValue oldValue); [done|].
  unfold bind.
  by destruct ((if truthy data then shallowCopy data else new_object) next1) as [[?|?] ?].
Qed.










(** ** record.js: further properties *)

Lemma normalizeArguments_last args : forall result,
  record._normalizeArguments args result
  = {| record.args_path :=
         match last (string_arguments args) with
         | Some s => Some s
         | None => record.args_path result
         end;
       record.args_callback :=
         match last (function_arguments args) with
         | Some f => Some f
         | None => record.args_callback result
         end;
       record.args_triggerNow :=
         match last (boolean_arguments args) with
         | Some b => Some b
         | None => record.args_triggerNow result
         end |}.
Proof.
  induction args as [|a args IH]; intros result; [by destruct result|].
  destruct a; simpl; rewrite IH; simpl; rewrite ?last_cons; f_equal;
    first [by destruct (last (string_arguments args))
          |by destruct (last (function_arguments args))
          |by destruct (last (boolean_arguments args))].
Qed.

Lemma short_list_permutation {A} (l l' : list A) :
  l ≡ₚ l' -> (length l <= 1)%nat -> l = l'.
Proof.
  intros Hp Hlen. destruct l as [|x [|y l]]; simpl in Hlen; [| |lia].
  - symmetry. by apply Permutation_nil_r.
  - symmetry. by apply Permutation_singleton_r.
Qed.

(** X11.  [_normalizeArguments] sorts the arguments by type: the path is the
    last string among them, the callback the last function, [triggerNow] the
    last boolean, and anything else is passed over.  So for a call with at
    most one argument of each of the three types, the order in which the
    arguments are written makes no difference. *)
Theorem normalizeArguments_by_type :
  (forall args,
     record._normalizeArguments args record.no_arguments
     = {| record.args_path := last (string_arguments args);
          record.args_callback := last (function_arguments args);
          record.args_triggerNow := last (boolean_arguments args) |}) /\
  (forall args args',
     args ≡ₚ args' ->
     (length (string_arguments args) <= 1)%nat ->
     (length (function_arguments args) <= 1)%nat ->
     (length (boolean_arguments args) <= 1)%nat ->
     record._normalizeArguments args record.no_arguments
     = record._normalizeArguments args' record.no_arguments).
Proof.
  assert (H1 : forall args,
     record._normalizeArguments args record.no_arguments
     = {| record.args_path := last (string_arguments args);
          record.args_callback := last (function_arguments args);
          record.args_triggerNow := last (boolean_arguments args) |}).
  { intros args. rewrite normalizeArguments_last. simpl. f_equal; by destruct (last _). }
  split; [exact H1|].
  intros args args' Hp Hs Hf Hb. rewrite !H1.
  unfold string_arguments, function_arguments, boolean_arguments in *.
  f_equal; f_equal; apply short_list_permutation; try done; by apply omap_Permutation.
Qed.

Lemma normalizeArguments_by_type_witness :
  record._normalizeArguments
    [record.arg_boolean true; record.arg_function 7; record.arg_string "a.b"]
    record.no_arguments
  = record._normalizeArguments
      [record.arg_string "a.b"; record.arg_function 7; record.arg_boolean true]
      record.no_arguments.
Proof.
  apply (proj2 normalizeArguments_by_type); simpl; try lia.
  etransitivity; [apply Permutation_swap|]. etransitivity; [apply perm_skip, Permutation_swap|].
  apply Permutation_swap.
Defined.

Section record_more.
Variable xuid : nat -> string.
Variable JSON_parse : string -> option json.
Variable convertTyped : option string -> value.

Import record.

#[local] Abbreviation _onMessage := (record._onMessage xuid JSON_parse convertTyped).
#[local] Abbreviation perform := (record.perform xuid JSON_parse convertTyped).
#[local] Abbreviation run := (record.run xuid JSON_parse convertTyped).

Lemma set_next_ref_id e : set_next_ref (next_ref e) e = e.
Proof. by destruct e. Qed.

Lemma set_patchQueue_id st : set_patchQueue (_patchQueue st) st = st.
Proof. by destruct st. Qed.

(** X12.  A [set(path, value)] that fails in the path utility has already
    put its patch into the queue of a record that is not ready yet: the call
    throws, and the record differs from before by that queue entry. *)
Theorem failed_set_stays_queued : forall st e path val queue err next',
  isDestroyed st = false -> _patchQueue st = Some queue -> path <> "" ->
  jsonPath.set (_data st) (Some path) val (next_ref e) = (Throw err, next') ->
  record.set xuid [VStr path; val] (st, e)
  = (Throw err,
     (set_patchQueue (Some (queue ++ [{| entry_path := path; entry_data := val |}])) st,
      set_next_ref next' e)).
Proof.
  intros st e path val queue err next' Hd Hq Hp Hset.
  unfold record.set, bind, this, gets, invariant, update, modify, alloc. simpl.
  rewrite Hd. simpl. destruct path as [|c path]; [done|]. simpl. rewrite Hq. simpl.
  by rewrite Hset.
Qed.

(** X13.  Writing a value that is already there changes nothing.  When the
    value at the path is a JSON value and [set(path, value)] is called with a
    structurally equal JSON value, the data stay the same object, no
    subscriber is called, no [UPDATE] is sent and the version stays; all
    that happens, on a record that is not ready, is that the patch joins the
    queue. *)
Theorem set_equal_value_changes_nothing : forall st e path val old tok toks,
  isDestroyed st = false ->
  jsonPath.tokenize (Some path) = Ok (tok :: toks) ->
  jsonPath.get (_data st) (Some path) = Ok old ->
  is_json old = true -> is_json val = true -> structurally_equal old val ->
  record.set xuid [VStr path; val] (st, e)
  = (Ok tt,
     (match _patchQueue st with
      | Some queue =>
          set_patchQueue (Some (queue ++ [{| entry_path := path; entry_data := val |}])) st
      | None => st
      end, e)).
Proof.
  intros st e path val old tok toks Hd Htok Hget Ho Hv He.
  assert (Hset : jsonPath.set (_data st) (Some path) val (next_ref e)
                 = (Ok (_data st), next_ref e)).
  { rewrite (set_below_root _ _ _ _ _ _ Htok), Hget.
    rewrite (patch_structurally_equal val old (next_ref e) Ho Hv He).
    by rewrite strict_eq_refl. }
  assert (Hp : exists c p, path = String c p).
  { destruct path; [done|eauto]. }
  destruct Hp as (c & p & ->).
  unfold record.set, bind, this, gets, invariant, update, modify, alloc. simpl.
  rewrite Hd. simpl.
  destruct (_patchQueue st) as [queue|] eqn:Hq; simpl; rewrite Hset; simpl;
    rewrite strict_eq_refl; unfold ret; rewrite set_next_ref_id; [done|].
  by rewrite <- Hq, set_patchQueue_id.
Qed.

(** What [_applyUpdate] leaves of a ready, live record: whatever becomes of
    the payload, the record is still live and ready and has the version of
    the message, or it dropped the message and is as before. *)
Lemma applyUpdate_version message st e :
  isDestroyed st = false -> isReady st = true -> action message = UPDATE ->
  let s1 := snd (_onMessage message (st, e)) in
  isDestroyed (fst s1) = false /\ isReady (fst s1) = true /\
  (if utils.compareVersions (version st) (data message !! 1%nat)
   then s1 = (st, e) else version (fst s1) = data message !! 1%nat).
Proof.
  intros Hd Hr Ha. cbv zeta. rewrite onMessage_update_ready by done.
  unfold record._applyUpdate, bind, this, gets, update, modify, parse, alloc. simpl.
  destruct (utils.compareVersions (version st) (data message !! 1%nat)); [done|].
  simpl. destruct (data message !! 2%nat ≫= JSON_parse) as [j|]; [|done].
  simpl. destruct (reify j (next_ref e)) as [parsed next1]. simpl.
  destruct (jsonPath.set (_data st) None parsed next1) as [[merged|err] next2]; [|done].
  simpl.
  match goal with
  | |- context [record._applyChange merged (?s, ?e0)] =>
      destruct (applyChange_effect merged s e0 Hd) as (res & cs & ->)
  end.
  done.
Qed.

Lemma onMessage_same_version message st e w :
  isDestroyed st = false -> isReady st = true -> action message = UPDATE ->
  version st = Some w -> data message !! 1%nat = Some w -> w <> "" ->
  _onMessage message (st, e) = (Ok tt, (st, e)).
Proof.
  intros Hd Hr Ha Hv Hw Hne. rewrite onMessage_update_ready by done.
  unfold record._applyUpdate, bind, this, gets. simpl.
  by rewrite Hv, Hw, compareVersions_same.
Qed.

(** X14.  Delivering an [UPDATE] twice is harmless.  Once a ready record has
    handled an [UPDATE] with a (non-empty) version, whatever came of it,
    every further [UPDATE] with that version is dropped and leaves the
    record and its surroundings as they are. *)
Theorem update_redelivery_is_dropped : forall message message' st e w,
  isDestroyed st = false -> isReady st = true ->
  action message = UPDATE -> data message !! 1%nat = Some w -> w <> "" ->
  action message' = UPDATE -> data message' !! 1%nat = Some w ->
  let s1 := snd (_onMessage message (st, e)) in
  _onMessage message' s1 = (Ok tt, s1).
Proof.
  intros message message' st e w Hd Hr Ha Hw Hne Ha' Hw' s1.
  destruct (applyUpdate_version message st e Hd Hr Ha) as (Hd1 & Hr1 & Hv1).
  fold s1 in Hd1, Hr1, Hv1. rewrite Hw in Hv1.
  destruct s1 as [st1 e1]. simpl in *.
  destruct (utils.compareVersions (version st) (Some w)) eqn:Hc.
  - injection Hv1 as -> ->. rewrite onMessage_update_ready by done.
    unfold record._applyUpdate, bind, this, gets. simpl. by rewrite Hw', Hc.
  - by apply (onMessage_same_version message' st1 e1 w).
Qed.

(** X15.  A payload that does not parse still moves the version.  When a
    ready record gets an [UPDATE] with a newer version whose payload
    [JSON.parse] rejects, the call throws, the data are as before, and the
    record has the version of the message; so the same version sent again
    with a good payload is dropped, and the data stay as they were. *)
Theorem malformed_update_moves_version : forall message message' st e w,
  isDestroyed st = false -> isReady st = true ->
  action message = UPDATE -> data message !! 1%nat = Some w -> w <> "" ->
  utils.compareVersions (version st) (Some w) = false ->
  data message !! 2%nat ≫= JSON_parse = None ->
  action message' = UPDATE -> data message' !! 1%nat = Some w ->
  let s1 := (set_version (Some w) st, e) in
  _onMessage message (st, e) = (Throw SyntaxError, s1) /\
  _onMessage message' s1 = (Ok tt, s1) /\
  _data (fst s1) = _data st.
Proof.
  intros message message' st e w Hd Hr Ha Hw Hne Hc Hj Ha' Hw' s1.
  split; [|split; [|done]].
  - rewrite onMessage_update_ready by done.
    unfold record._applyUpdate, bind, this, gets, update, modify, parse. simpl.
    by rewrite Hw, Hc, Hj.
  - by apply (onMessage_same_version message' _ e w).
Qed.

(** The errors of the path utility and of the notification of subscribers
    are never of the "invalid argument" kind. *)
Lemma tokenize_error path e : jsonPath.tokenize path = Throw e -> e = InvalidPath.
Proof. intros H. by apply tokenize_throws in H as [-> _]. Qed.

Lemma get_error data path e :
  jsonPath.get data path = Throw e -> is_invalid_argument e = false.
Proof.
  unfold jsonPath.get. destruct (jsonPath.tokenize path) as [tokens|e'] eqn:Htok.
  - intros H. by apply get_loop_throws in H as [-> _].
  - intros [= <-]. by rewrite (tokenize_error _ _ Htok).
Qed.

Lemma shallowCopy_error v next e next' :
  shallowCopy v next = (Throw e, next') -> e = TypeError.
Proof. destruct v; simpl; unfold ret, throw; congruence. Qed.

Lemma store_prop_error node k v e : store_prop node k v = Throw e -> e = Unmodelled.
Proof.
  destruct node; simpl; try done. destruct (array_index k); [done|]. congruence.
Qed.

Lemma set_loop_error tokens : forall node newValue next e next',
  jsonPath.set_loop node tokens newValue next = (Throw e, next') ->
  is_invalid_argument e = false.
Proof.
  induction tokens as [|tok rest IH]; intros node newValue next e next' H; [done|].
  destruct rest as [|nextTok rest].
  - simpl in H. unfold lift_result in H. injection H as H _.
    by rewrite (store_prop_error _ _ _ _ H).
  - change (jsonPath.set_loop node (tok :: nextTok :: rest) newValue)
      with (bind (if negb (is_undefined (get_prop node tok))
                  then shallowCopy (get_prop node tok)
                  else if jsonPath.is_numeric nextTok then new_array else new_object)
              (fun child => bind (jsonPath.set_loop child (nextTok :: rest) newValue)
                 (fun child' => lift_result (store_prop node tok child')))) in H.
    unfold bind, lift_result in H.
    destruct ((if negb (is_undefined (get_prop node tok))
               then shallowCopy (get_prop node tok)
               else if jsonPath.is_numeric nextTok then new_array else new_object) next)
      as [[child|e0] n0] eqn:Hc.
    + destruct (jsonPath.set_loop child (nextTok :: rest) newValue n0)
        as [[child'|e1] n1] eqn:Hrec.
      * injection H as H _. by rewrite (store_prop_error _ _ _ _ H).
      * injection H as <- _. by eapply IH.
    + injection H as <- _.
      destruct (negb (is_undefined (get_prop node tok))).
      * by rewrite (shallowCopy_error _ _ _ _ Hc).
      * by destruct (jsonPath.is_numeric nextTok).
Qed.

Lemma jsonPath_set_error data path val next e next' :
  jsonPath.set data path val next = (Throw e, next') ->
  is_invalid_argument e = false.
Proof.
  unfold jsonPath.set, bind, lift_result, jsonPath.patchM.
  destruct (jsonPath.tokenize path) as [tokens|e0] eqn:Htok.
  2:{ intros [= <- _]. by rewrite (tokenize_error _ _ Htok). }
  destruct tokens as [|tok toks].
  { by destruct (jsonPath.patch data val next). }
  destruct (jsonPath.get data path) as [old|e0] eqn:Hget.
  2:{ intros [= <- _]. by eapply get_error. }
  destruct (jsonPath.patch old val next) as [newValue next1].
  destruct (strict_eq newValue old); [done|].
  destruct ((if truthy data then shallowCopy data else new_object) next1)
    as [[result|e0] n0] eqn:Hc.
  - apply set_loop_error.
  - intros [= <- _]. destruct (truthy data); [|done].
    by rewrite (shallowCopy_error _ _ _ _ Hc).
Qed.

Lemma notify_error paths newData oldData : forall s e s',
  notify paths newData oldData s = (Throw e, s') -> is_invalid_argument e = false.
Proof.
  induction paths as [|path paths IH]; intros [st env] e s'; simpl; [done|].
  unfold bind, lift_result.
  destruct (jsonPath.get newData (Some path)) as [nv|err] eqn:Hn.
  2:{ intros [= <- _]. by eapply get_error. }
  destruct (jsonPath.get oldData (Some path)) as [ov|err] eqn:Ho.
  2:{ intros [= <- _]. by eapply get_error. }
  destruct (negb (strict_eq nv ov)).
  - unfold record.get, bind, this, gets, invariant, lift_result. simpl.
    destruct (isDestroyed st); simpl; [by intros [= <- _]|].
    destruct (jsonPath.get (_data st) (Some path)) as [v|err] eqn:Hg.
    2:{ intros [= <- _]. by eapply get_error. }
    unfold emitter_emit, bind, this, gets. simpl. rewrite call_all_effect. apply IH.
  - unfold ret. apply IH.
Qed.

Lemma applyChange_error newData s e s' :
  record._applyChange newData s = (Throw e, s') -> is_invalid_argument e = false.
Proof.
  destruct s as [st env].
  unfold record._applyChange, bind, this, update, gets, modify. simpl.
  destruct (isDestroyed st); [done|]. simpl.
  destruct (_eventEmitter st); [apply notify_error|done].
Qed.

(** X16.  [set] checks its arguments before it touches anything.  On a live
    record a call without a path whose data is not of type object fails with
    "invalid argument data", a call whose path is neither [undefined] nor a
    non-empty string fails with "invalid argument path", and whenever [set]
    ends in an error of this kind, the record and all around it are as
    before. *)
Theorem set_checks_arguments_first : forall args st e,
  isDestroyed st = false ->
  let one := (length args =? 1)%nat in
  let path := if one then VUndef else nth 0 args VUndef in
  let val := if one then nth 0 args VUndef else nth 1 args VUndef in
  (path = VUndef -> typeof_object val = false ->
     record.set xuid args (st, e) = (Throw (InvalidArgument "data"), (st, e))) /\
  (path <> VUndef -> (forall c p, path <> VStr (String c p)) ->
     record.set xuid args (st, e) = (Throw (InvalidArgument "path"), (st, e))) /\
  (forall what s',
     record.set xuid args (st, e) = (Throw (InvalidArgument what), s') -> s' = (st, e)).
Proof.
  intros args st e Hd one path val.
  unfold record.set, bind, this, gets, invariant. simpl. rewrite Hd. simpl.
  fold one. fold path. fold val.
  split; [|split].
  - intros -> ->. done.
  - intros Hu Hs. destruct path as [| | | |[|c p]| |]; try done. by destruct (Hs c p).
  - intros what s'.
    destruct (is_undefined path && negb (typeof_object val)); [by intros [= _ <-]|].
    assert (Htail : forall p q err s',
      (match p, q with
       | Some p, Some q =>
           update (set_patchQueue (Some (q ++ [{| entry_path := p; entry_data := val |}])))
       | _, _ => update (set_patchQueue None)
       end ;;;
       oldValue <- this _data ;;
       newValue <- alloc (jsonPath.set oldValue p val) ;;
       if strict_eq oldValue newValue then ret tt
       else
         record._applyChange newValue ;;;
         ready <- this isReady ;;
         if ready then record._dispatchUpdate xuid else ret tt)%js (st, e)
      = (Throw err, s') -> is_invalid_argument err = false).
    { intros p q err s0. unfold bind, this, gets, update, modify, alloc.
      destruct p as [p|], q as [q|]; simpl;
        (destruct (jsonPath.set (_data st) _ val (next_ref e)) as [[newValue|err0] next'] eqn:Hs;
           simpl; [|intros [= <- _]; by eapply jsonPath_set_error];
         destruct (strict_eq (_data st) newValue); simpl; [done|];
         match goal with
         | |- context [record._applyChange newValue ?s] =>
             destruct (record._applyChange newValue s) as [[[]|err0] [st1 e1]] eqn:Hc
         end; simpl; [|intros [= <- _]; by eapply applyChange_error];
         destruct (isReady st1); [by rewrite dispatchUpdate_effect|done]). }
    destruct path as [| | | |[|c p]| |]; try (by intros [= _ <-]).
    + unfold bind, this, gets. simpl. intros H.
      by apply (Htail None (_patchQueue st)) in H.
    + unfold bind, this, gets. simpl. intros H.
      by apply (Htail (Some (String c p)) (_patchQueue st)) in H.
Qed.

Lemma destroy_effect st e :
  exists st' e',
    record.destroy (st, e) = (Ok tt, (st', e')) /\
    isReady st' = isReady st /\ isDestroyed st' = true /\
    List.filter is_update (outbox e') = List.filter is_update (outbox e) /\
    promises e' = promises e.
Proof.
  unfold record.destroy, emit, bind, this, gets, update, update_shared, modify, sendMsg.
  simpl.
  destruct (isSubscribed st); simpl; eexists _, _; (split; [reflexivity|]); simpl;
    rewrite ?List.filter_app, ?app_nil_r; done.
Qed.

Lemma perform_destroyed_promises o s :
  isDestroyed (fst s) = true ->
  promises (snd (snd (perform o s))) = promises (snd s).
Proof.
  destruct s as [st e]. simpl. intros Hd.
  destruct o; simpl;
    unfold forget, record.get, record.set, record.subscribe, record.unsubscribe,
      record.whenReady, record.discard, record._onMessage,
      record._handleConnectionStateChange, bind, this, shared, gets, invariant;
    simpl; rewrite ?Hd; simpl; try done.
  - by destruct silent.
  - destruct (destroy_effect st e) as (st' & e' & Heq & _ & _ & _ & Hp).
    by rewrite Heq.
Qed.

(** X17.  A promise of [whenReady] that is pending when the record is
    destroyed is never settled: [destroy] takes the listeners off before it
    emits ['destroy'], and nothing that is done to the record afterwards
    touches the promise. *)
Theorem pending_promise_is_never_settled : forall st e ops,
  isDestroyed st = false -> isReady st = false ->
  let p := length (promises e) in
  let s1 := snd (record.whenReady (st, e)) in
  fst (record.whenReady (st, e)) = Ok p /\
  promises (snd (run ops (snd (record.destroy s1)))) !! p = Some Pending.
Proof.
  intros st e ops Hd Hr p s1. subst s1.
  unfold record.whenReady, bind, this, shared, gets, invariant, update, update_shared, modify.
  simpl. rewrite Hd. simpl. rewrite Hr. simpl. split; [done|].
  match goal with
  | |- context [record.destroy (?s, ?e0)] =>
      destruct (destroy_effect s e0) as (st' & e' & Hdes & _ & Hd' & _ & Hp)
  end.
  rewrite Hdes. simpl.
  assert (Hrun : forall ops s, isDestroyed (fst s) = true ->
            promises (snd (run ops s)) = promises (snd s)).
  { clear. induction ops as [|o ops IH]; intros s Hs; [done|].
    simpl. rewrite IH by (by apply perform_destroyed).
    by apply perform_destroyed_promises. }
  rewrite Hrun by done. simpl. rewrite Hp. simpl.
  by rewrite lookup_app_r, Nat.sub_diag by done.
Qed.

(** What an operation other than an inbound [UPDATE] does to a record that
    is not ready: it stays so, and no [UPDATE] is sent. *)
Lemma perform_before_ready o st e :
  (forall m, o = op_message m -> action m <> UPDATE) ->
  isReady st = false ->
  let s' := snd (perform o (st, e)) in
  isReady (fst s') = false /\
  List.filter is_update (outbox (snd s')) = List.filter is_update (outbox e).
Proof.
  intros Ho Hr. cbv zeta.
  assert (Hdestroy : forall st0 e0, isReady st0 = false ->
            isReady (fst (snd (record.destroy (st0, e0)))) = false /\
            List.filter is_update (outbox (snd (snd (record.destroy (st0, e0)))))
            = List.filter is_update (outbox e0)).
  { intros st0 e0 H0.
    destruct (destroy_effect st0 e0) as (st' & e' & -> & Hr' & _ & Hf & _). simpl.
    by rewrite Hr'. }
  destruct o; simpl.
  - unfold forget, record.get, bind, this, gets, invariant, lift_result. simpl.
    destruct (isDestroyed st); simpl; [done|].
    by destruct (jsonPath.get (_data st) path).
  - unfold record.set, bind, this, gets, invariant. simpl.
    destruct (isDestroyed st) eqn:Hd; simpl; [done|].
    set (path := if (length args =? 1)%nat then VUndef else nth 0 args VUndef).
    set (val := if (length args =? 1)%nat then nth 0 args VUndef else nth 1 args VUndef).
    destruct (is_undefined path && negb (typeof_object val)); [done|].
    assert (Htail : forall p q,
      let s' := snd ((match p, q with
             | Some p, Some q =>
                 update (set_patchQueue (Some (q ++ [{| entry_path := p; entry_data := val |}])))
             | _, _ => update (set_patchQueue None)
             end ;;;
             oldValue <- this _data ;;
             newValue <- alloc (jsonPath.set oldValue p val) ;;
             if strict_eq oldValue newValue then ret tt
             else
               record._applyChange newValue ;;;
               ready <- this isReady ;;
               if ready then record._dispatchUpdate xuid else ret tt)%js (st, e)) in
      isReady (fst s') = false /\
      List.filter is_update (outbox (snd s')) = List.filter is_update (outbox e)).
    { intros p q. unfold bind, this, gets, update, modify, alloc.
      destruct p as [p|], q as [q|]; simpl;
        (destruct (jsonPath.set (_data st) _ val (next_ref e)) as [[newValue|err] next'];
           simpl; [|done];
         destruct (strict_eq (_data st) newValue); simpl; [done|];
         match goal with
         | |- context [record._applyChange newValue (?s, ?e0)] =>
             let res := fresh "res" in let cs := fresh "cs" in
             destruct (applyChange_effect newValue s e0 Hd) as (res & cs & ->)
         end; destruct res as [[]|err]; simpl; [|done];
         by rewrite Hr). }
    destruct path as [| | | |[|c p]| |]; try done.
    + unfold bind, this, gets. simpl. apply (Htail None (_patchQueue st)).
    + unfold bind, this, gets. simpl. apply (Htail (Some (String c p)) (_patchQueue st)).
  - unfold record.subscribe, bind, this, gets, invariant, emitter_on, update, modify. simpl.
    destruct (isDestroyed st); simpl; [done|].
    destruct (bool_decide _); [done|].
    destruct (args_callback _); [|done]. simpl.
    destruct (default false _ && truthy (_data st)); [|done].
    unfold record.get, bind, this, gets, invariant, lift_result, call, update_shared, modify.
    simpl. destruct (isDestroyed st); simpl; [done|].
    by destruct (jsonPath.get (_data st) _).
  - unfold record.unsubscribe, bind, this, gets, invariant, emitter_off, update, modify. simpl.
    destruct (isDestroyed st); simpl; [done|].
    by destruct (bool_decide _).
  - unfold forget, record.whenReady, bind, this, shared, gets, invariant, update,
      update_shared, modify, settle. simpl.
    destruct (isDestroyed st); simpl; [done|]. rewrite Hr. done.
  - unfold record.discard, bind, this, gets, invariant, update, modify. simpl.
    destruct (isDestroyed st); simpl; by destruct silent.
  - by apply Hdestroy.
  - specialize (Ho message eq_refl).
    unfold record._onMessage, bind, this, gets, invariant, update, modify. simpl.
    destruct (isDestroyed st); simpl; [done|].
    rewrite bool_decide_false by done.
    destruct (bool_decide _); [|done].
    match goal with
    | |- context [emit ?ev ?arg (?s, ?e0)] =>
        destruct (emit_effect ev arg s e0) as (cbs & ps & cs & ->)
    end.
    done.
  - unfold record._handleConnectionStateChange, bind, this, gets, update, modify, sendMsg,
      update_shared, modify. simpl.
    destruct (isDestroyed st); simpl; [done|].
    destruct st0; simpl; try done.
    destruct (isSubscribed st); simpl; [done|].
    by rewrite List.filter_app, app_nil_r.
Qed.

(** X18.  Until the first [UPDATE] from the server has come in, a record
    sends no [UPDATE] of its own, whatever is done to it: it is not ready,
    and the [UPDATE]s among the messages handed to the connection are those
    that were there when the record was made. *)
Theorem no_update_before_first_snapshot : forall recordName e0 r e1 ops,
  record.create recordName e0 = (Ok r, e1) ->
  Forall (fun o => forall m, o = op_message m -> action m <> UPDATE) ops ->
  let s := run ops (r, e1) in
  isReady (fst s) = false /\
  List.filter is_update (outbox (snd s)) = List.filter is_update (outbox e0).
Proof.
  intros nm e0 r e1 ops Hcreate Hops. cbv zeta.
  assert (Hinit : isReady r = false /\
            List.filter is_update (outbox e1) = List.filter is_update (outbox e0)).
  { unfold record.create in Hcreate. destruct (String.eqb nm ""); [done|].
    injection Hcreate as <- <-. simpl. by rewrite List.filter_app, app_nil_r. }
  destruct Hinit as [Hr <-]. clear Hcreate. revert r e1 Hr.
  induction Hops as [|o ops Ho _ IH]; intros r e1 Hr; [done|].
  simpl. destruct (perform_before_ready o r e1 Ho Hr) as [Hr' Hf].
  destruct (snd (perform o (r, e1))) as [r' e'] eqn:Hs. simpl in *.
  rewrite <- Hf. by apply IH.
Qed.

Lemma run_listeners_keeps p ls arg st x : forall e,
  Forall (fun l => listener_promise l <> Some p) ls ->
  promises e !! p = Some x ->
  exists e', run_listeners ls arg (st, e) = (Ok tt, (st, e')) /\ promises e' !! p = Some x.
Proof.
  induction ls as [|l ls IH]; intros e Hls Hp; [by exists e|].
  inversion Hls as [|? ? Hl Hrest]; subst. simpl. unfold bind.
  assert (exists e1, run_listener l arg (st, e) = (Ok tt, (st, e1)) /\
                     promises e1 !! p = Some x) as (e1 & -> & Hp1).
  { destruct l as [q|q|f]; simpl in *; unfold settle, call, update_shared, modify; simpl.
    - eexists. split; [reflexivity|].
      destruct (promises e !! q) as [[]|]; simpl; try done.
      rewrite list_lookup_insert_ne; [done|congruence].
    - eexists. split; [reflexivity|].
      destruct (promises e !! q) as [[]|]; simpl; try done.
      rewrite list_lookup_insert_ne; [done|congruence].
    - eexists. split; [reflexivity|]. done. }
  by apply IH.
Qed.

Lemma run_listeners_app l1 l2 arg s :
  run_listeners (l1 ++ l2) arg s = (run_listeners l1 arg ;;; run_listeners l2 arg)%js s.
Proof.
  revert s. induction l1 as [|l l1 IH]; intros s; simpl; unfold bind.
  - done.
  - destruct (run_listener l arg s) as [[[]|err] s1]; [|done]. by rewrite IH.
Qed.

(** ['ready'] resolves the promise of the [whenReady] that registered last. *)
Lemma emit_ready_resolves st e cbs p arg :
  _callbacks st = cbs ++ [("ready", once_resolve p); ("destroy", once_reject p)] ->
  Forall (fun el => listener_promise (snd el) <> Some p) cbs ->
  promises e !! p = Some Pending ->
  promises (snd (snd (emit "ready" arg (st, e)))) !! p = Some Resolved.
Proof.
  intros Hcb Hcbs Hp. unfold emit, bind, this, gets, update, modify. simpl.
  rewrite Hcb, !List.filter_app. simpl. rewrite map_app, run_listeners_app. unfold bind.
  match goal with
  | |- context [run_listeners ?ls arg (?s, e)] =>
      destruct (run_listeners_keeps p ls arg s Pending e) as (e1 & -> & Hp1); [|done|]
  end.
  { apply Forall_forall. intros l Hl. apply list_elem_of_In, in_map_iff in Hl as (el & <- & Hel).
    apply filter_In in Hel as [Hel _]. rewrite Forall_forall in Hcbs.
    by apply Hcbs, list_elem_of_In. }
  simpl. unfold bind, settle, update_shared, modify. simpl. rewrite Hp1. simpl.
  apply list_lookup_insert_eq. by eapply lookup_lt_Some.
Qed.

(** A first [UPDATE] that is handled to the end ends with ['ready'], emitted
    on the listeners and the promises that were there before. *)
Lemma onRead_ends_with_ready message st e :
  isDestroyed st = false ->
  fst (record._onRead xuid JSON_parse message (st, e)) = Ok tt ->
  exists st2 e2,
    record._onRead xuid JSON_parse message (st, e) = emit "ready" VUndef (st2, e2) /\
    _callbacks st2 = _callbacks st /\ promises e2 = promises e.
Proof.
  intros Hd.
  unfold record._onRead, bind, this, gets, update, modify, parse, alloc. simpl.
  destruct (data message !! 2%nat ≫= JSON_parse) as [j|]; [|done]. simpl.
  destruct (reify j (next_ref e)) as [snapshot next1]. simpl.
  assert (Htail : forall newValue stq eq,
    isDestroyed stq = false -> _callbacks stq = _callbacks st -> promises eq = promises e ->
    fst ((record._applyChange newValue ;;;
          (if negb (strict_eq newValue snapshot) then record._dispatchUpdate xuid else ret tt) ;;;
          emit "ready" VUndef)%js (stq, eq)) = Ok tt ->
    exists st2 e2,
      (record._applyChange newValue ;;;
       (if negb (strict_eq newValue snapshot) then record._dispatchUpdate xuid else ret tt) ;;;
       emit "ready" VUndef)%js (stq, eq) = emit "ready" VUndef (st2, e2) /\
      _callbacks st2 = _callbacks st /\ promises e2 = promises e).
  { intros newValue stq eq Hdq Hcq Hpq. unfold bind.
    destruct (applyChange_effect newValue stq eq Hdq) as (res & cs & ->).
    destruct res as [[]|err]; [|done].
    destruct (negb (strict_eq newValue snapshot)).
    - rewrite dispatchUpdate_effect. intros _. by eexists _, _.
    - unfold ret. intros _. by eexists _, _. }
  destruct (_patchQueue st) as [queue|]; simpl.
  - destruct (replay queue snapshot next1) as [[newValue|err] next2]; [|done]. simpl.
    intros H. by apply (Htail newValue) in H.
  - intros H. by apply (Htail (if truthy (_data st) then _data st else snapshot)) in H.
Qed.

(** X19.  [whenReady] keeps its promise.  On a record that is not ready the
    promise is pending; when the first [UPDATE] from the server is then
    handled to the end, the promise is resolved. *)
Theorem whenReady_resolves_with_first_update : forall st e message,
  isDestroyed st = false -> isReady st = false -> action message = UPDATE ->
  Forall (fun el => forall q, listener_promise (snd el) = Some q ->
                      (q < length (promises e))%nat) (_callbacks st) ->
  let p := length (promises e) in
  let s1 := snd (record.whenReady (st, e)) in
  fst (record.whenReady (st, e)) = Ok p /\
  promises (snd s1) !! p = Some Pending /\
  (fst (_onMessage message s1) = Ok tt ->
   promises (snd (snd (_onMessage message s1))) !! p = Some Resolved).
Proof.
  intros st e message Hd Hr Ha Hcbs p s1. subst s1.
  unfold record.whenReady, bind, this, shared, gets, invariant, update, update_shared, modify.
  simpl. rewrite Hd. simpl. rewrite Hr. simpl.
  split; [done|]. split; [by rewrite lookup_app_r, Nat.sub_diag by done|].
  rewrite onMessage_update_unready by done. intros Hok.
  apply onRead_ends_with_ready in Hok as (st2 & e2 & -> & Hcb & Hp); [|done].
  simpl in Hcb, Hp. apply (emit_ready_resolves st2 e2 (_callbacks st)); [done| |].
  - eapply Forall_impl; [exact Hcbs|]. intros el Hel Heq. apply Hel in Heq. fold p in Heq. lia.
  - rewrite Hp. by rewrite lookup_app_r, Nat.sub_diag by done.
Qed.

End record_more.

(** *** Worked scenarios: the record *)

(** [set('a', 5)] and then [set('a.b', 1)] on a record that is not ready: the
    second call throws, and its patch is in the queue. *)
Lemma failed_set_stays_queued_witness :
  let s1 := snd (record.set sample_xuid [VStr "a"; VNum 5] fresh_record) in
  let s2 := record.set sample_xuid [VStr "a.b"; VNum 1] s1 in
  fst s2 = Throw InvalidDataOrPath /\
  record._patchQueue (fst (snd s2))
  = Some [{| record.entry_path := "a"; record.entry_data := VNum 5 |};
          {| record.entry_path := "a.b"; record.entry_data := VNum 1 |}].
Proof.
  intros s1 s2.
  pose proof (failed_set_stays_queued sample_xuid (fst s1) (snd s1) "a.b" (VNum 1)
                [{| record.entry_path := "a"; record.entry_data := VNum 5 |}]
                InvalidDataOrPath _ eq_refl eq_refl ltac:(discriminate) eq_refl) as H.
  change (fst s1, snd s1) with s1 in H. fold s2 in H.
  split; [exact (f_equal fst H)|exact (f_equal (fun r => record._patchQueue (fst (snd r))) H)].
Defined.

(** With that queue the record cannot take the snapshot [{}]: the replay
    fails as the call did, and the record is not ready afterwards. *)
Example queued_failure_blocks_the_snapshot :
  let s1 := snd (record.set sample_xuid [VStr "a"; VNum 5] fresh_record) in
  let s2 := snd (record.set sample_xuid [VStr "a.b"; VNum 1] s1) in
  let s3 := sample_onMessage (update_message "1-x" "{}") s2 in
  fst s3 = Throw InvalidDataOrPath /\ record.isReady (fst (snd s3)) = false.
Proof. by vm_compute. Qed.

Lemma set_equal_value_changes_nothing_witness :
  let s := sample_run [record.op_message (update_message "1-x" "{}");
                       record.op_set [VStr "a"; VArr 20 [VNum 1]]] fresh_record in
  record.set sample_xuid [VStr "a"; VArr 30 [VNum 1]] s = (Ok tt, s).
Proof.
  intros s.
  pose proof (set_equal_value_changes_nothing sample_xuid (fst s) (snd s) "a"
                (VArr 30 [VNum 1]) (VArr 20 [VNum 1]) "a" []
                eq_refl eq_refl eq_refl eq_refl eq_refl eq_refl) as H.
  exact H.
Defined.

Lemma update_redelivery_is_dropped_witness :
  let s := sample_run [record.op_message (update_message "3-A" "{}")] fresh_record in
  let s1 := snd (sample_onMessage (update_message "5-B" "[5]") s) in
  record._data (fst s1) = VArr 2 [VNum 5] /\
  sample_onMessage (update_message "5-B" "{}") s1 = (Ok tt, s1).
Proof.
  intros s s1. split; [reflexivity|].
  exact (update_redelivery_is_dropped sample_xuid sample_parse sample_convertTyped
           (update_message "5-B" "[5]") (update_message "5-B" "{}") (fst s) (snd s) "5-B"
           eq_refl eq_refl eq_refl eq_refl ltac:(discriminate) eq_refl eq_refl).
Defined.

Lemma malformed_update_moves_version_witness :
  let s := sample_run [record.op_message (update_message "3-A" "{}")] fresh_record in
  let s1 := (record.set_version (Some "5-B") (fst s), snd s) in
  sample_onMessage (update_message "5-B" "{oops") s = (Throw SyntaxError, s1) /\
  sample_onMessage (update_message "5-B" "[5]") s1 = (Ok tt, s1) /\
  record._data (fst s1) = record._data (fst s).
Proof.
  intros s s1.
  exact (malformed_update_moves_version sample_xuid sample_parse sample_convertTyped
           (update_message "5-B" "{oops") (update_message "5-B" "[5]") (fst s) (snd s) "5-B"
           eq_refl eq_refl eq_refl eq_refl ltac:(discriminate) eq_refl eq_refl
           eq_refl eq_refl).
Defined.

Lemma set_checks_arguments_first_witness :
  record.set sample_xuid [VNum 5] fresh_record
  = (Throw (InvalidArgument "data"), fresh_record) /\
  record.set sample_xuid [VStr ""; VNum 5] fresh_record
  = (Throw (InvalidArgument "path"), fresh_record).
Proof.
  pose proof (set_checks_arguments_first sample_xuid [VNum 5] (fst fresh_record)
                (snd fresh_record) eq_refl) as (H1 & _ & _).
  pose proof (set_checks_arguments_first sample_xuid [VStr ""; VNum 5] (fst fresh_record)
                (snd fresh_record) eq_refl) as (_ & H2 & _).
  split; [by apply H1|]. apply H2; [discriminate|]. intros c p. discriminate.
Defined.

Lemma pending_promise_is_never_settled_witness :
  let s1 := snd (record.whenReady fresh_record) in
  record.promises
    (snd (sample_run [record.op_message (update_message "1-x" "{}"); record.op_whenReady;
                      record.op_destroy; record.op_connection OPEN]
            (snd (record.destroy s1)))) !! 0%nat
  = Some record.Pending.
Proof.
  intros s1.
  exact (proj2 (pending_promise_is_never_settled sample_xuid sample_parse sample_convertTyped
                  (fst fresh_record) (snd fresh_record) _ eq_refl eq_refl)).
Defined.

Lemma no_update_before_first_snapshot_witness :
  let s := sample_run [record.op_set [VStr "a"; VNum 1];
                       record.op_set [VObj 9 [("b", VNum 2)]];
                       record.op_connection RECONNECTING;
                       record.op_connection OPEN] fresh_record in
  record.isReady (fst s) = false /\ List.filter is_update (record.outbox (snd s)) = [].
Proof.
  intros s.
  apply (no_update_before_first_snapshot sample_xuid sample_parse sample_convertTyped
           "r" empty_env (fst fresh_record) (snd fresh_record)); [reflexivity|].
  repeat constructor; intros m; discriminate.
Defined.

Lemma whenReady_resolves_with_first_update_witness :
  let s1 := snd (record.whenReady fresh_record) in
  record.promises (snd s1) !! 0%nat = Some record.Pending /\
  record.promises (snd (snd (sample_onMessage (update_message "1-x" "{}") s1))) !! 0%nat
  = Some record.Resolved.
Proof.
  intros s1.
  pose proof (whenReady_resolves_with_first_update sample_xuid sample_parse
                sample_convertTyped (fst fresh_record) (snd fresh_record)
                (update_message "1-x" "{}") eq_refl eq_refl eq_refl
                ltac:(constructor)) as (_ & Hp & Hres).
  split; [exact Hp|]. apply Hres. reflexivity.
Defined.

(** ** record-handler.js: the registry *)

Section registry_in_order.

Import recordHandler.

Lemma on_record_found {A} i (m : record.method A) h r :
  records h !! i = Some r ->
  on_record i m h
  = (fst (m (r, shared h)),
     set_shared (snd (snd (m (r, shared h))))
       (set_records (<[i := fst (snd (m (r, shared h)))]> (records h)) h)).
Proof.
  intros Hr. unfold on_record. rewrite Hr.
  by destruct (m (r, shared h)) as [res [r' e']].
Qed.

Lemma on_record_read i h r :
  records h !! i = Some r -> on_record i (gets fst) h = (Ok r, h).
Proof.
  intros Hr. rewrite (on_record_found _ _ _ _ Hr). unfold gets. simpl.
  rewrite list_insert_id by done. by destruct h.
Qed.

(** A method call that leaves name and liveness of the record alone keeps
    the registry in order. *)
Lemma on_record_registry {A} i (m : record.method A) h vec :
  (forall r e, record.name (fst (snd (m (r, e)))) = record.name r /\
               record.isDestroyed (fst (snd (m (r, e)))) = record.isDestroyed r) ->
  registry_ok_on vec h ->
  registry_ok_on vec (snd (on_record i m h)) /\
  _recordsVec (snd (on_record i m h)) = _recordsVec h /\
  _recordsMap (snd (on_record i m h)) = _recordsMap h.
Proof.
  intros Hm (Hnd & Hvec & Hmap).
  destruct (records h !! i) as [r|] eqn:Hi.
  2:{ unfold on_record. by rewrite Hi. }
  rewrite (on_record_found _ _ _ _ Hi). simpl.
  destruct (Hm r (shared h)) as [Hname Hdes].
  set (r' := fst (snd (m (r, shared h)))) in *.
  assert (Hlook : forall k, exists rk, records h !! k = Some rk ->
            True) by (intros; by exists r).
  split; [|done]. split; [done|]. split.
  - intros k Hk. destruct (Hvec k Hk) as (rk & Hrk & Hdk & Hmk). simpl.
    destruct (decide (k = i)) as [->|Hne].
    + assert (rk = r) by congruence. subst rk.
      exists r'. rewrite list_lookup_insert_eq by (by eapply lookup_lt_Some).
      split; [done|]. by rewrite Hname, Hdes.
    + exists rk. by rewrite list_lookup_insert_ne.
  - intros n k Hn. destruct (Hmap n k Hn) as (Hin & rk & Hrk & Hnk). simpl in *.
    split; [done|].
    destruct (decide (k = i)) as [->|Hne].
    + assert (rk = r) by congruence. subst rk.
      exists r'. rewrite list_lookup_insert_eq by (by eapply lookup_lt_Some).
      split; [done|]. congruence.
    + exists rk. by rewrite list_lookup_insert_ne.
Qed.


(** [getRecord] on a registry in order. *)
Lemma getRecord_spec n h :
  registry_ok h -> n <> "" \/ is_Some (_recordsMap h !! n) ->
  exists i r h1,
    getRecord n h = (Ok i, h1) /\ registry_ok h1 /\
    _recordsMap h1 !! n = Some i /\ records h1 !! i = Some r /\
    record.name r = n /\ record.isDestroyed r = false /\
    (forall k, k <> i -> records h1 !! k = records h !! k) /\
    client_errors h1 = client_errors h /\
    match _recordsMap h !! n with
    | Some i0 =>
        i = i0 /\ shared h1 = shared h /\ length (records h1) = length (records h) /\
        exists r0, records h !! i = Some r0 /\
          r = record.set_usages (record.usages r0 + 1) r0
    | None =>
        i = length (records h) /\ record.usages r = 1 /\
        length (records h1) = S (length (records h)) /\
        record.outbox (shared h1)
        = record.outbox (shared h) ++
            [{| sent_topic := RECORD; sent_action := READ; sent_data := [VStr n] |}]
    end.
Proof.
  intros Hok Hne. pose proof Hok as (Hnd & Hvec & Hmap).
  unfold getRecord, bind, gets. simpl.
  destruct (_recordsMap h !! n) as [i|] eqn:Hfound; unfold ret.
  - destruct (Hmap n i Hfound) as (Hin & r & Hr & Hname).
    destruct (Hvec i Hin) as (r0 & Hr0 & Hd0 & Hm0).
    assert (r0 = r) by congruence. subst r0.
    rewrite (on_record_found _ _ _ _ Hr).
    unfold record.update, modify. simpl.
    eexists i, _, _. split; [reflexivity|].
    pose proof (on_record_registry i
                  (record.update (fun r => record.set_usages (record.usages r + 1) r)) h
                  (_recordsVec h) (fun r e => conj eq_refl eq_refl) Hok) as (Hok1 & _ & _).
    rewrite (on_record_found _ _ _ _ Hr) in Hok1. unfold record.update, modify in Hok1.
    simpl in Hok1.
    split; [exact Hok1|]. simpl.
    rewrite list_lookup_insert_eq by (by eapply lookup_lt_Some).
    split; [done|]. split; [done|]. split; [done|]. split; [done|].
    split; [intros k Hk; by rewrite list_lookup_insert_ne|].
    split; [done|]. split; [done|]. split; [by destruct (shared h)|].
    split; [by rewrite length_insert|]. by exists r.
  - destruct Hne as [Hne|[? ?]]; [|done].
    unfold record.create. rewrite (proj2 (String.eqb_neq _ _) Hne). simpl.
    unfold on_record. simpl. rewrite lookup_app_r, Nat.sub_diag by done. simpl.
    unfold record.update, modify. simpl.
    eexists _, _, _. split; [reflexivity|]. simpl.
    assert (Hlt : forall k, k ∈ _recordsVec h -> (k < length (records h))%nat).
    { intros k Hk. destruct (Hvec k Hk) as (rk & Hrk & _). by eapply lookup_lt_Some. }
    split; [|].
    { split; [|split]; simpl.
      - apply NoDup_app. split; [done|]. split; [|apply NoDup_singleton].
        intros k Hk ->%list_elem_of_singleton. apply Hlt in Hk. lia.
      - intros k [Hk| ->%list_elem_of_singleton]%elem_of_app.
        + destruct (Hvec k Hk) as (rk & Hrk & Hdk & Hmk).
          exists rk. rewrite list_lookup_insert_ne by (apply Hlt in Hk; lia).
          rewrite lookup_app_l by (by apply Hlt).
          split; [done|]. split; [done|].
          rewrite lookup_insert_ne; [done|]. intros Heq. rewrite <- Heq in Hmk. congruence.
        + eexists. rewrite list_lookup_insert_eq by (rewrite length_app; simpl; lia).
          split; [done|]. simpl. split; [done|]. by rewrite lookup_insert_eq.
      - intros nm k [[<- <-]|[Hnm Hk]]%lookup_insert_Some.
        + split; [apply elem_of_app; right; by apply list_elem_of_singleton|].
          eexists. rewrite list_lookup_insert_eq by (rewrite length_app; simpl; lia). done.
        + destruct (Hmap nm k Hk) as (Hin & rk & Hrk & Hnk).
          split; [apply elem_of_app; by left|].
          exists rk. rewrite list_lookup_insert_ne by (apply Hlt in Hin; lia).
          by rewrite lookup_app_l by (by apply Hlt). }
    rewrite lookup_insert_eq.
    rewrite list_lookup_insert_eq by (rewrite length_app; simpl; lia).
    split; [done|]. split; [done|]. split; [done|]. split; [done|].
    split.
    { intros k Hk. rewrite list_lookup_insert_ne by done.
      destruct (decide (k < length (records h))%nat).
      - by rewrite lookup_app_l.
      - rewrite lookup_app_r by lia. rewrite (lookup_ge_None_2 (records h)) by lia.
        destruct (k - length (records h))%nat eqn:Hk'; [lia|done]. }
    split; [done|]. split; [done|]. split; [done|].
    split; [rewrite length_insert, length_app; simpl; lia|done].
Qed.

Lemma take_all {A} (l : list A) : take (length l) l = l.
Proof. by apply take_ge. Qed.

Lemma state_eta h :
  set_recordsVec (_recordsVec h) h = h.
Proof. by destruct h. Qed.

Lemma on_record_undefined_method i nm h r :
  records h !! i = Some r ->
  on_record i (record.undefined_method nm) h = (Throw TypeError, h).
Proof.
  intros Hr. rewrite (on_record_found _ _ _ _ Hr). simpl.
  rewrite list_insert_id by done. by destruct h.
Qed.

Lemma pruner_keeps_record h k :
  pruner_keeps h k = true -> exists r, records h !! k = Some r /\ prunable r = false.
Proof.
  unfold pruner_keeps. destruct (records h !! k) as [r|]; [|done].
  intros H%negb_true_iff. by exists r.
Qed.

(** The loop passes over entries it keeps. *)
Lemma prune_loop_quiet n : forall i j h,
  (i <= j)%nat -> (j - i <= n)%nat ->
  (forall p, (i <= p < j)%nat ->
     exists k, _recordsVec h !! p = Some k /\ pruner_keeps h k = true) ->
  prune_loop n i j h = (Ok j, h).
Proof.
  induction n as [|n IH]; intros i j h Hij Hn Hkeep.
  { simpl. unfold ret. do 2 f_equal. lia. }
  simpl. destruct (Nat.ltb_spec i j) as [Hlt|Hge].
  2:{ unfold ret. do 2 f_equal. lia. }
  destruct (Hkeep i ltac:(lia)) as (k & Hk & Hr).
  apply pruner_keeps_record in Hr as (r & Hr & Hp).
  unfold bind at 1, gets at 1. cbn beta iota. rewrite Hk.
  unfold bind at 1. rewrite (on_record_read _ _ _ Hr).
  unfold prunable in Hp. rewrite Hp.
  apply IH; [lia|lia|]. intros p Hp'. apply Hkeep. lia.
Qed.

(** The loop stops at the first entry it would take. *)
Lemma prune_loop_first n : forall i j h p k r,
  (i <= p < j)%nat -> (j - i <= n)%nat ->
  (forall q, (i <= q < p)%nat ->
     exists k', _recordsVec h !! q = Some k' /\ pruner_keeps h k' = true) ->
  _recordsVec h !! p = Some k -> records h !! k = Some r -> prunable r = true ->
  prune_loop n i j h
  = (Throw TypeError, set_recordsMap (delete (record.name r) (_recordsMap h)) h).
Proof.
  induction n as [|n IH]; intros i j h p k r Hp Hn Hkeep Hk Hr Hprune; [lia|].
  simpl. destruct (Nat.ltb_spec i j) as [Hlt|Hge]; [|lia].
  destruct (decide (i = p)) as [->|Hne].
  - unfold bind at 1, gets at 1. cbn beta iota. rewrite Hk.
    unfold bind at 1. rewrite (on_record_read _ _ _ Hr).
    unfold prunable in Hprune. rewrite Hprune.
    unfold bind at 1, modify at 1. cbn beta iota.
    unfold bind at 1.
    by rewrite (on_record_undefined_method k _ _ r).
  - destruct (Hkeep i ltac:(lia)) as (k' & Hk' & Hr').
    apply pruner_keeps_record in Hr' as (r' & Hr' & Hp').
    unfold bind at 1, gets at 1. cbn beta iota. rewrite Hk'.
    unfold bind at 1. rewrite (on_record_read _ _ _ Hr').
    unfold prunable in Hp'. rewrite Hp'.
    apply (IH (S i) j h p k r); try done; [lia|lia|]. intros q Hq. apply Hkeep. lia.
Qed.

Lemma prune_quiet h :
  nothing_to_prune h = true -> _prune h = (Ok tt, h).
Proof.
  intros Hq. unfold nothing_to_prune in Hq. rewrite forallb_forall in Hq.
  unfold _prune. unfold bind at 1, gets at 1. cbn beta iota.
  unfold bind at 1.
  rewrite (prune_loop_quiet (length (_recordsVec h)) 0 (length (_recordsVec h)) h);
    [|lia|lia|].
  - unfold modify. by rewrite take_all, state_eta.
  - intros p Hp. destruct (lookup_lt_is_Some_2 (_recordsVec h) p ltac:(lia)) as [k Hk].
    exists k. split; [done|]. apply Hq. apply list_elem_of_In. by eapply list_elem_of_lookup_2.
Qed.

Lemma prune_first h before k after r :
  _recordsVec h = before ++ k :: after ->
  forallb (pruner_keeps h) before = true ->
  records h !! k = Some r -> prunable r = true ->
  _prune h = (Throw TypeError, set_recordsMap (delete (record.name r) (_recordsMap h)) h).
Proof.
  intros Hvec Hbefore Hr Hprune. rewrite forallb_forall in Hbefore.
  unfold _prune. unfold bind at 1, gets at 1. cbn beta iota.
  unfold bind at 1.
  rewrite (prune_loop_first (length (_recordsVec h)) 0 (length (_recordsVec h)) h
             (length before) k r); try done.
  - rewrite Hvec, length_app. simpl. lia.
  - lia.
  - intros q Hq. destruct (lookup_lt_is_Some_2 before q ltac:(lia)) as [k' Hk'].
    exists k'. split; [by rewrite Hvec, lookup_app_l by lia|].
    apply Hbefore. apply list_elem_of_In. by eapply list_elem_of_lookup_2.
  - by rewrite Hvec, list_lookup_middle.
Qed.

(** X20.  One run of the pruner.  When every entry of the vector is a record
    in use or not ready, the run returns and changes nothing.  Otherwise it
    stops at the first entry whose record is ready and unheld: it takes the
    name of that record off the map and then fails with a TypeError, on the
    call of [_$destroy], which a record does not have.  The record is not
    destroyed, nothing else is touched, and the vector keeps all its
    entries. *)
Theorem prune_stops_at_the_first_idle_record : forall h,
  (nothing_to_prune h = true -> _prune h = (Ok tt, h)) /\
  (forall before k after r,
     _recordsVec h = before ++ k :: after ->
     forallb (pruner_keeps h) before = true ->
     records h !! k = Some r -> prunable r = true ->
     _prune h
     = (Throw TypeError, set_recordsMap (delete (record.name r) (_recordsMap h)) h)).
Proof.
  intros h. split; [apply prune_quiet|]. intros before k after r. apply prune_first.
Qed.


(** X22.  A name has one record.  Two [getRecord] calls with the same name
    hand out the same record; the second call makes no new record, sends
    nothing, and counts one more holder. *)
Theorem getRecord_twice_same_record : forall h n,
  registry_ok h -> n <> "" ->
  exists i h1 h2 r1 r2,
    getRecord n h = (Ok i, h1) /\ getRecord n h1 = (Ok i, h2) /\
    records h1 !! i = Some r1 /\ records h2 !! i = Some r2 /\
    record.usages r2 = (record.usages r1 + 1)%Z /\
    length (records h2) = length (records h1) /\
    record.outbox (shared h2) = record.outbox (shared h1).
Proof.
  intros h n Hok Hn.
  destruct (getRecord_spec n h Hok (or_introl Hn))
    as (i & r1 & h1 & Hget1 & Hok1 & Hm1 & Hr1 & _).
  destruct (getRecord_spec n h1 Hok1 (or_introl Hn))
    as (i2 & r2 & h2 & Hget2 & _ & _ & Hr2 & _ & _ & _ & _ & Hcase).
  rewrite Hm1 in Hcase. destruct Hcase as (-> & Hshared & Hlen & r0 & Hr0 & ->).
  assert (r0 = r1) by congruence. subst r0.
  exists i, h1, h2, r1, (record.set_usages (record.usages r1 + 1) r1).
  repeat split; try done. by rewrite Hshared.
Qed.

End registry_in_order.

Section handler_more.
Variable xuid : nat -> string.
Variable JSON_parse : string -> option json.
Variable convertTyped : option string -> value.

Import recordHandler.

Lemma set_identity args st e :
  same_identity st (fst (snd (record.set xuid args (st, e)))).
Proof.
  unfold record.set, bind, record.this, gets, record.invariant. simpl.
  destruct (record.isDestroyed st) eqn:Hd; simpl; [done|].
  set (path := if (length args =? 1)%nat then VUndef else nth 0 args VUndef).
  set (val := if (length args =? 1)%nat then nth 0 args VUndef else nth 1 args VUndef).
  destruct (is_undefined path && negb (typeof_object val)); [done|].
  assert (Htail : forall p q,
    same_identity st
      (fst (snd ((match p, q with
             | Some p, Some q =>
                 record.update (record.set_patchQueue
                   (Some (q ++ [{| record.entry_path := p; record.entry_data := val |}])))
             | _, _ => record.update (record.set_patchQueue None)
             end ;;;
             oldValue <- record.this record._data ;;
             newValue <- record.alloc (jsonPath.set oldValue p val) ;;
             if strict_eq oldValue newValue then ret tt
             else
               record._applyChange newValue ;;;
               ready <- record.this record.isReady ;;
               if ready then record._dispatchUpdate xuid else ret tt)%js (st, e))))).
  { intros p q. unfold bind, record.this, gets, record.update, modify, record.alloc.
    destruct p as [p|], q as [q|]; simpl;
      (destruct (jsonPath.set (record._data st) _ val (record.next_ref e))
         as [[newValue|err] next']; simpl; [|done];
       destruct (strict_eq (record._data st) newValue); simpl; [done|];
       match goal with
       | |- context [record._applyChange newValue (?s, ?e0)] =>
           let res := fresh "res" in let cs := fresh "cs" in
           destruct (applyChange_effect newValue s e0 Hd) as (res & cs & ->)
       end; destruct res as [[]|err]; simpl; [|done];
       destruct (record.isReady st); [by rewrite dispatchUpdate_effect|done]). }
  destruct path as [| | | |[|c p]| |]; try done.
  - unfold bind, record.this, gets. simpl. apply (Htail None (record._patchQueue st)).
  - unfold bind, record.this, gets. simpl.
    apply (Htail (Some (String c p)) (record._patchQueue st)).
Qed.








(** X23.  [set] of the handler takes a hold of the record and gives it back
    only when the record's [set] returns.  On a registry in order and with a
    proper name, the record is registered and live afterwards; its reference
    count is what it was before the call (0 for a record made by the call)
    when the call returns, and one more when the record's [set] throws. *)
Theorem handler_set_reference_count : forall h n args,
  registry_ok h -> n <> "" ->
  let before :=
    match _recordsMap h !! n with
    | Some i0 => default 0%Z (record.usages <$> records h !! i0)
    | None => 0%Z
    end in
  exists i r',
    _recordsMap (snd (recordHandler.set xuid n args h)) !! n = Some i /\
    records (snd (recordHandler.set xuid n args h)) !! i = Some r' /\
    record.isDestroyed r' = false /\
    record.usages r'
    = match fst (recordHandler.set xuid n args h) with
      | Ok _ => before
      | Throw _ => (before + 1)%Z
      end.
Proof.
  intros h n args Hok Hn before.
  destruct (getRecord_spec n h Hok (or_introl Hn))
    as (i & r & h1 & Hget & Hok1 & Hm1 & Hr & Hname & Hd & _ & _ & Hcase).
  assert (Hcount : record.usages r = (before + 1)%Z).
  { unfold before. destruct (_recordsMap h !! n) as [i0|].
    - destruct Hcase as (-> & _ & _ & r0 & Hr0 & ->). by rewrite Hr0.
    - by destruct Hcase as (_ & -> & _). }
  clear Hcase.
  set (args' := if (length args =? 1)%nat then [nth 0 args VUndef]
                else [nth 0 args VUndef; nth 1 args VUndef]).
  destruct (set_identity args' r (shared h1)) as (Hname2 & Husages2 & Hd2).
  destruct (record.set xuid args' (r, shared h1)) as [res [r2 e2]] eqn:Hset.
  simpl in Hname2, Husages2, Hd2.
  set (h2 := set_shared e2 (set_records (<[i := r2]> (records h1)) h1)).
  assert (Hr2 : records h2 !! i = Some r2).
  { simpl. apply list_lookup_insert_eq. by eapply lookup_lt_Some. }
  assert (Hstep : on_record i (record.set xuid args') h1 = (res, h2)).
  { by rewrite (on_record_found i _ h1 r Hr), Hset. }
  destruct (recordHandler.set xuid n args h) as [res' h'] eqn:Hs.
  unfold recordHandler.set, bind in Hs. rewrite Hget in Hs. fold args' in Hs.
  rewrite Hstep in Hs.
  exists i. destruct res as [[]|err].
  - rewrite (on_record_found i (record.discard false) h2 r2 Hr2) in Hs.
    unfold record.discard, bind, record.this, gets, record.invariant, record.update, modify
      in Hs.
    simpl in Hs. rewrite Hd2, Hd in Hs. simpl in Hs. injection Hs as <- <-.
    eexists. simpl. rewrite list_lookup_insert_eq
      by (rewrite length_insert; by eapply lookup_lt_Some).
    split; [done|]. split; [done|]. simpl. split; [congruence|]. lia.
  - injection Hs as <- <-. exists r2. simpl. split; [done|]. split; [done|].
    split; [congruence|]. congruence.
Qed.

End handler_more.

(** *** Worked scenarios: the registry *)

(** Two records, the first ready and released, the second held and not
    ready: the pruner stops at the first, whose name is gone from the map
    while the record lives on in the vector.  Before the snapshot has come
    the pruner passes over both. *)
Lemma prune_stops_at_the_first_idle_record_witness :
  let h0 := recordHandler.run sample_xuid sample_parse sample_convertTyped
              [recordHandler.op_getRecord "a"; recordHandler.op_getRecord "b"]
              (recordHandler.create empty_env) in
  let h := recordHandler.run sample_xuid sample_parse sample_convertTyped
             [recordHandler.op_message
                {| topic := RECORD; action := UPDATE; data := ["a"; "1-x"; "{}"] |};
              recordHandler.op_discard 0 false] h0 in
  recordHandler._prune h0 = (Ok tt, h0) /\
  fst (recordHandler._prune h) = Throw TypeError /\
  recordHandler._recordsVec (snd (recordHandler._prune h)) = [0%nat; 1%nat] /\
  recordHandler._recordsMap (snd (recordHandler._prune h)) !! "a" = None /\
  map record.isDestroyed (recordHandler.records (snd (recordHandler._prune h)))
  = [false; false].
Proof.
  intros h0 h.
  split; [apply (proj1 (prune_stops_at_the_first_idle_record h0)); by vm_compute|].
  assert (Hr : exists r, recordHandler.records h !! 0%nat = Some r /\
                         prunable r = true /\ record.name r = "a").
  { eexists. split; [by vm_compute|]. split; by vm_compute. }
  destruct Hr as (r & Hr & Hp & Hname).
  rewrite (proj2 (prune_stops_at_the_first_idle_record h) [] 0%nat [1%nat] r
             ltac:(by vm_compute) eq_refl Hr Hp).
  rewrite Hname. cbn [fst snd].
  split; [done|]. split; [by vm_compute|]. split; by vm_compute.
Defined.


Lemma getRecord_twice_same_record_witness :
  exists i h1 h2 r1 r2,
    recordHandler.getRecord "a" (recordHandler.create empty_env) = (Ok i, h1) /\
    recordHandler.getRecord "a" h1 = (Ok i, h2) /\
    recordHandler.records h1 !! i = Some r1 /\ recordHandler.records h2 !! i = Some r2 /\
    record.usages r2 = (record.usages r1 + 1)%Z /\
    length (recordHandler.records h2) = length (recordHandler.records h1) /\
    record.outbox (recordHandler.shared h2) = record.outbox (recordHandler.shared h1).
Proof.
  apply (getRecord_twice_same_record (recordHandler.create empty_env) "a");
    [|discriminate].
  split; [constructor|]. split; [by intros i Hi%elem_of_nil|].
  intros nm i Hi. simpl in Hi. by rewrite lookup_empty in Hi.
Defined.

(** [set('r', 5)] on the handler: the record's [set] rejects the data, and
    the record stays held once; [set('r', 'a', 1)] returns, and the count is
    back where it was. *)
Lemma handler_set_reference_count_witness :
  let h0 := recordHandler.create empty_env in
  let h1 := snd (recordHandler.set sample_xuid "r" [VNum 5] h0) in
  let h2 := snd (recordHandler.set sample_xuid "r" [VStr "a"; VNum 1] h1) in
  fst (recordHandler.set sample_xuid "r" [VNum 5] h0) = Throw (InvalidArgument "data") /\
  map record.usages (recordHandler.records h1) = [1] /\
  map record.usages (recordHandler.records h2) = [1] /\
  exists i r',
    recordHandler._recordsMap h1 !! "r" = Some i /\
    recordHandler.records h1 !! i = Some r' /\ record.usages r' = 1.
Proof.
  intros h0 h1 h2. split; [reflexivity|]. split; [reflexivity|]. split; [reflexivity|].
  assert (Hok : registry_ok h0).
  { split; [constructor|]. split; [by intros i Hi%elem_of_nil|].
    intros nm i Hi. simpl in Hi. by rewrite lookup_empty in Hi. }
  destruct (handler_set_reference_count sample_xuid h0 "r" [VNum 5] Hok ltac:(discriminate))
    as (i & r' & Hm & Hr & _ & Hu).
  exists i, r'. split; [exact Hm|]. split; [exact Hr|]. exact Hu.
Defined.

(** ** message/connection.js: the message queue *)

Section message_queue.
Import connection_state.

Lemma packets_sent_app c packets (c' : connection_state.t) :
  effects c' = effects c ++ map endpoint_send packets ->
  packets_sent c' = packets_sent c ++ packets.
Proof.
  unfold packets_sent. intros ->. rewrite omap_app. f_equal.
  induction packets as [|p packets IH]; [done|]. simpl. f_equal. exact IH.
Qed.

(** The loop of [_sendQueuedMessages] on an open socket. *)
Lemma send_packets_spec : forall n c,
  _endpoint c = WS_OPEN -> (0 < maxMessagesPerPacket c)%nat ->
  (length (_queuedMessages c) <= n)%nat ->
  exists packets,
    effects (Connection.send_packets n c) = effects c ++ map endpoint_send packets /\
    _queuedMessages (Connection.send_packets n c) = [] /\
    concat packets = _queuedMessages c /\
    Forall (fun p => p <> [] /\ (length p <= maxMessagesPerPacket c)%nat) packets /\
    (forall i p, packets !! i = Some p -> (S i < length packets)%nat ->
       length p = maxMessagesPerPacket c) /\
    _state (Connection.send_packets n c) = _state c /\
    _endpoint (Connection.send_packets n c) = WS_OPEN /\
    maxMessagesPerPacket (Connection.send_packets n c) = maxMessagesPerPacket c.
Proof.
  induction n as [|n IH]; intros c Hopen Hmax Hlen.
  - exists []. simpl. rewrite app_nil_r.
    destruct (_queuedMessages c); [by repeat split|simpl in Hlen; lia].
  - simpl. destruct (_queuedMessages c) as [|m queue] eqn:Hq.
    { exists []. simpl. rewrite app_nil_r, Hq. by repeat split. }
    unfold Connection._submit. simpl _endpoint. rewrite Hopen. simpl bool_decide. cbv iota.
    set (packet := take (maxMessagesPerPacket c) (m :: queue)).
    set (c1 := Connection.with_effect (endpoint_send packet)
                 (Connection.set_queuedMessages (drop (maxMessagesPerPacket c) (m :: queue)) c)).
    destruct (IH c1) as (packets & Heff & Hempty & Hcat & Hall & Hfull & Hst & Hep & Hmx);
      [done|done| |].
    { simpl. rewrite length_drop. simpl in Hlen |- *. lia. }
    exists (packet :: packets). rewrite Heff, Hempty, Hst, Hep, Hmx. simpl.
    split; [by rewrite <- app_assoc|]. split; [done|].
    split; [rewrite Hcat; apply take_drop|].
    split.
    { constructor; [|done]. split.
      + unfold packet. destruct (maxMessagesPerPacket c); [lia|done].
      + unfold packet. rewrite length_take. lia. }
    split; [|done]. intros [|i] p Hp Hi.
    + injection Hp as <-. destruct packets as [|p' packets]; [simpl in Hi; lia|].
      apply Forall_cons in Hall as [[Hne _] _].
      assert (drop (maxMessagesPerPacket c) (m :: queue) <> []) as Hdrop.
      { intros Hd. simpl in Hcat. rewrite Hd in Hcat. by destruct p'. }
      unfold packet. rewrite length_take.
      destruct (decide (maxMessagesPerPacket c <= length (m :: queue))%nat); [lia|].
      rewrite drop_ge in Hdrop by lia. done.
    + apply (Hfull i p Hp). simpl in Hi. lia.
Qed.

Lemma sendQueuedMessages_spec c :
  _state c = OPEN -> _endpoint c = WS_OPEN -> (0 < maxMessagesPerPacket c)%nat ->
  exists packets,
    effects (Connection._sendQueuedMessages c) = effects c ++ map endpoint_send packets /\
    _queuedMessages (Connection._sendQueuedMessages c) = [] /\
    _messageSender (Connection._sendQueuedMessages c) = false /\
    concat packets = _queuedMessages c /\
    Forall (fun p => p <> [] /\ (length p <= maxMessagesPerPacket c)%nat) packets /\
    (forall i p, packets !! i = Some p -> (S i < length packets)%nat ->
       length p = maxMessagesPerPacket c) /\
    _state (Connection._sendQueuedMessages c) = OPEN /\
    _endpoint (Connection._sendQueuedMessages c) = WS_OPEN /\
    maxMessagesPerPacket (Connection._sendQueuedMessages c) = maxMessagesPerPacket c.
Proof.
  intros Hst Hopen Hmax. unfold Connection._sendQueuedMessages.
  rewrite Hst, Hopen. simpl.
  destruct (send_packets_spec (length (_queuedMessages c)) c Hopen Hmax ltac:(done))
    as (packets & Heff & Hempty & Hcat & Hall & Hfull & Hst' & Hep & Hmx).
  exists packets. by rewrite Hst' in *.
Qed.

Lemma sendQueuedMessages_closed c :
  _state c <> OPEN \/ _endpoint c <> WS_OPEN -> Connection._sendQueuedMessages c = c.
Proof.
  intros H. unfold Connection._sendQueuedMessages.
  destruct H as [H|H].
  - by rewrite (bool_decide_eq_false_2 _ H).
  - rewrite (bool_decide_eq_false_2 _ H). by rewrite orb_true_r.
Qed.

Lemma sendQueuedMessages_cases c :
  (_state c = OPEN /\ _endpoint c = WS_OPEN) \/ Connection._sendQueuedMessages c = c.
Proof.
  destruct (decide (_state c = OPEN)) as [Hs|Hs];
    [|right; apply sendQueuedMessages_closed; by left].
  destruct (decide (_endpoint c = WS_OPEN)) as [He|He];
    [by left|right; apply sendQueuedMessages_closed; by right].
Qed.

Lemma sendQueuedMessages_conserves c :
  (0 < maxMessagesPerPacket c)%nat ->
  frames_sent (Connection._sendQueuedMessages c) ++ _queuedMessages (Connection._sendQueuedMessages c)
    = frames_sent c ++ _queuedMessages c /\
  maxMessagesPerPacket (Connection._sendQueuedMessages c) = maxMessagesPerPacket c.
Proof.
  intros Hmax. destruct (sendQueuedMessages_cases c) as [[Hs He]|Heq]; [|by rewrite Heq].
  destruct (sendQueuedMessages_spec c Hs He Hmax)
    as (packets & Heff & Hempty & _ & Hcat & _ & _ & _ & _ & Hmx).
  split; [|done]. unfold frames_sent.
  rewrite (packets_sent_app c packets _ Heff), Hempty, app_nil_r, concat_app. by rewrite Hcat.
Qed.

Lemma send_conserves m c :
  (0 < maxMessagesPerPacket c)%nat ->
  frames_sent (Connection.send m c) ++ _queuedMessages (Connection.send m c)
    = frames_sent c ++ _queuedMessages c ++ [m] /\
  maxMessagesPerPacket (Connection.send m c) = maxMessagesPerPacket c.
Proof.
  intros Hmax. unfold Connection.send. cbv zeta.
  destruct (_ <? _)%nat.
  - set (c1 := Connection.with_effect clear_timeout _).
    destruct (sendQueuedMessages_conserves c1 Hmax) as [Heq Hmx]. rewrite Heq, Hmx. split; [|done].
    unfold frames_sent, packets_sent, c1. simpl. rewrite omap_app. simpl. by rewrite app_nil_r.
  - by destruct (negb _).
Qed.

Lemma traffic_conserves : forall xs c,
  (0 < maxMessagesPerPacket c)%nat ->
  frames_sent (fold_left traffic_step xs c) ++ _queuedMessages (fold_left traffic_step xs c)
    = frames_sent c ++ _queuedMessages c
      ++ messages_of xs.
Proof.
  induction xs as [|x xs IH]; intros c Hmax; [unfold messages_of; simpl; by rewrite app_nil_r|].
  cbn [fold_left]. destruct x as [m|]; cbn [traffic_step]; unfold messages_of; cbn [omap].
  - destruct (send_conserves m c Hmax) as [Heq Hmx].
    rewrite IH by lia. rewrite (app_assoc (frames_sent _)), Heq.
    cbn [option_bind mbind]. by rewrite <- !app_assoc.
  - unfold Connection.flush.
    destruct (sendQueuedMessages_conserves c Hmax) as [Heq Hmx].
    rewrite IH by lia. by rewrite (app_assoc (frames_sent _)), Heq, <- app_assoc.
Qed.

(** X25.  The queue neither loses nor reorders nor repeats a message.
    Whatever the connection's state, through any sequence of [send]s and
    flushes the frames handed to the endpoint followed by the frames still
    queued are the frames that were there at the start followed by the
    messages sent since, in the order of the [send] calls. *)
Theorem queued_messages_are_neither_lost_nor_reordered xs c :
  (0 < maxMessagesPerPacket c)%nat ->
  frames_sent (fold_left traffic_step xs c) ++ _queuedMessages (fold_left traffic_step xs c)
    = frames_sent c ++ _queuedMessages c
      ++ messages_of xs.
Proof. apply traffic_conserves. Qed.

(** X24.  Flushing an open connection sends the whole queue, in order, in
    packets: the packets joined are the queue, no packet is empty, every
    packet but the last holds exactly [maxMessagesPerPacket] messages and the
    last no more; nothing else is done to the endpoint, the queue is empty
    afterwards and the timer handle is cleared. *)
Theorem flush_sends_the_queue_in_packets c :
  _state c = OPEN -> _endpoint c = WS_OPEN -> (0 < maxMessagesPerPacket c)%nat ->
  exists packets,
    effects (Connection.flush c) = effects c ++ map endpoint_send packets /\
    concat packets = _queuedMessages c /\
    Forall (fun p => p <> [] /\ (length p <= maxMessagesPerPacket c)%nat) packets /\
    (forall i p, packets !! i = Some p -> (S i < length packets)%nat ->
       length p = maxMessagesPerPacket c) /\
    _queuedMessages (Connection.flush c) = [] /\
    _messageSender (Connection.flush c) = false.
Proof.
  intros Hs He Hmax. unfold Connection.flush.
  destruct (sendQueuedMessages_spec c Hs He Hmax)
    as (packets & Heff & Hempty & Hsender & Hcat & Hall & Hfull & _).
  by exists packets.
Qed.

Lemma send_in_order m c :
  (0 < maxMessagesPerPacket c)%nat -> queue_in_order c ->
  queue_in_order (Connection.send m c) /\
  maxMessagesPerPacket (Connection.send m c) = maxMessagesPerPacket c.
Proof.
  intros Hmax (Hs & He & Hlen & Htimer). unfold Connection.send. cbv zeta.
  destruct (_ <? _)%nat eqn:Hlt.
  - set (c1 := Connection.with_effect clear_timeout _).
    destruct (sendQueuedMessages_spec c1 Hs He Hmax)
      as (packets & _ & Hempty & Hsender & _ & _ & _ & Hs' & He' & Hmx).
    split; [|done]. unfold queue_in_order. rewrite Hempty, Hs', He'. simpl.
    repeat split; [lia|done].
  - apply Nat.ltb_ge in Hlt. simpl in Hlt.
    destruct (negb _) eqn:Hn; (split; [|done]); unfold queue_in_order; simpl;
      repeat split; try done.
    intros _. simpl in Hn. by destruct (_messageSender c).
Qed.

Lemma flush_in_order c :
  (0 < maxMessagesPerPacket c)%nat -> queue_in_order c ->
  queue_in_order (Connection.flush c) /\
  maxMessagesPerPacket (Connection.flush c) = maxMessagesPerPacket c.
Proof.
  intros Hmax (Hs & He & Hlen & Htimer). unfold Connection.flush.
  destruct (sendQueuedMessages_spec c Hs He Hmax)
    as (packets & _ & Hempty & Hsender & _ & _ & _ & Hs' & He' & Hmx).
  split; [|done]. unfold queue_in_order. rewrite Hempty, Hs', He'. simpl.
  repeat split; [lia|done].
Qed.

Lemma traffic_in_order : forall xs c,
  (0 < maxMessagesPerPacket c)%nat -> queue_in_order c ->
  queue_in_order (fold_left traffic_step xs c) /\
  maxMessagesPerPacket (fold_left traffic_step xs c) = maxMessagesPerPacket c.
Proof.
  induction xs as [|x xs IH]; intros c Hmax Hc; [done|].
  cbn [fold_left]. destruct x as [m|]; cbn [traffic_step].
  - destruct (send_in_order m c Hmax Hc) as [Hc' Hmx].
    destruct (IH _ (eq_ind_r (fun n => (0 < n)%nat) Hmax Hmx) Hc') as [? ?]. split; [done|lia].
  - destruct (flush_in_order c Hmax Hc) as [Hc' Hmx].
    destruct (IH _ (eq_ind_r (fun n => (0 < n)%nat) Hmax Hmx) Hc') as [? ?]. split; [done|lia].
Qed.

(** X26.  On an open connection the queue stays in order: after any
    sequence of [send]s and flushes it holds at most [maxMessagesPerPacket]
    messages, and whenever it is not empty the flush timer is set, so no
    message waits without a timer. *)
Theorem open_queue_stays_within_a_packet xs c :
  (0 < maxMessagesPerPacket c)%nat -> queue_in_order c ->
  queue_in_order (fold_left traffic_step xs c).
Proof. intros Hmax Hc. by apply traffic_in_order. Qed.

Lemma reset_frames c :
  frames_sent (Connection._reset c) = frames_sent c /\
  _endpoint (Connection._reset c) = _endpoint c /\
  (_messageSender c = true -> _queuedMessages (Connection._reset c) = []) /\
  (_messageSender c = false -> _queuedMessages (Connection._reset c) = _queuedMessages c).
Proof.
  unfold Connection._reset, frames_sent, packets_sent.
  destruct (_heartbeatInterval c), (_messageSender c) eqn:Hm; simpl; rewrite ?Hm; simpl;
    rewrite ?omap_app; simpl; rewrite ?app_nil_r; done.
Qed.

Lemma close_after_reset c :
  frames_sent (Connection.close_endpoint (Connection.set_deliberateClose true c)) = frames_sent c /\
  _queuedMessages (Connection.close_endpoint (Connection.set_deliberateClose true c))
    = _queuedMessages c /\
  last (effects (Connection.close_endpoint (Connection.set_deliberateClose true c)))
    = Some endpoint_close /\
  _deliberateClose (Connection.close_endpoint (Connection.set_deliberateClose true c)) = true.
Proof.
  unfold frames_sent, packets_sent. simpl. rewrite omap_app, last_snoc. simpl.
  by rewrite app_nil_r.
Qed.

(** X27.  [close] sends what is queued before it closes, if it can.  On an
    open connection every queued frame has gone to the endpoint when the
    endpoint is closed; on a connection that is not open, the flush timer
    being set, the queued messages are thrown away unsent.  Either way the
    queue is empty afterwards, the close of the endpoint is the last thing
    done, and the close is marked deliberate. *)
Theorem close_sends_or_drops_the_queue c :
  (_state c = OPEN -> _endpoint c = WS_OPEN -> (0 < maxMessagesPerPacket c)%nat ->
   frames_sent (Connection.close c) = frames_sent c ++ _queuedMessages c /\
   _queuedMessages (Connection.close c) = [] /\
   _endpoint (Connection.close c) = WS_CLOSING) /\
  (_state c <> OPEN \/ _endpoint c <> WS_OPEN -> _messageSender c = true ->
   frames_sent (Connection.close c) = frames_sent c /\
   _queuedMessages (Connection.close c) = []) /\
  last (effects (Connection.close c)) = Some endpoint_close /\
  _deliberateClose (Connection.close c) = true.
Proof.
  unfold Connection.close.
  destruct (close_after_reset (Connection._reset (Connection._sendQueuedMessages c)))
    as (Hf2 & Hq2 & Hlast & Hd).
  rewrite Hf2, Hq2, Hlast, Hd. split; [|split; [|done]].
  - intros Hs He Hmax.
    destruct (sendQueuedMessages_spec c Hs He Hmax)
      as (packets & Heff & Hempty & Hsender & Hcat & _ & _ & _ & He' & _).
    set (c1 := Connection._sendQueuedMessages c) in *.
    destruct (reset_frames c1) as (Hf & Hep & _ & Hq).
    rewrite Hf, (Hq Hsender), Hempty. repeat split; try done.
    + unfold frames_sent. rewrite (packets_sent_app c packets c1 Heff), concat_app.
      by rewrite Hcat.
    + unfold Connection.close_endpoint. simpl. by rewrite Hep, He'.
  - intros Hs Hm. rewrite (sendQueuedMessages_closed c Hs).
    destruct (reset_frames c) as (Hf & _ & Hq & _). by rewrite Hf, (Hq Hm).
Qed.

End message_queue.

(** Five messages waiting, two to a packet: three packets. *)
Lemma flush_sends_the_queue_in_packets_witness :
  exists packets,
    connection_state.effects (Connection.flush (loaded_connection OPEN))
      = map endpoint_send packets /\
    concat packets = connection_state._queuedMessages (loaded_connection OPEN) /\
    Forall (fun p => p <> [] /\ (length p <= 2)%nat) packets /\
    (forall i p, packets !! i = Some p -> (S i < length packets)%nat -> length p = 2%nat) /\
    connection_state._queuedMessages (Connection.flush (loaded_connection OPEN)) = [] /\
    connection_state._messageSender (Connection.flush (loaded_connection OPEN)) = false.
Proof.
  apply (flush_sends_the_queue_in_packets (loaded_connection OPEN));
    [reflexivity|reflexivity|simpl; lia].
Defined.

Example flush_in_three_packets :
  connection_state.effects (Connection.flush (loaded_connection OPEN))
  = [endpoint_send [read_frame "a"; read_frame "b"];
     endpoint_send [read_frame "c"; read_frame "d"];
     endpoint_send [read_frame "e"]].
Proof. reflexivity. Qed.

Lemma queued_messages_are_neither_lost_nor_reordered_witness :
  let xs := [traffic_send (read_frame "f"); traffic_flush; traffic_send (read_frame "g")] in
  let c' := fold_left traffic_step xs (loaded_connection AUTHENTICATING) in
  frames_sent c' ++ connection_state._queuedMessages c'
  = connection_state._queuedMessages (loaded_connection AUTHENTICATING)
    ++ [read_frame "f"; read_frame "g"].
Proof.
  intros xs c'.
  apply (queued_messages_are_neither_lost_nor_reordered xs (loaded_connection AUTHENTICATING)).
  simpl. lia.
Defined.

Lemma open_queue_stays_within_a_packet_witness :
  queue_in_order
    (fold_left traffic_step
       [traffic_send (read_frame "a"); traffic_send (read_frame "b"); traffic_flush;
        traffic_send (read_frame "c")]
       sample_connection).
Proof.
  apply (open_queue_stays_within_a_packet _ sample_connection); [simpl; lia|].
  split; [reflexivity|]. split; [reflexivity|]. split; [simpl; lia|]. by intros [].
Defined.

Lemma close_sends_or_drops_the_queue_witness :
  (frames_sent (Connection.close (loaded_connection OPEN))
     = connection_state._queuedMessages (loaded_connection OPEN) /\
   connection_state._queuedMessages (Connection.close (loaded_connection OPEN)) = [] /\
   connection_state._endpoint (Connection.close (loaded_connection OPEN)) = WS_CLOSING) /\
  (frames_sent (Connection.close (loaded_connection AUTHENTICATING)) = [] /\
   connection_state._queuedMessages (Connection.close (loaded_connection AUTHENTICATING))
     = []).
Proof.
  split.
  - apply (proj1 (close_sends_or_drops_the_queue (loaded_connection OPEN)));
      [reflexivity|reflexivity|simpl; lia].
  - apply (proj1 (proj2 (close_sends_or_drops_the_queue (loaded_connection AUTHENTICATING))));
      [by left|reflexivity].
Defined.

(** ** message/connection.js: reconnecting and logging in *)

Section lifecycle.
Import connection_state ConnectionLifecycle.

Lemma reconnect_delays_app f (f' : ConnectionLifecycle.t) more :
  events f' = events f ++ more ->
  reconnect_delays f'
  = reconnect_delays f
    ++ omap (fun e => match snd e with set_reconnect_timeout d => Some d | _ => None end) more.
Proof. unfold reconnect_delays. intros ->. by rewrite omap_app. Qed.

Lemma reset_flags c :
  _deliberateClose (Connection._reset c) = _deliberateClose c /\
  _redirecting (Connection._reset c) = _redirecting c.
Proof.
  unfold Connection._reset.
  destruct (_heartbeatInterval c); simpl; by destruct (_messageSender c).
Qed.

Lemma setState_flags st c :
  _deliberateClose (Connection._setState st c) = _deliberateClose c /\
  _redirecting (Connection._setState st c) = _redirecting c /\
  _state (Connection._setState st c) = st.
Proof.
  unfold Connection._setState. destruct (bool_decide_reflect (_state c = st)); by simpl.
Qed.

Lemma tryOpen_fields f :
  _deliberateClose (core (_tryOpen f)) = _deliberateClose (core f) /\
  _redirecting (core (_tryOpen f)) = _redirecting (core f) /\
  _state (core (_tryOpen f)) = _state (core f) /\
  _endpoint (core (_tryOpen f)) = WS_CONNECTING /\
  _reconnectTimeout (_tryOpen f) = None /\
  _reconnectionAttempt (_tryOpen f) = _reconnectionAttempt f /\
  maxReconnectAttempts (_tryOpen f) = maxReconnectAttempts f /\
  maxReconnectInterval (_tryOpen f) = maxReconnectInterval f /\
  reconnectIntervalIncrement (_tryOpen f) = reconnectIntervalIncrement f /\
  events (_tryOpen f)
    = events f ++ [(length (effects (core f)), create_endpoint (_originalUrl (core f)))].
Proof.
  unfold _tryOpen. cbv zeta.
  destruct (bool_decide_reflect (_originalUrl (core f) <> _url (core f))) as [H|H]; simpl.
  - by repeat split.
  - apply dec_stable in H. rewrite H. by repeat split.
Qed.

Lemma tryReconnect_fields g :
  _reconnectTimeout g = None -> attempts_left g = true ->
  core (_tryReconnect g) = Connection._setState RECONNECTING (core g) /\
  _reconnectTimeout (_tryReconnect g) = Some (backoff g (_reconnectionAttempt g)) /\
  _reconnectionAttempt (_tryReconnect g) = S (_reconnectionAttempt g) /\
  maxReconnectAttempts (_tryReconnect g) = maxReconnectAttempts g /\
  maxReconnectInterval (_tryReconnect g) = maxReconnectInterval g /\
  reconnectIntervalIncrement (_tryReconnect g) = reconnectIntervalIncrement g /\
  events (_tryReconnect g)
    = events g ++ [(length (effects (Connection._setState RECONNECTING (core g))),
                    set_reconnect_timeout (backoff g (_reconnectionAttempt g)))].
Proof.
  intros Ht Hleft. unfold _tryReconnect. rewrite Ht, Hleft.
  rewrite bool_decide_false by (by intros [? ?]). by repeat split.
Qed.

Lemma onClose_lost f :
  lost_not_closed f -> _onClose f = _tryReconnect (on_core Connection._reset f).
Proof.
  intros (Hd & Hr & Ht). unfold _onClose. cbv zeta.
  destruct (reset_flags (core f)) as [Hd' Hr'].
  cbn [on_core set_core core]. by rewrite Hr', Hr, Hd', Hd.
Qed.

(** One failed attempt while attempts are left: the timer is set to the
    delay of this attempt, and the next attempt is one further. *)
Lemma close_and_retry_step f :
  lost_not_closed f -> attempts_left f = true ->
  lost_not_closed (close_and_retry f) /\
  _reconnectionAttempt (close_and_retry f) = S (_reconnectionAttempt f) /\
  reconnect_delays (close_and_retry f)
    = reconnect_delays f ++ [backoff f (_reconnectionAttempt f)] /\
  _state (core (close_and_retry f)) = RECONNECTING /\
  maxReconnectAttempts (close_and_retry f) = maxReconnectAttempts f /\
  maxReconnectInterval (close_and_retry f) = maxReconnectInterval f /\
  reconnectIntervalIncrement (close_and_retry f) = reconnectIntervalIncrement f.
Proof.
  intros Hf Hleft. unfold close_and_retry. rewrite (onClose_lost f Hf).
  destruct Hf as (Hd & Hr & Ht).
  set (g := on_core Connection._reset f).
  destruct (tryReconnect_fields g Ht Hleft) as (R1 & R2 & R3 & R4 & R5 & R6 & R7).
  destruct (tryOpen_fields (_tryReconnect g)) as (O1 & O2 & O3 & O4 & O5 & O6 & O7 & O8 & O9 & O10).
  destruct (setState_flags RECONNECTING (core g)) as (Sd & Sr & Ss).
  destruct (reset_flags (core f)) as [Hd' Hr'].
  unfold lost_not_closed. rewrite O1, O2, O3, O5, O6, O7, O8, O9, R1, R3, R4, R5, R6, Sd, Sr, Ss.
  repeat split; try done.
  - by rewrite <- Hd.
  - by rewrite <- Hr.
  - rewrite (reconnect_delays_app (_tryReconnect g) _ _ O10).
    rewrite (reconnect_delays_app g _ _ R7). simpl. by rewrite app_nil_r.
Qed.

Lemma close_and_retry_rounds : forall n f m,
  lost_not_closed f -> maxReconnectAttempts f = m ->
  (forall limit, m = Some limit -> (_reconnectionAttempt f + n <= limit)%nat) ->
  lost_not_closed (Nat.iter n close_and_retry f) /\
  _reconnectionAttempt (Nat.iter n close_and_retry f) = (_reconnectionAttempt f + n)%nat /\
  reconnect_delays (Nat.iter n close_and_retry f)
    = reconnect_delays f
      ++ map (fun k => backoff f (_reconnectionAttempt f + k)) (seq 0 n) /\
  maxReconnectAttempts (Nat.iter n close_and_retry f) = m /\
  maxReconnectInterval (Nat.iter n close_and_retry f) = maxReconnectInterval f /\
  reconnectIntervalIncrement (Nat.iter n close_and_retry f) = reconnectIntervalIncrement f /\
  (0 < n -> _state (core (Nat.iter n close_and_retry f)) = RECONNECTING)%nat.
Proof.
  induction n as [|n IH]; intros f m Hf Hm Hlim.
  - simpl. rewrite app_nil_r, Nat.add_0_r. split; [exact Hf|].
    repeat split; try done. intros H. inversion H.
  - destruct (IH f m Hf Hm) as (I1 & I2 & I3 & I4 & I5 & I6 & _).
    { intros limit Hl. specialize (Hlim limit Hl). lia. }
    rewrite !Nat.iter_succ. set (g := Nat.iter n close_and_retry f) in *.
    destruct (close_and_retry_step g I1) as (S1 & S2 & S3 & S4 & S5 & S6 & S7).
    { unfold attempts_left. rewrite I4. destruct m as [limit|]; [|done].
      apply Nat.ltb_lt. specialize (Hlim limit eq_refl). lia. }
    rewrite S2, S3, S5, S6, S7, I2, I3, I4, I5, I6. split; [exact S1|].
    repeat split; try done; try lia.
    rewrite seq_S, map_app, <- app_assoc. simpl. do 2 f_equal.
    unfold backoff. by rewrite I5, I6.
Qed.

Lemma onOpen_fields now f :
  _deliberateClose (core (_onOpen now f)) = _deliberateClose (core f) /\
  _redirecting (core (_onOpen now f)) = _redirecting (core f) /\
  _reconnectTimeout (_onOpen now f) = None /\
  _reconnectionAttempt (_onOpen now f) = 0%nat /\
  maxReconnectAttempts (_onOpen now f) = maxReconnectAttempts f /\
  maxReconnectInterval (_onOpen now f) = maxReconnectInterval f /\
  reconnectIntervalIncrement (_onOpen now f) = reconnectIntervalIncrement f /\
  reconnect_delays (_onOpen now f) = reconnect_delays f.
Proof.
  unfold _onOpen. cbv zeta.
  set (f3 := on_core (Connection.set_heartbeatInterval true) _).
  change (on_core (Connection._setState AWAITING_CONNECTION) f3)
    with (set_core (Connection._setState AWAITING_CONNECTION (core f3)) f3).
  destruct (setState_flags AWAITING_CONNECTION (core f3)) as (Sd & Sr & _).
  cbn [set_core core _reconnectTimeout _reconnectionAttempt maxReconnectAttempts
         maxReconnectInterval reconnectIntervalIncrement].
  rewrite Sd, Sr. repeat split; try done.
  unfold reconnect_delays. simpl. rewrite !omap_app. simpl. by rewrite !app_nil_r.
Qed.

Lemma sendQueuedMessages_flags c :
  (0 < maxMessagesPerPacket c)%nat ->
  _state (Connection._sendQueuedMessages c) = _state c /\
  _endpoint (Connection._sendQueuedMessages c) = _endpoint c.
Proof.
  intros Hmax. destruct (sendQueuedMessages_cases c) as [[Hs He]|Heq]; [|by rewrite Heq].
  destruct (sendQueuedMessages_spec c Hs He Hmax) as (_ & _ & _ & _ & _ & _ & _ & Hs' & He' & _).
  by rewrite Hs', He', Hs, He.
Qed.

(** The socket closes once more when no attempt is left: no timer is set,
    the connection is closed on purpose, and the event that tells so carries
    the attempt counter as [_clearReconnect] has left it. *)
Lemma onClose_gives_up f :
  lost_not_closed f -> attempts_left f = false ->
  reconnect_delays (_onClose f) = reconnect_delays f /\
  _reconnectTimeout (_onClose f) = None /\
  _reconnectionAttempt (_onClose f) = 0%nat /\
  _deliberateClose (core (_onClose f)) = true /\
  snd <$> last (events (_onClose f)) = Some (max_reconnection_attempts_reached 0).
Proof.
  intros Hf Hleft. rewrite (onClose_lost f Hf). destruct Hf as (Hd & Hr & Ht).
  set (g := on_core Connection._reset f). unfold _tryReconnect.
  replace (_reconnectTimeout g) with (@None Z) by done.
  rewrite bool_decide_false by (by intros [? ?]).
  replace (attempts_left g) with (attempts_left f) by done. rewrite Hleft. cbv zeta.
  unfold reconnect_delays, _clearReconnect.
  cbn [on_core set_core with_event set_reconnectionAttempt set_reconnectTimeout core events
         _reconnectTimeout _reconnectionAttempt].
  rewrite !omap_app, last_snoc. simpl. rewrite !app_nil_r. by repeat split.
Qed.

(** X29.  Reconnecting backs off and gives up.  After the socket has
    opened, when it closes [n] times in a row without the close being
    deliberate or a redirect, the timer that reopens it running each time,
    the delays of the timers are [min(maxReconnectInterval,
    reconnectIntervalIncrement * k)] for [k = 0, ..., n - 1], as long as
    [maxReconnectAttempts] allows [n] attempts: the first retry is immediate.
    When the socket closes again after [maxReconnectAttempts] attempts, no
    timer is set, the connection is marked closed on purpose, and the event
    that reports it carries the attempt counter after its reset, 0. *)
Theorem reconnect_backs_off_and_gives_up now f0 n :
  _deliberateClose (core f0) = false -> _redirecting (core f0) = false ->
  (forall limit, maxReconnectAttempts f0 = Some limit -> (n <= limit)%nat) ->
  let f := _onOpen now f0 in
  let g := Nat.iter n close_and_retry f in
  reconnect_delays g = reconnect_delays f0 ++ map (backoff f0) (seq 0 n) /\
  _reconnectionAttempt g = n /\
  lost_not_closed g /\
  (maxReconnectAttempts f0 = Some n ->
   reconnect_delays (_onClose g) = reconnect_delays g /\
   _reconnectTimeout (_onClose g) = None /\
   _deliberateClose (core (_onClose g)) = true /\
   snd <$> last (events (_onClose g)) = Some (max_reconnection_attempts_reached 0)).
Proof.
  intros Hd Hr Hlim f g.
  destruct (onOpen_fields now f0) as (O1 & O2 & O3 & O4 & O5 & O6 & O7 & O8).
  fold f in O1, O2, O3, O4, O5, O6, O7, O8.
  assert (Hf : lost_not_closed f).
  { unfold lost_not_closed. by rewrite O1, O2, O3, Hd, Hr. }
  destruct (close_and_retry_rounds n f (maxReconnectAttempts f0) Hf O5)
    as (R1 & R2 & R3 & R4 & _).
  { intros limit Hl. rewrite O4. simpl. by apply Hlim. }
  fold g in R1, R2, R3, R4. rewrite O4 in R2, R3. simpl in R2, R3.
  rewrite R3, O8. split; [|split; [done|split; [done|]]].
  { by f_equal. }
  intros Hmax.
  assert (Hleft : attempts_left g = false).
  { unfold attempts_left. rewrite R4, Hmax, R2. apply Nat.ltb_irrefl. }
  destruct (onClose_gives_up g R1 Hleft) as (G1 & G2 & _ & G4 & G5).
  by rewrite G1, R3, O8.
Qed.

Lemma send_closed m c :
  _state c <> OPEN ->
  _state (Connection.send m c) = _state c /\
  _endpoint (Connection.send m c) = _endpoint c /\
  maxMessagesPerPacket (Connection.send m c) = maxMessagesPerPacket c /\
  frames_sent (Connection.send m c) = frames_sent c.
Proof.
  intros Hs. unfold Connection.send. cbv zeta.
  destruct (_ <? _)%nat.
  - rewrite sendQueuedMessages_closed by (by left).
    unfold frames_sent, packets_sent. simpl. rewrite omap_app. simpl. by rewrite app_nil_r.
  - by destruct (negb _).
Qed.

Lemma traffic_closed : forall xs c,
  _state c <> OPEN ->
  _state (fold_left traffic_step xs c) = _state c /\
  _endpoint (fold_left traffic_step xs c) = _endpoint c /\
  maxMessagesPerPacket (fold_left traffic_step xs c) = maxMessagesPerPacket c /\
  frames_sent (fold_left traffic_step xs c) = frames_sent c.
Proof.
  induction xs as [|x xs IH]; intros c Hs; [done|]. cbn [fold_left].
  destruct x as [m|]; cbn [traffic_step].
  - destruct (send_closed m c Hs) as (S1 & S2 & S3 & S4).
    destruct (IH (Connection.send m c)) as (I1 & I2 & I3 & I4); [by rewrite S1|].
    by rewrite I1, I2, I3, I4, S1, S2, S3, S4.
  - unfold Connection.flush. rewrite sendQueuedMessages_closed by (by left). by apply IH.
Qed.

Lemma setState_frames st c :
  frames_sent (Connection._setState st c) = frames_sent c /\
  _queuedMessages (Connection._setState st c) = _queuedMessages c /\
  _endpoint (Connection._setState st c) = _endpoint c /\
  maxMessagesPerPacket (Connection._setState st c) = maxMessagesPerPacket c.
Proof.
  unfold Connection._setState. destruct (bool_decide (_state c = st)); [done|].
  unfold frames_sent, packets_sent. simpl. rewrite omap_app. simpl. by rewrite app_nil_r.
Qed.

Lemma send_flags m c :
  (0 < maxMessagesPerPacket c)%nat ->
  _state (Connection.send m c) = _state c /\
  _endpoint (Connection.send m c) = _endpoint c.
Proof.
  intros Hmax. unfold Connection.send. cbv zeta.
  destruct (_ <? _)%nat.
  - by destruct (sendQueuedMessages_flags
                   (Connection.with_effect clear_timeout
                      (Connection.set_queuedMessages (_queuedMessages c ++ [m]) c)) Hmax).
  - by destruct (negb _).
Qed.

Lemma send_all_spec : forall ms c,
  (0 < maxMessagesPerPacket c)%nat ->
  _state (send_all ms c) = _state c /\
  _endpoint (send_all ms c) = _endpoint c /\
  maxMessagesPerPacket (send_all ms c) = maxMessagesPerPacket c /\
  frames_sent (send_all ms c) ++ _queuedMessages (send_all ms c)
  = frames_sent c ++ _queuedMessages c ++ ms.
Proof.
  unfold send_all.
  induction ms as [|m ms IH]; intros c Hmax; cbn [fold_left].
  { by rewrite app_nil_r. }
  destruct (send_flags m c Hmax) as [S1 S2].
  destruct (send_conserves m c Hmax) as [S3 S4].
  destruct (IH (Connection.send m c)) as (I1 & I2 & I3 & I4); [by rewrite S4|].
  rewrite I1, I2, I3, I4, S1, S2, S4. split; [done|]. split; [done|]. split; [done|].
  rewrite (app_assoc (frames_sent (Connection.send m c))), S3. by rewrite <- !app_assoc.
Qed.

(** X30.  What is sent before the login goes out at the login.  While
    the connection is not open, [send] and flushes hand nothing to the
    endpoint and keep every message, in order, in the queue; when the
    server then acknowledges the authentication, the connection is open and
    the whole queue has gone to the endpoint, in order, after what had been
    sent before, and followed by what the listeners of the state change
    (the READ of every record that is not subscribed) and then the callback
    of the login have sent during the call. *)
Theorem backlog_goes_out_at_login f xs d heard answered :
  _state (core f) <> OPEN -> _endpoint (core f) = WS_OPEN ->
  (0 < maxMessagesPerPacket (core f))%nat ->
  let c1 := fold_left traffic_step xs (core f) in
  let f' := _handleAuthResponse (auth_message ACK d) heard answered (set_core c1 f) in
  frames_sent c1 = frames_sent (core f) /\
  _queuedMessages c1 = _queuedMessages (core f) ++ messages_of xs /\
  _state (core f') = OPEN /\
  frames_sent (core f')
    = frames_sent (core f) ++ _queuedMessages (core f) ++ messages_of xs
      ++ heard ++ (if _authCallback f then answered else []) /\
  _queuedMessages (core f') = [].
Proof.
  intros Hs He Hmax c1 f'.
  destruct (traffic_closed xs (core f) Hs) as (T1 & T2 & T3 & T4). fold c1 in T1, T2, T3, T4.
  pose proof (traffic_conserves xs (core f) Hmax) as Hcons. fold c1 in Hcons.
  rewrite T4 in Hcons. apply app_inv_head in Hcons.
  split; [done|]. split; [done|].
  set (c2 := send_all heard (Connection._setState OPEN c1)).
  set (c3 := send_all (if _authCallback f then answered else []) c2).
  assert (Hcore : core f' = Connection._sendQueuedMessages c3).
  { unfold f', _handleAuthResponse. cbn [action auth_message]. cbv zeta.
    assert (Hheard : on_core (_setState OPEN heard) (set_core c1 f) = set_core c2 f).
    { unfold on_core, _setState. cbn [core set_core].
      by rewrite bool_decide_false by (by rewrite T1). }
    rewrite Hheard. unfold c3. cbn [_authCallback set_core].
    by destruct (_authCallback f). }
  rewrite Hcore.
  destruct (setState_flags OPEN c1) as (_ & _ & S1).
  destruct (setState_frames OPEN c1) as (S2 & S3 & S4 & S5).
  destruct (send_all_spec heard (Connection._setState OPEN c1)) as (A1 & A2 & A3 & A4);
    [by rewrite S5, T3|]. fold c2 in A1, A2, A3, A4.
  destruct (send_all_spec (if _authCallback f then answered else []) c2)
    as (B1 & B2 & B3 & B4); [by rewrite A3, S5, T3|]. fold c3 in B1, B2, B3, B4.
  destruct (sendQueuedMessages_spec c3) as (packets & Heff & Hempty & _ & Hcat & _ & _ & Hst & _).
  { by rewrite B1, A1. }
  { by rewrite B2, A2, S4, T2. }
  { by rewrite B3, A3, S5, T3. }
  split; [done|]. split; [|done].
  unfold frames_sent at 1. rewrite (packets_sent_app _ packets _ Heff), concat_app, Hcat.
  fold (frames_sent c3). rewrite B4, (app_assoc (frames_sent c2)), A4, S2, S3, T4, Hcons.
  by rewrite <- !app_assoc.
Qed.

End lifecycle.

(** Five failed attempts with the default options: at once, then after 4, 8,
    12 and 16 seconds; the sixth close gives up. *)
Lemma reconnect_backs_off_and_gives_up_witness :
  let g := Nat.iter 5 close_and_retry
             (ConnectionLifecycle._onOpen 1000 (sample_lifecycle sample_connection)) in
  reconnect_delays g = [0; 4000; 8000; 12000; 16000] /\
  ConnectionLifecycle._reconnectionAttempt g = 5%nat /\
  lost_not_closed g /\
  reconnect_delays (ConnectionLifecycle._onClose g) = reconnect_delays g /\
  ConnectionLifecycle._reconnectTimeout (ConnectionLifecycle._onClose g) = None /\
  connection_state._deliberateClose
    (ConnectionLifecycle.core (ConnectionLifecycle._onClose g)) = true /\
  snd <$> last (ConnectionLifecycle.events (ConnectionLifecycle._onClose g))
    = Some (ConnectionLifecycle.max_reconnection_attempts_reached 0).
Proof.
  intros g.
  destruct (reconnect_backs_off_and_gives_up 1000 (sample_lifecycle sample_connection) 5
              eq_refl eq_refl) as (H1 & H2 & H3 & H4).
  { intros limit Hl. injection Hl as <-. lia. }
  split; [exact H1|]. split; [exact H2|]. split; [exact H3|]. exact (H4 eq_refl).
Defined.

Lemma backlog_goes_out_at_login_witness :
  let f := sample_lifecycle (loaded_connection AUTHENTICATING) in
  let xs := [traffic_send (read_frame "f"); traffic_flush] in
  let c1 := fold_left traffic_step xs (ConnectionLifecycle.core f) in
  let f' := ConnectionLifecycle._handleAuthResponse (auth_message ACK [])
              [read_frame "g"; read_frame "h"] [read_frame "i"]
              (ConnectionLifecycle.set_core c1 f) in
  frames_sent c1 = [] /\
  connection_state._queuedMessages c1
    = connection_state._queuedMessages (loaded_connection AUTHENTICATING)
      ++ [read_frame "f"] /\
  connection_state._state (ConnectionLifecycle.core f') = OPEN /\
  frames_sent (ConnectionLifecycle.core f')
    = connection_state._queuedMessages (loaded_connection AUTHENTICATING)
      ++ [read_frame "f"] ++ [read_frame "g"; read_frame "h"] ++ [read_frame "i"] /\
  connection_state._queuedMessages (ConnectionLifecycle.core f') = [].
Proof.
  intros f xs c1 f'.
  apply (backlog_goes_out_at_login f xs [] [read_frame "g"; read_frame "h"] [read_frame "i"]);
    [discriminate|reflexivity|simpl; lia].
Defined.
